(** * ZJ Star War: a shallow embedding of the frame loop of [src/App.tsx]

    The game is a React component whose simulation lives in one closure,
    [loop], run once per animation frame.  The embedding follows the
    source text:

    - JavaScript numbers are split by use: coordinates, speeds and
      probabilities are rationals ([Q], rounding of doubles is not
      modelled), counters, lives, scores, levels and [Date.now()]
      timestamps are integers ([Z]);
    - the classes [Bullet], [Enemy], [PowerUp] and [Particle] are records,
      one module each, with their constructors and [update] methods;
    - [gameData.current] and the [useState] cells are the fields of one
      record [World], threaded through the loop by explicit state passing.
      A [setX(prev => ...)] updater is applied to the pending value of its
      cell at the call, which yields the same final value as React's queue
      (updaters of one cell run in call order); the values of [level] and
      [activePowerUps] that the closure READS are the ones captured when
      the effect was installed, kept apart in [Closure];
    - [Math.random()] and [Date.now()] are read from an environment, a
      sequence of draws and a sequence of clock readings, with the number
      of calls made so far kept in the world;
    - a frame ([frame]) is one call of [loop] by the effect installed at
      the last render: the component is taken to have rendered since the
      previous frame, so the captured [level] and [activePowerUps] are the
      current ones when the frame starts;
    - drawing ([draw], [ctx]) and sound ([playSound]) do not touch the
      simulation state and are left out. *)

From Stdlib Require Import ZArith QArith Qminmax List String Lia Bool Lqa.
From stdpp Require Import gmap strings.
Import ListNotations.

Local Open Scope Q_scope.

(** ** Numbers *)

(** [a < b] on JavaScript numbers, as a boolean. *)
Definition Qltb (a b : Q) : bool := negb (Qle_bool b a).

(** ** types.ts *)

Inductive GameState := START | PLAYING | PAUSED | GAME_OVER.
Inductive EnemyType := BASIC | FAST | HEAVY.
Inductive PowerUpType := TRIPLE_SHOT | SHIELD | EXTRA_LIFE.

Definition PowerUpType_eqb (a b : PowerUpType) : bool :=
  match a, b with
  | TRIPLE_SHOT, TRIPLE_SHOT | SHIELD, SHIELD | EXTRA_LIFE, EXTRA_LIFE => true
  | _, _ => false
  end.

Module Achievement.
Record t := mk {
  id : string;
  name : string;
  description : string;
  unlocked : bool;
  icon : string
}.
End Achievement.

Definition INITIAL_ACHIEVEMENTS : list Achievement.t :=
  [ Achievement.mk "first_blood" "第一滴血" "击毁第一架敌机" false "Target";
    Achievement.mk "survivor" "生存者" "在单场游戏中坚持超过60秒" false "Shield";
    Achievement.mk "ace_pilot" "王牌飞行员" "击毁50架敌机" false "Trophy";
    Achievement.mk "power_up_junkie" "道具狂人" "拾取10个道具" false "Zap";
    Achievement.mk "unstoppable" "势不可挡" "达到第5关" false "Flame";
    Achievement.mk "life_saver" "续命大师" "拾取一个额外生命道具" false "Heart" ].

(** ** constants.ts *)

Definition PLAYER_SIZE : Q := 40.
Definition PLAYER_SPEED : Q := 5.
Definition PLAYER_INITIAL_LIVES : Z := 3.
Definition INVINCIBILITY_DURATION : Z := 2000.

Definition BULLET_SPEED : Q := 7.
Definition BULLET_SIZE : Q := 4.

Module EnemyConfig.
Record t := mk {
  size : Q;
  speed : Q;
  health : Z;
  points : Z;
  color : string;
  glow : string
}.
End EnemyConfig.

Definition ENEMY_CONFIGS (type : EnemyType) : EnemyConfig.t :=
  match type with
  | BASIC => EnemyConfig.mk 35 2 1 100 "#3b82f6" "#60a5fa"
  | FAST => EnemyConfig.mk 25 4 1 150 "#10b981" "#34d399"
  | HEAVY => EnemyConfig.mk 50 1.2 3 300 "#ef4444" "#f87171"
  end.

Definition POWERUP_SIZE : Q := 30.
Definition POWERUP_DURATION : Z := 8000.
Definition POWERUP_SPAWN_CHANCE : Q := 0.15.

Definition ENEMIES_PER_LEVEL : Z := 10.

(** ** The environment of a run *)

(** [Math_random k] is the value of the [k]-th call of [Math.random()],
    [Date_now k] the value of the [k]-th call of [Date.now()].  The
    trigonometric functions used for particle velocities have no rational
    counterpart and are taken from the environment as well. *)
Record Env := {
  Math_random : nat -> Q;
  Date_now : nat -> Z;
  Math_PI : Q;
  Math_cos : Q -> Q;
  Math_sin : Q -> Q
}.

(** The canvas as the loop reads it: the CSS size ([clientWidth],
    [clientHeight]) and the height of the pixel buffer ([canvas.height]). *)
Record Canvas := {
  clientWidth : Q;
  clientHeight : Q;
  height : Q
}.

(** ** Game logic classes *)

Module Bullet.
Record t := mk {
  x : Q;
  y : Q;
  vx : Q;
  vy : Q;
  radius : Q;
  color : string;
  isEnemy : bool
}.

(** [constructor(x, y, vx, vy, color = '#fff', isEnemy = false)] *)
Definition new (x0 y0 vx0 vy0 : Q) (color0 : string) (isEnemy0 : bool) : t :=
  mk x0 y0 vx0 vy0 BULLET_SIZE color0 isEnemy0.

Definition update (b : t) : t :=
  mk (x b + vx b) (y b + vy b) (vx b) (vy b) (radius b) (color b) (isEnemy b).
End Bullet.

Module Enemy.
Record t := mk {
  x : Q;
  y : Q;
  type : EnemyType;
  size : Q;
  speed : Q;
  health : Z;
  points : Z;
  color : string;
  glow : string
}.

(** [constructor(canvasWidth, type)]; [r] is the draw of
    [Math.random()] that places the enemy. *)
Definition new (r : Q) (canvasWidth : Q) (type0 : EnemyType) : t :=
  let config := ENEMY_CONFIGS type0 in
  mk (r * (canvasWidth - EnemyConfig.size config))
     (- EnemyConfig.size config)
     type0
     (EnemyConfig.size config)
     (EnemyConfig.speed config)
     (EnemyConfig.health config)
     (EnemyConfig.points config)
     (EnemyConfig.color config)
     (EnemyConfig.glow config).

Definition update (e : t) : t :=
  mk (x e) (y e + speed e) (type e) (size e) (speed e) (health e)
     (points e) (color e) (glow e).

(** [e.health = h] *)
Definition set_health (h : Z) (e : t) : t :=
  mk (x e) (y e) (type e) (size e) (speed e) h (points e) (color e) (glow e).
End Enemy.

Module PowerUp.
Record t := mk {
  x : Q;
  y : Q;
  type : PowerUpType;
  size : Q;
  speed : Q
}.

(** [constructor(canvasWidth)]; [rand] picks the variant, [r] the place. *)
Definition new (rand r : Q) (canvasWidth : Q) : t :=
  let type0 :=
    if Qltb rand 0.4 then TRIPLE_SHOT
    else if Qltb rand 0.8 then SHIELD
    else EXTRA_LIFE in
  mk (r * (canvasWidth - POWERUP_SIZE)) (- POWERUP_SIZE) type0 POWERUP_SIZE 1.5.

Definition update (p : t) : t :=
  mk (x p) (y p + speed p) (type p) (size p) (speed p).
End PowerUp.

Module Particle.
Record t := mk {
  x : Q;
  y : Q;
  vx : Q;
  vy : Q;
  life : Q;
  color : string
}.

(** [constructor(x, y, color)]; [r1] and [r2] are the two draws. *)
Definition new (env : Env) (r1 r2 : Q) (x0 y0 : Q) (color0 : string) : t :=
  let angle := r1 * Math_PI env * 2 in
  let speed := r2 * 3 + 1 in
  mk x0 y0 (Math_cos env angle * speed) (Math_sin env angle * speed) 1.0 color0.

Definition update (p : t) : t :=
  mk (x p + vx p) (y p + vy p) (vx p) (vy p) (life p - 0.02) (color p).
End Particle.

Module Player.
Record t := mk {
  x : Q;
  y : Q;
  invincibility : Z
}.
End Player.

Module ActivePowerUp.
Record t := mk {
  type : PowerUpType;
  endTime : Z
}.
End ActivePowerUp.

(** ** The state of the simulation *)

(** [gameData.current] (first twelve fields), the [useState] cells of the
    component with their pending values (next six), and the number of
    calls made so far to [Math.random()] and [Date.now()]. *)
Record World := mkWorld {
  player : Player.t;
  bullets : list Bullet.t;
  enemyBullets : list Bullet.t;
  enemies : list Enemy.t;
  powerUps : list PowerUp.t;
  particles : list Particle.t;
  keys : gmap string bool;
  lastShot : Z;
  enemiesSpawnedInLevel : Z;
  startTime : Z;
  enemiesKilled : Z;
  powerUpsPicked : Z;
  gameState : GameState;
  score : Z;
  lives : Z;
  level : Z;
  achievements : list Achievement.t;
  activePowerUps : list ActivePowerUp.t;
  randomCalls : nat;
  dateCalls : nat
}.

Definition set_player (v : Player.t) (w : World) : World :=
  mkWorld v (bullets w) (enemyBullets w) (enemies w) (powerUps w)
    (particles w) (keys w) (lastShot w) (enemiesSpawnedInLevel w)
    (startTime w) (enemiesKilled w) (powerUpsPicked w) (gameState w)
    (score w) (lives w) (level w) (achievements w) (activePowerUps w)
    (randomCalls w) (dateCalls w).

Definition set_bullets (v : list Bullet.t) (w : World) : World :=
  mkWorld (player w) v (enemyBullets w) (enemies w) (powerUps w)
    (particles w) (keys w) (lastShot w) (enemiesSpawnedInLevel w)
    (startTime w) (enemiesKilled w) (powerUpsPicked w) (gameState w)
    (score w) (lives w) (level w) (achievements w) (activePowerUps w)
    (randomCalls w) (dateCalls w).

Definition set_enemyBullets (v : list Bullet.t) (w : World) : World :=
  mkWorld (player w) (bullets w) v (enemies w) (powerUps w) (particles w)
    (keys w) (lastShot w) (enemiesSpawnedInLevel w) (startTime w)
    (enemiesKilled w) (powerUpsPicked w) (gameState w) (score w) (lives w)
    (level w) (achievements w) (activePowerUps w) (randomCalls w)
    (dateCalls w).

Definition set_enemies (v : list Enemy.t) (w : World) : World :=
  mkWorld (player w) (bullets w) (enemyBullets w) v (powerUps w)
    (particles w) (keys w) (lastShot w) (enemiesSpawnedInLevel w)
    (startTime w) (enemiesKilled w) (powerUpsPicked w) (gameState w)
    (score w) (lives w) (level w) (achievements w) (activePowerUps w)
    (randomCalls w) (dateCalls w).

Definition set_powerUps (v : list PowerUp.t) (w : World) : World :=
  mkWorld (player w) (bullets w) (enemyBullets w) (enemies w) v
    (particles w) (keys w) (lastShot w) (enemiesSpawnedInLevel w)
    (startTime w) (enemiesKilled w) (powerUpsPicked w) (gameState w)
    (score w) (lives w) (level w) (achievements w) (activePowerUps w)
    (randomCalls w) (dateCalls w).

Definition set_particles (v : list Particle.t) (w : World) : World :=
  mkWorld (player w) (bullets w) (enemyBullets w) (enemies w) (powerUps w) v
    (keys w) (lastShot w) (enemiesSpawnedInLevel w) (startTime w)
    (enemiesKilled w) (powerUpsPicked w) (gameState w) (score w) (lives w)
    (level w) (achievements w) (activePowerUps w) (randomCalls w)
    (dateCalls w).

Definition set_keys (v : gmap string bool) (w : World) : World :=
  mkWorld (player w) (bullets w) (enemyBullets w) (enemies w) (powerUps w)
    (particles w) v (lastShot w) (enemiesSpawnedInLevel w) (startTime w)
    (enemiesKilled w) (powerUpsPicked w) (gameState w) (score w) (lives w)
    (level w) (achievements w) (activePowerUps w) (randomCalls w)
    (dateCalls w).

Definition set_lastShot (v : Z) (w : World) : World :=
  mkWorld (player w) (bullets w) (enemyBullets w) (enemies w) (powerUps w)
    (particles w) (keys w) v (enemiesSpawnedInLevel w) (startTime w)
    (enemiesKilled w) (powerUpsPicked w) (gameState w) (score w) (lives w)
    (level w) (achievements w) (activePowerUps w) (randomCalls w)
    (dateCalls w).

Definition set_enemiesSpawnedInLevel (v : Z) (w : World) : World :=
  mkWorld (player w) (bullets w) (enemyBullets w) (enemies w) (powerUps w)
    (particles w) (keys w) (lastShot w) v (startTime w) (enemiesKilled w)
    (powerUpsPicked w) (gameState w) (score w) (lives w) (level w)
    (achievements w) (activePowerUps w) (randomCalls w) (dateCalls w).

Definition set_startTime (v : Z) (w : World) : World :=
  mkWorld (player w) (bullets w) (enemyBullets w) (enemies w) (powerUps w)
    (particles w) (keys w) (lastShot w) (enemiesSpawnedInLevel w) v
    (enemiesKilled w) (powerUpsPicked w) (gameState w) (score w) (lives w)
    (level w) (achievements w) (activePowerUps w) (randomCalls w)
    (dateCalls w).

Definition set_enemiesKilled (v : Z) (w : World) : World :=
  mkWorld (player w) (bullets w) (enemyBullets w) (enemies w) (powerUps w)
    (particles w) (keys w) (lastShot w) (enemiesSpawnedInLevel w)
    (startTime w) v (powerUpsPicked w) (gameState w) (score w) (lives w)
    (level w) (achievements w) (activePowerUps w) (randomCalls w)
    (dateCalls w).

Definition set_powerUpsPicked (v : Z) (w : World) : World :=
  mkWorld (player w) (bullets w) (enemyBullets w) (enemies w) (powerUps w)
    (particles w) (keys w) (lastShot w) (enemiesSpawnedInLevel w)
    (startTime w) (enemiesKilled w) v (gameState w) (score w) (lives w)
    (level w) (achievements w) (activePowerUps w) (randomCalls w)
    (dateCalls w).

Definition set_gameState (v : GameState) (w : World) : World :=
  mkWorld (player w) (bullets w) (enemyBullets w) (enemies w) (powerUps w)
    (particles w) (keys w) (lastShot w) (enemiesSpawnedInLevel w)
    (startTime w) (enemiesKilled w) (powerUpsPicked w) v (score w) (lives w)
    (level w) (achievements w) (activePowerUps w) (randomCalls w)
    (dateCalls w).

Definition set_score (v : Z) (w : World) : World :=
  mkWorld (player w) (bullets w) (enemyBullets w) (enemies w) (powerUps w)
    (particles w) (keys w) (lastShot w) (enemiesSpawnedInLevel w)
    (startTime w) (enemiesKilled w) (powerUpsPicked w) (gameState w) v
    (lives w) (level w) (achievements w) (activePowerUps w) (randomCalls w)
    (dateCalls w).

Definition set_lives (v : Z) (w : World) : World :=
  mkWorld (player w) (bullets w) (enemyBullets w) (enemies w) (powerUps w)
    (particles w) (keys w) (lastShot w) (enemiesSpawnedInLevel w)
    (startTime w) (enemiesKilled w) (powerUpsPicked w) (gameState w)
    (score w) v (level w) (achievements w) (activePowerUps w)
    (randomCalls w) (dateCalls w).

Definition set_level (v : Z) (w : World) : World :=
  mkWorld (player w) (bullets w) (enemyBullets w) (enemies w) (powerUps w)
    (particles w) (keys w) (lastShot w) (enemiesSpawnedInLevel w)
    (startTime w) (enemiesKilled w) (powerUpsPicked w) (gameState w)
    (score w) (lives w) v (achievements w) (activePowerUps w)
    (randomCalls w) (dateCalls w).

Definition set_achievements (v : list Achievement.t) (w : World) : World :=
  mkWorld (player w) (bullets w) (enemyBullets w) (enemies w) (powerUps w)
    (particles w) (keys w) (lastShot w) (enemiesSpawnedInLevel w)
    (startTime w) (enemiesKilled w) (powerUpsPicked w) (gameState w)
    (score w) (lives w) (level w) v (activePowerUps w) (randomCalls w)
    (dateCalls w).

Definition set_activePowerUps (v : list ActivePowerUp.t) (w : World) : World :=
  mkWorld (player w) (bullets w) (enemyBullets w) (enemies w) (powerUps w)
    (particles w) (keys w) (lastShot w) (enemiesSpawnedInLevel w)
    (startTime w) (enemiesKilled w) (powerUpsPicked w) (gameState w)
    (score w) (lives w) (level w) (achievements w) v (randomCalls w)
    (dateCalls w).

Definition set_randomCalls (v : nat) (w : World) : World :=
  mkWorld (player w) (bullets w) (enemyBullets w) (enemies w) (powerUps w)
    (particles w) (keys w) (lastShot w) (enemiesSpawnedInLevel w)
    (startTime w) (enemiesKilled w) (powerUpsPicked w) (gameState w)
    (score w) (lives w) (level w) (achievements w) (activePowerUps w) v
    (dateCalls w).

Definition set_dateCalls (v : nat) (w : World) : World :=
  mkWorld (player w) (bullets w) (enemyBullets w) (enemies w) (powerUps w)
    (particles w) (keys w) (lastShot w) (enemiesSpawnedInLevel w)
    (startTime w) (enemiesKilled w) (powerUpsPicked w) (gameState w)
    (score w) (lives w) (level w) (achievements w) (activePowerUps w)
    (randomCalls w) v.

(** The values of [level] and [activePowerUps] captured by the closure of
    the running effect: what [loop] reads, as opposed to the cells its
    updaters write. *)
Module Closure.
Record t := mk {
  level : Z;
  activePowerUps : list ActivePowerUp.t
}.
End Closure.

Definition closure_of (w : World) : Closure.t :=
  Closure.mk (level w) (activePowerUps w).

(** One call of [Math.random()]. *)
Definition random (env : Env) (w : World) : Q * World :=
  (Math_random env (randomCalls w), set_randomCalls (S (randomCalls w)) w).

(** One call of [Date.now()]. *)
Definition now_ (env : Env) (w : World) : Z * World :=
  (Date_now env (dateCalls w), set_dateCalls (S (dateCalls w)) w).

(** ** JavaScript array methods with effectful callbacks *)

(** [arr.filter(cb)]: the callback may mutate the element and the world;
    the kept elements are the mutated objects. *)
Fixpoint js_filter {A : Type} (cb : A -> World -> A * bool * World)
    (arr : list A) (w : World) : list A * World :=
  match arr with
  | [] => ([], w)
  | a :: arr' =>
      let '(a', keep, w1) := cb a w in
      let '(res, w2) := js_filter cb arr' w1 in
      (if keep then a' :: res else res, w2)
  end.

(** [arr.splice(i, 1)] *)
Fixpoint splice1 {A : Type} (i : nat) (arr : list A) : list A :=
  match arr, i with
  | [], _ => []
  | _ :: arr', O => arr'
  | a :: arr', S i' => a :: splice1 i' arr'
  end.

(** [arr.forEach(cb)] on an array that the callback may splice: the
    length is read once ([len]), the indices [k, k+1, ...] are visited in
    order, and an index that is no longer in the array is skipped.  [S] is
    the state the callback works on and [get] finds the array in it. *)
Fixpoint js_forEach {A S : Type} (get : S -> list A) (cb : A -> nat -> S -> S)
    (len k : nat) (s : S) : S :=
  match len with
  | O => s
  | Datatypes.S len' =>
      match nth_error (get s) k with
      | Some a => js_forEach get cb len' (Datatypes.S k) (cb a k s)
      | None => js_forEach get cb len' (Datatypes.S k) s
      end
  end.

(** ** Achievement logic *)

Definition unlockAchievement (id : string) (prev : list Achievement.t)
    : list Achievement.t :=
  match find (fun a => String.eqb (Achievement.id a) id) prev with
  | Some ach =>
      if negb (Achievement.unlocked ach) then
        map (fun a =>
               if String.eqb (Achievement.id a) id then
                 Achievement.mk (Achievement.id a) (Achievement.name a)
                   (Achievement.description a) true (Achievement.icon a)
               else a) prev
      else prev
  | None => prev
  end.

Definition unlock (id : string) (w : World) : World :=
  set_achievements (unlockAchievement id (achievements w)) w.

(** ** Spawning *)

Section Loop.

Variable env : Env.
Variable canvas : Canvas.
Variable cl : Closure.t.

Definition enemy_variant (lvl : Z) (rand : Q) : EnemyType :=
  let type := BASIC in
  let type := if (2 <=? lvl)%Z && Qltb 0.7 rand then FAST else type in
  let type := if (3 <=? lvl)%Z && Qltb 0.9 rand then HEAVY else type in
  type.

Definition spawnEnemy (w : World) : World :=
  let logicalWidth := clientWidth canvas in
  let '(rand, w) := random env w in
  let type := enemy_variant (Closure.level cl) rand in
  let '(r, w) := random env w in
  let w := set_enemies (enemies w ++ [Enemy.new r logicalWidth type]) w in
  set_enemiesSpawnedInLevel (enemiesSpawnedInLevel w + 1)%Z w.

Definition powerup_chance (lvl : Z) : Q :=
  if (15 <=? lvl)%Z then
    Qmax 0.02 (POWERUP_SPAWN_CHANCE - inject_Z (lvl - 15) * 0.01)
  else POWERUP_SPAWN_CHANCE.

Definition spawnPowerUp (w : World) : World :=
  let logicalWidth := clientWidth canvas in
  let chance := powerup_chance (Closure.level cl) in
  let '(r, w) := random env w in
  if Qltb r chance then
    let '(rand, w) := random env w in
    let '(rx, w) := random env w in
    set_powerUps (powerUps w ++ [PowerUp.new rand rx logicalWidth]) w
  else w.

(** ** The frame loop *)

Definition key (k : string) (w : World) : bool :=
  match keys w !! k with
  | Some b => b
  | None => false
  end.

(** Lines 408-418: held keys move the player, then the clamp. *)
Definition handle_input (w : World) : World :=
  let logicalWidth := clientWidth canvas in
  let logicalHeight := clientHeight canvas in
  let p := player w in
  let px := Player.x p in
  let py := Player.y p in
  let px := if key "ArrowLeft" w || key "a" w then px - PLAYER_SPEED else px in
  let px := if key "ArrowRight" w || key "d" w then px + PLAYER_SPEED else px in
  let py := if key "ArrowUp" w || key "w" w then py - PLAYER_SPEED else py in
  let py := if key "ArrowDown" w || key "s" w then py + PLAYER_SPEED else py in
  let px := Qmax 0 (Qmin (logicalWidth - PLAYER_SIZE) px) in
  let py := Qmax 0 (Qmin (logicalHeight - PLAYER_SIZE) py) in
  set_player (Player.mk px py (Player.invincibility p)) w.

(** [activePowerUps.some(p => p.type === t && p.endTime > now)] on the
    captured list. *)
Definition has_active (t : PowerUpType) (now : Z) : bool :=
  existsb (fun p => PowerUpType_eqb (ActivePowerUp.type p) t
                    && (now <? ActivePowerUp.endTime p)%Z)
          (Closure.activePowerUps cl).

(** Lines 420-433: automatic shooting. *)
Definition shoot (now : Z) (w : World) : World :=
  let p := player w in
  let hasTriple := has_active TRIPLE_SHOT now in
  if (150 <? now - lastShot w)%Z then
    let bx := Player.x p + PLAYER_SIZE / 2 in
    let w :=
      if hasTriple then
        set_bullets
          (bullets w
             ++ [Bullet.new bx (Player.y p) (-2) (- BULLET_SPEED) "#f59e0b" false]
             ++ [Bullet.new bx (Player.y p) 0 (- BULLET_SPEED) "#f59e0b" false]
             ++ [Bullet.new bx (Player.y p) 2 (- BULLET_SPEED) "#f59e0b" false]) w
      else
        set_bullets
          (bullets w ++ [Bullet.new bx (Player.y p) 0 (- BULLET_SPEED) "#fff" false]) w in
    set_lastShot now w
  else w.

(** Lines 436-440: player bullets move and leave the field. *)
Definition bullet_cb (b : Bullet.t) (w : World) : Bullet.t * bool * World :=
  let b := Bullet.update b in
  (b, Qltb 0 (Bullet.y b) && Qltb 0 (Bullet.x b)
        && Qltb (Bullet.x b) (clientWidth canvas), w).

(** The updater of [setLives] on a hit, with the nested
    [setGameState(GAME_OVER)]. *)
Definition setLives_hit (w : World) : World :=
  if (lives w <=? 1)%Z then set_lives 0 (set_gameState GAME_OVER w)
  else set_lives (lives w - 1)%Z w.

(** [prev => prev.filter(p => p.type !== t)] *)
Definition without (t : PowerUpType) (prev : list ActivePowerUp.t)
    : list ActivePowerUp.t :=
  List.filter (fun p => negb (PowerUpType_eqb (ActivePowerUp.type p) t)) prev.

Definition set_invincibility (v : Z) (w : World) : World :=
  set_player (Player.mk (Player.x (player w)) (Player.y (player w)) v) w.

(** The two branches shared by both player collisions: the shield is
    consumed, or a life is lost and the player becomes invincible. *)
Definition player_hit (now : Z) (w : World) : World :=
  let hasShield := has_active SHIELD now in
  if hasShield then
    set_activePowerUps (without SHIELD (activePowerUps w)) w
  else
    let w := setLives_hit w in
    set_invincibility (now + INVINCIBILITY_DURATION)%Z w.

(** The overlap test of an enemy bullet (a point) with the player. *)
Definition bullet_hits_player (b : Bullet.t) (w : World) : bool :=
  let p := player w in
  Qltb (Player.x p) (Bullet.x b) && Qltb (Bullet.x b) (Player.x p + PLAYER_SIZE)
  && Qltb (Player.y p) (Bullet.y b) && Qltb (Bullet.y b) (Player.y p + PLAYER_SIZE).

Definition isInvincible (now : Z) (w : World) : bool :=
  (now <? Player.invincibility (player w))%Z.

(** Lines 443-473: enemy bullets move, hit the player or leave. *)
Definition enemyBullet_cb (now : Z) (b : Bullet.t) (w : World)
    : Bullet.t * bool * World :=
  let b := Bullet.update b in
  if negb (isInvincible now w) && bullet_hits_player b w then
    (b, false, player_hit now w)
  else
    (b, Qltb (Bullet.y b) (clientHeight canvas) && Qltb 0 (Bullet.x b)
          && Qltb (Bullet.x b) (clientWidth canvas), w).

(** Lines 476-478: the spawn roll.  The draw is the left operand of [&&]
    and is always taken. *)
Definition spawn_chance (lvl : Z) : Q := 0.02 * (1 + inject_Z lvl * 0.25).

Definition maybe_spawnEnemy (w : World) : World :=
  let '(r, w) := random env w in
  if Qltb r (spawn_chance (Closure.level cl))
     && (enemiesSpawnedInLevel w <? ENEMIES_PER_LEVEL * Closure.level cl)%Z
  then spawnEnemy w
  else w.

(** Lines 489-495: enemy firing. *)
Definition fireChance (lvl : Z) : Q :=
  Qmin 0.05 (0.005 + inject_Z (lvl - 10) * 0.002).

Definition enemy_fire (e : Enemy.t) (w : World) : World :=
  if (10 <=? Closure.level cl)%Z then
    let '(r, w) := random env w in
    if Qltb r (fireChance (Closure.level cl)) then
      set_enemyBullets
        (enemyBullets w
           ++ [Bullet.new (Enemy.x e + Enemy.size e / 2) (Enemy.y e + Enemy.size e)
                 0 4 "#ef4444" true]) w
    else w
  else w.

(** Lines 497-519: collision of one enemy with the player bullets. *)
Definition bullet_hits_enemy (b : Bullet.t) (e : Enemy.t) : bool :=
  Qltb (Enemy.x e) (Bullet.x b) && Qltb (Bullet.x b) (Enemy.x e + Enemy.size e)
  && Qltb (Enemy.y e) (Bullet.y b) && Qltb (Bullet.y b) (Enemy.y e + Enemy.size e).

(** [for (let i = 0; i < n; i++) particles.push(new Particle(x, y, color))] *)
Fixpoint push_particles (n : nat) (x0 y0 : Q) (color0 : string) (w : World)
    : World :=
  match n with
  | O => w
  | S n' =>
      let '(r1, w) := random env w in
      let '(r2, w) := random env w in
      push_particles n' x0 y0 color0
        (set_particles (particles w ++ [Particle.new env r1 r2 x0 y0 color0]) w)
  end.

(** The body of [if (e.health <= 0)], after [hit = true]. *)
Definition kill_effects (e : Enemy.t) (w : World) : World :=
  let w := set_score (score w + Enemy.points e)%Z w in
  let w := set_enemiesKilled (enemiesKilled w + 1)%Z w in
  let w := push_particles 10 (Enemy.x e + Enemy.size e / 2)
             (Enemy.y e + Enemy.size e / 2) (Enemy.color e) w in
  let w := if (enemiesKilled w =? 1)%Z then unlock "first_blood" w else w in
  let w := if (enemiesKilled w =? 50)%Z then unlock "ace_pilot" w else w in
  spawnPowerUp w.

(** The state of the [forEach] over the bullets of one enemy: the enemy
    object, the local [hit] and the world. *)
Definition EnemyIter : Type := Enemy.t * bool * World.

Definition iter_bullets (s : EnemyIter) : list Bullet.t := bullets (snd s).

Definition enemy_bullet_cb (b : Bullet.t) (bIdx : nat) (s : EnemyIter)
    : EnemyIter :=
  let '(e, hit, w) := s in
  if bullet_hits_enemy b e then
    let e := Enemy.set_health (Enemy.health e - 1)%Z e in
    let w := set_bullets (splice1 bIdx (bullets w)) w in
    if (Enemy.health e <=? 0)%Z then (e, true, kill_effects e w)
    else (e, hit, w)
  else (e, hit, w).

Definition enemy_bullets (e : Enemy.t) (w : World) : EnemyIter :=
  js_forEach iter_bullets enemy_bullet_cb (length (bullets w)) 0 (e, false, w).

(** Lines 521-547: contact of one enemy with the player. *)
Definition enemy_hits_player (e : Enemy.t) (w : World) : bool :=
  let p := player w in
  Qltb (Player.x p) (Enemy.x e + Enemy.size e)
  && Qltb (Enemy.x e) (Player.x p + PLAYER_SIZE)
  && Qltb (Player.y p) (Enemy.y e + Enemy.size e)
  && Qltb (Enemy.y e) (Player.y p + PLAYER_SIZE).

Definition enemy_contact (now : Z) (e : Enemy.t) (hit : bool) (w : World)
    : bool * World :=
  if negb (isInvincible now w) && enemy_hits_player e w then
    (true, player_hit now w)
  else (hit, w).

(** Lines 480-554: the callback of [enemies.filter]. *)
Definition enemy_cb (now : Z) (e : Enemy.t) (w : World)
    : Enemy.t * bool * World :=
  let e := Enemy.update e in
  let w := enemy_fire e w in
  let '(e, hit, w) := enemy_bullets e w in
  let '(hit, w) := enemy_contact now e hit w in
  if Qltb (height canvas) (Enemy.y e) then (e, false, w)
  else (e, negb hit, w).

(** Lines 557-583: power-ups move, are picked up or leave. *)
Definition powerUp_hits_player (p : PowerUp.t) (w : World) : bool :=
  let pl := player w in
  Qltb (Player.x pl) (PowerUp.x p + PowerUp.size p)
  && Qltb (PowerUp.x p) (Player.x pl + PLAYER_SIZE)
  && Qltb (Player.y pl) (PowerUp.y p + PowerUp.size p)
  && Qltb (PowerUp.y p) (Player.y pl + PLAYER_SIZE).

(** [prev => [...prev.filter(pu => pu.type !== t), { type: t, endTime }]] *)
Definition upsert (t : PowerUpType) (endTime : Z) (prev : list ActivePowerUp.t)
    : list ActivePowerUp.t :=
  without t prev ++ [ActivePowerUp.mk t endTime].

(** The body of the pickup branch; the updater of [setActivePowerUps]
    makes its own call of [Date.now()]. *)
Definition pickup (p : PowerUp.t) (w : World) : World :=
  let w :=
    if PowerUpType_eqb (PowerUp.type p) EXTRA_LIFE then
      unlock "life_saver" (set_lives (lives w + 1)%Z w)
    else
      let '(t, w) := now_ env w in
      set_activePowerUps
        (upsert (PowerUp.type p) (t + POWERUP_DURATION)%Z (activePowerUps w)) w in
  let w := set_powerUpsPicked (powerUpsPicked w + 1)%Z w in
  if (powerUpsPicked w =? 10)%Z then unlock "power_up_junkie" w else w.

Definition powerUp_cb (p : PowerUp.t) (w : World) : PowerUp.t * bool * World :=
  let p := PowerUp.update p in
  if powerUp_hits_player p w then (p, false, pickup p w)
  else (p, Qltb (PowerUp.y p) (height canvas), w).

(** Lines 586-590: particles move and fade. *)
Definition particle_cb (p : Particle.t) (w : World)
    : Particle.t * bool * World :=
  let p := Particle.update p in
  (p, Qltb 0 (Particle.life p), w).

(** Lines 629-642: the level check; [setLevel_next] is the updater. *)
Definition setLevel_next (w : World) : World :=
  let next := (level w + 1)%Z in
  let w := if (next =? 15)%Z then set_lives (lives w + 1)%Z w else w in
  let w := if (next =? 5)%Z then unlock "unstoppable" w else w in
  set_level next w.

Definition level_complete (w : World) : bool :=
  (ENEMIES_PER_LEVEL * Closure.level cl <=? enemiesSpawnedInLevel w)%Z
  && (length (enemies w) =? 0)%nat.

Definition check_level_up (w : World) : World :=
  if level_complete w then set_enemiesSpawnedInLevel 0 (setLevel_next w)
  else w.

(** Lines 644-647. *)
Definition check_survivor (now : Z) (w : World) : World :=
  if (60000 <? now - startTime w)%Z then unlock "survivor" w else w.

(** [gameData.current.f = gameData.current.f.filter(cb)] *)
Definition filter_pass {A : Type} (cb : A -> World -> A * bool * World)
    (get : World -> list A) (set : list A -> World -> World) (w : World)
    : World :=
  let '(res, w) := js_filter cb (get w) w in
  set res w.

Definition bullets_pass : World -> World :=
  filter_pass bullet_cb bullets set_bullets.
Definition enemyBullets_pass (now : Z) : World -> World :=
  filter_pass (enemyBullet_cb now) enemyBullets set_enemyBullets.
Definition enemies_pass (now : Z) : World -> World :=
  filter_pass (enemy_cb now) enemies set_enemies.
Definition powerUps_pass : World -> World :=
  filter_pass powerUp_cb powerUps set_powerUps.
Definition particles_pass : World -> World :=
  filter_pass particle_cb particles set_particles.

(** Lines 420-590: shooting and the passes over the entity arrays. *)
Definition entities (now : Z) (w : World) : World :=
  let w := shoot now w in
  let w := bullets_pass w in
  let w := enemyBullets_pass now w in
  let w := maybe_spawnEnemy w in
  let w := enemies_pass now w in
  let w := powerUps_pass w in
  particles_pass w.

(** The simulation part of [loop], what follows the reading of the
    clock. *)
Definition loop_from (now : Z) (w : World) : World :=
  let w := entities now w in
  let w := check_level_up w in
  check_survivor now w.

(** [loop(time)], lines 390-650. *)
Definition loop (w : World) : World :=
  let w := handle_input w in
  let '(now, w) := now_ env w in
  loop_from now w.

End Loop.

(** One animation frame: the effect runs the loop only while PLAYING, with
    the closure of the last render. *)
Definition frame (env : Env) (canvas : Canvas) (w : World) : World :=
  match gameState w with
  | PLAYING => loop env canvas (closure_of w) w
  | _ => w
  end.

(** ** Handlers *)

(** [startGame]; [canvas] is [canvasRef.current]. *)
Definition startGame (env : Env) (canvas : Canvas) (w : World) : World :=
  let '(t, w) := now_ env w in
  mkWorld
    (Player.mk (clientWidth canvas / 2 - PLAYER_SIZE / 2)
               (clientHeight canvas - PLAYER_SIZE - 20) 0)
    [] [] [] [] [] ∅ 0 0 t 0 0
    PLAYING 0 PLAYER_INITIAL_LIVES 1 (achievements w) (activePowerUps w)
    (randomCalls w) (dateCalls w).

Definition handleKeyDown (k : string) (w : World) : World :=
  let w := set_keys (<[k := true]> (keys w)) w in
  if String.eqb k "p" || String.eqb k "P" then
    match gameState w with
    | PLAYING => set_gameState PAUSED w
    | PAUSED => set_gameState PLAYING w
    | _ => w
    end
  else w.

Definition handleKeyUp (k : string) (w : World) : World :=
  set_keys (<[k := false]> (keys w)) w.

(** [handleTouchMove] while dragging: the player moves by the delta of the
    touch point. *)
Definition handleTouchMove (dx dy : Q) (w : World) : World :=
  let p := player w in
  set_player (Player.mk (Player.x p + dx) (Player.y p + dy)
                (Player.invincibility p)) w.

(** The component before the first game. *)
Definition initial_world : World :=
  mkWorld (Player.mk 0 0 0) [] [] [] [] [] ∅ 0 0 0 0 0
    START 0 PLAYER_INITIAL_LIVES 1 INITIAL_ACHIEVEMENTS [] 0 0.

(** Touch moves between two frames, oldest first. *)
Definition drag (touches : list (Q * Q)) (w : World) : World :=
  fold_left (fun w d => handleTouchMove (fst d) (snd d) w) touches w.

(** ** Runs *)

(** What can happen to the component: the handlers and the frames, for
    any canvas size. *)
Inductive step (env : Env) : World -> World -> Prop :=
| step_start canvas w : step env w (startGame env canvas w)
| step_frame canvas w : step env w (frame env canvas w)
| step_keyDown k w : step env w (handleKeyDown k w)
| step_keyUp k w : step env w (handleKeyUp k w)
| step_touchMove dx dy w :
    gameState w = PLAYING -> step env w (handleTouchMove dx dy w).

Inductive reachable (env : Env) : World -> Prop :=
| reachable_initial : reachable env initial_world
| reachable_step w w' : reachable env w -> step env w w' -> reachable env w'.

(** Successive readings of the clock do not go back. *)
Definition clock_monotone (env : Env) : Prop :=
  forall i j, (i <= j)%nat -> (Date_now env i <= Date_now env j)%Z.

(** Every stored power-up expires [POWERUP_DURATION] after a reading of
    the clock that has been made. *)
Definition stamped (env : Env) (w : World) : Prop :=
  Forall (fun q => exists k, (k < dateCalls w)%nat
                             /\ ActivePowerUp.endTime q
                                = (Date_now env k + POWERUP_DURATION)%Z)
         (activePowerUps w).

(** ** Auxiliary notions *)

(** The world when [loop] reaches the level check (line 629). *)
Definition at_level_check (env : Env) (canvas : Canvas) (cl : Closure.t)
    (w : World) : World :=
  let w := handle_input canvas w in
  let '(now, w) := now_ env w in
  entities env canvas cl now w.

(** What the summary screen reads: [achievements.find(a => a.id === id)]
    and its [unlocked] flag. *)
Definition is_unlocked (id : string) (l : list Achievement.t) : bool :=
  match find (fun a => String.eqb (Achievement.id a) id) l with
  | Some a => Achievement.unlocked a
  | None => false
  end.

(** The bullet the player fires with horizontal velocity [vx0]. *)
Definition player_bullet (w : World) (vx0 : Q) (color0 : string) : Bullet.t :=
  Bullet.new (Player.x (player w) + PLAYER_SIZE / 2) (Player.y (player w))
    vx0 (- BULLET_SPEED) color0 false.

(** [prev.some(p => p.type === SHIELD)]: a shield entry is stored, expired
    or not. *)
Definition holds_shield (l : list ActivePowerUp.t) : bool :=
  existsb (fun p => PowerUpType_eqb (ActivePowerUp.type p) SHIELD) l.

(** The part of the world a hit on the player can change. *)
Definition hit_state (w : World)
    : Z * list ActivePowerUp.t * Player.t * GameState :=
  (lives w, activePowerUps w, player w, gameState w).

(** What no phase of a frame undoes once the collisions are out of the
    way: the invincibility time, the lives held, the run, a stored
    shield. *)
Definition unharmed (w0 w : World) : Prop :=
  Player.invincibility (player w) = Player.invincibility (player w0)
  /\ (lives w0 <= lives w)%Z
  /\ gameState w = gameState w0
  /\ (holds_shield (activePowerUps w0) = true ->
      holds_shield (activePowerUps w) = true).

(** The entries of variant [t]. *)
Definition entries_of (t : PowerUpType) (l : list ActivePowerUp.t)
    : list ActivePowerUp.t :=
  List.filter (fun q => PowerUpType_eqb (ActivePowerUp.type q) t) l.

(** ** The variant selection as the specification words it

    One draw per tier: the base variant needs none of them to pass, the
    fast and the heavy variant are each tested against their own draw. *)
Definition enemy_variant_independent (lvl : Z) (r_base r_fast r_heavy : Q)
    : EnemyType :=
  let type := BASIC in
  let type := if (2 <=? lvl)%Z && Qltb 0.7 r_fast then FAST else type in
  let type := if (3 <=? lvl)%Z && Qltb 0.9 r_heavy then HEAVY else type in
  type.

Definition spawnEnemy_independent (env : Env) (canvas : Canvas)
    (cl : Closure.t) (w : World) : World :=
  let logicalWidth := clientWidth canvas in
  let '(r_base, w) := random env w in
  let '(r_fast, w) := random env w in
  let '(r_heavy, w) := random env w in
  let type :=
    enemy_variant_independent (Closure.level cl) r_base r_fast r_heavy in
  let '(r, w) := random env w in
  let w := set_enemies (enemies w ++ [Enemy.new r logicalWidth type]) w in
  set_enemiesSpawnedInLevel (enemiesSpawnedInLevel w + 1)%Z w.

(** ** The frame in stages

    The callbacks of the loop move an entity and resolve its collisions
    in one go.  Here the two are taken apart: a motion step for a whole
    array, and a collision step for a whole array that has been moved
    already. *)

(** [arr.map(f)] with an effectful callback. *)
Fixpoint js_map {A B : Type} (f : A -> World -> B * World) (arr : list A)
    (w : World) : list B * World :=
  match arr with
  | [] => ([], w)
  | a :: arr' =>
      let '(b, w1) := f a w in
      let '(res, w2) := js_map f arr' w1 in
      (b :: res, w2)
  end.

Section Stages.

Variable env : Env.
Variable canvas : Canvas.
Variable cl : Closure.t.

(** Motion only. *)
Definition move_enemyBullets (w : World) : World :=
  set_enemyBullets (map Bullet.update (enemyBullets w)) w.
Definition move_enemies (w : World) : World :=
  set_enemies (map Enemy.update (enemies w)) w.
Definition move_powerUps (w : World) : World :=
  set_powerUps (map PowerUp.update (powerUps w)) w.

(** Collision 1, enemy bullet against player: what [enemyBullet_cb] does
    after the move. *)
Definition enemyBullet_collide (now : Z) (b : Bullet.t) (w : World)
    : Bullet.t * bool * World :=
  if negb (isInvincible now w) && bullet_hits_player b w then
    (b, false, player_hit cl now w)
  else
    (b, Qltb (Bullet.y b) (clientHeight canvas) && Qltb 0 (Bullet.x b)
          && Qltb (Bullet.x b) (clientWidth canvas), w).

Definition collide_enemyBullets (now : Z) : World -> World :=
  filter_pass (enemyBullet_collide now) enemyBullets set_enemyBullets.

(** Collision 2, player bullets against one enemy, preceded by the fire
    roll of that enemy; the enemy comes out with its [hit] flag. *)
Definition enemy_shot_at (e : Enemy.t) (w : World) : Enemy.t * bool * World :=
  let w := enemy_fire env cl e w in
  enemy_bullets env canvas cl e w.

(** Collision 3, one enemy against the player, and the verdict of the
    filter. *)
Definition enemy_touch (now : Z) (eh : Enemy.t * bool) (w : World)
    : Enemy.t * bool * bool * World :=
  let '(e, hit) := eh in
  let '(hit, w) := enemy_contact cl now e hit w in
  if Qltb (height canvas) (Enemy.y e) then (e, hit, false, w)
  else (e, hit, negb hit, w).

(** Collisions 2 and 3 for all enemies: every enemy meets the bullets
    before any enemy meets the player. *)
Definition collide_enemies (now : Z) (w : World) : World :=
  let '(marked, w) := js_map enemy_shot_at (enemies w) w in
  let '(kept, w) := js_filter (enemy_touch now) marked w in
  set_enemies (map fst kept) w.

(** Collision 4, player against power-up. *)
Definition powerUp_collide (p : PowerUp.t) (w : World)
    : PowerUp.t * bool * World :=
  if powerUp_hits_player p w then (p, false, pickup env p w)
  else (p, Qltb (PowerUp.y p) (height canvas), w).

Definition collide_powerUps : World -> World :=
  filter_pass powerUp_collide powerUps set_powerUps.

(** *** The staged composition of the specification

    All motion updates; then the collisions in the order enemy bullet
    against player, player bullet against enemy, enemy against player,
    player against power-up; then the level check. *)
Definition entities_staged (now : Z) (w : World) : World :=
  let w := shoot cl now w in
  let w := bullets_pass canvas w in
  let w := move_enemyBullets w in
  let w := maybe_spawnEnemy env canvas cl w in
  let w := move_enemies w in
  let w := move_powerUps w in
  let w := particles_pass w in
  let w := collide_enemyBullets now w in
  let w := collide_enemies now w in
  collide_powerUps w.

Definition loop_staged (w : World) : World :=
  let w := handle_input canvas w in
  let '(now, w) := now_ env w in
  let w := entities_staged now w in
  let w := check_level_up cl w in
  check_survivor now w.

(** *** The stages the loop does keep

    As above, except that power-ups and particles are moved after the
    enemy collisions, which create them. *)
Definition entities_phased (now : Z) (w : World) : World :=
  let w := shoot cl now w in
  let w := bullets_pass canvas w in
  let w := move_enemyBullets w in
  let w := maybe_spawnEnemy env canvas cl w in
  let w := move_enemies w in
  let w := collide_enemyBullets now w in
  let w := collide_enemies now w in
  let w := move_powerUps w in
  let w := collide_powerUps w in
  particles_pass w.

Definition loop_phased (w : World) : World :=
  let w := handle_input canvas w in
  let '(now, w) := now_ env w in
  let w := entities_phased now w in
  let w := check_level_up cl w in
  check_survivor now w.

End Stages.

(** The world after the contact of one marked enemy. *)
Definition touched (canvas : Canvas) (cl : Closure.t) (now : Z)
    (eh : Enemy.t * bool) (w : World) : World :=
  snd (enemy_touch canvas cl now eh w).

(** ** The buttons, the touch controls and the HUD *)

(** The [onClick] handlers of the pause button (line 840), of RESUME
    (line 961) and of QUIT MISSION and MENU (lines 967 and 1031). *)
Definition pauseButton (w : World) : World := set_gameState PAUSED w.
Definition resumeButton (w : World) : World := set_gameState PLAYING w.
Definition menuButton (w : World) : World := set_gameState START w.

(** Touch controls (lines 706-756).  The three handlers share the local
    variables [isDragging], [lastTouchX], [lastTouchY]; an event carries
    the client coordinates of [e.touches[0]] and the corner of
    [canvas.getBoundingClientRect()] at that moment. *)
Module Touch.
Record t := mk {
  isDragging : bool;
  lastTouchX : Q;
  lastTouchY : Q
}.

Record event := mkEvent {
  clientX : Q;
  clientY : Q;
  rect_left : Q;
  rect_top : Q
}.

(** [let isDragging = false; let lastTouchX = 0; let lastTouchY = 0;] *)
Definition initial : t := mk false 0 0.

Definition handleTouchStart (e : event) (s : t * World) : t * World :=
  (mk true (clientX e - rect_left e) (clientY e - rect_top e), snd s).

Definition handleTouchMove (e : event) (s : t * World) : t * World :=
  if negb (isDragging (fst s)) then s
  else
    let touchX := clientX e - rect_left e in
    let touchY := clientY e - rect_top e in
    let dx := touchX - lastTouchX (fst s) in
    let dy := touchY - lastTouchY (fst s) in
    (mk (isDragging (fst s)) touchX touchY, handleTouchMove dx dy (snd s)).

Definition handleTouchEnd (s : t * World) : t * World :=
  (mk false (lastTouchX (fst s)) (lastTouchY (fst s)), snd s).

(** A finger put down at [e0] and moved through the points [es]. *)
Definition stroke (e0 : event) (es : list event) (s : t * World) : t * World :=
  fold_left (fun s e => handleTouchMove e s) es (handleTouchStart e0 s).
End Touch.

(** The star rating of the HUD (lines 819-835): the number of stars, and
    what is shown, if anything. *)
Definition stars (level : Z) : Z := Z.min 5 (level / 5).

Definition starRating (level : Z) : option Z :=
  let stars := stars level in
  if (3 <=? stars)%Z then Some stars else None.

(** The events of the user interface: the steps above and the buttons,
    each where it is rendered. *)
Inductive ui_step (env : Env) : World -> World -> Prop :=
| ui_step_step w w' : step env w w' -> ui_step env w w'
| ui_step_pause w : gameState w <> START -> ui_step env w (pauseButton w)
| ui_step_resume w : gameState w = PAUSED -> ui_step env w (resumeButton w)
| ui_step_menu w :
    gameState w = PAUSED \/ gameState w = GAME_OVER ->
    ui_step env w (menuButton w).

Inductive run (env : Env) : World -> Prop :=
| run_initial : run env initial_world
| run_step w w' : run env w -> ui_step env w w' -> run env w'.

(** An enemy as its constructor makes it, whatever its place and the
    health it has left. *)
Definition Enemy_made (e : Enemy.t) : Prop :=
  let config := ENEMY_CONFIGS (Enemy.type e) in
  Enemy.size e = EnemyConfig.size config
  /\ Enemy.speed e = EnemyConfig.speed config
  /\ Enemy.points e = EnemyConfig.points config
  /\ Enemy.color e = EnemyConfig.color config
  /\ Enemy.glow e = EnemyConfig.glow config
  /\ (Enemy.health e <= EnemyConfig.health config)%Z.

(** A live enemy: made by the constructor, with health left. *)
Definition Enemy_alive (e : Enemy.t) : Prop :=
  Enemy_made e /\ (1 <= Enemy.health e)%Z.

(** What a frame that started in [w0] at time [now] can have done to the
    lives and to the run: nothing lost yet, or one life lost, the player
    invincible since and the game over only if at most one life was
    left. *)
Definition one_hit (now : Z) (w0 w : World) : Prop :=
  ((lives w0 <= lives w)%Z /\ gameState w = gameState w0)
  \/ ((lives w0 - 1 <= lives w)%Z
      /\ isInvincible now w = true
      /\ (gameState w = gameState w0
          \/ ((lives w0 <= 1)%Z /\ gameState w = GAME_OVER))).

(** Nothing lost. *)
Definition no_hit (w0 w : World) : Prop :=
  (lives w0 <= lives w)%Z /\ gameState w = gameState w0.

(** Successive frames, one canvas size per frame. *)
Definition frames (env : Env) (canvases : list Canvas) (w : World) : World :=
  fold_left (fun w canvas => frame env canvas w) canvases w.

(** The bookkeeping of a kill, apart from the particles and the power-up
    roll: the score, the counter and its two milestones. *)
Definition kill_count (e : Enemy.t) (w : World) : World :=
  let w := set_score (score w + Enemy.points e)%Z w in
  let w := set_enemiesKilled (enemiesKilled w + 1)%Z w in
  let w := if (enemiesKilled w =? 1)%Z then unlock "first_blood" w else w in
  if (enemiesKilled w =? 50)%Z then unlock "ace_pilot" w else w.

(** The invariants of a run: the counters, *)
Definition counters_ok (w : World) : Prop :=
  (0 <= lives w)%Z
  /\ (1 <= level w)%Z
  /\ (0 <= enemiesSpawnedInLevel w <= ENEMIES_PER_LEVEL * level w)%Z
  /\ (0 <= enemiesKilled w)%Z
  /\ (0 <= powerUpsPicked w)%Z
  /\ (0 <= score w)%Z
  /\ (50 | score w)%Z.

(** the achievements and their milestones, *)
Definition milestones_ok (w : World) : Prop :=
  map Achievement.id (achievements w) = map Achievement.id INITIAL_ACHIEVEMENTS
  /\ ((1 <= enemiesKilled w)%Z ->
      is_unlocked "first_blood" (achievements w) = true)
  /\ ((50 <= enemiesKilled w)%Z ->
      is_unlocked "ace_pilot" (achievements w) = true)
  /\ ((10 <= powerUpsPicked w)%Z ->
      is_unlocked "power_up_junkie" (achievements w) = true)
  /\ ((5 <= level w)%Z ->
      is_unlocked "unstoppable" (achievements w) = true).

(** the stored power-ups: one entry per variant at most, none for the
    extra life, *)
Definition powerUps_ok (l : list ActivePowerUp.t) : Prop :=
  (forall t, (length (entries_of t l) <= 1)%nat)
  /\ entries_of EXTRA_LIFE l = [].

(** and the enemies. *)
Definition sound (w : World) : Prop :=
  counters_ok w /\ milestones_ok w /\ powerUps_ok (activePowerUps w)
  /\ Forall Enemy_alive (enemies w).

(** [sound] but for the enemies, in a frame whose closure captured the
    level [lvl]. *)
Definition sound_in_frame (lvl : Z) (w : World) : Prop :=
  counters_ok w /\ milestones_ok w /\ powerUps_ok (activePowerUps w)
  /\ level w = lvl.

(** What a frame started in [w0] has scored so far, per kill counted. *)
Definition scored (w0 w : World) : Prop :=
  let kills := (enemiesKilled w - enemiesKilled w0)%Z in
  (0 <= kills)%Z
  /\ (100 * kills <= score w - score w0 <= 300 * kills)%Z.

(** The touch point of an event, relative to the canvas. *)
Definition touch_point (e : Touch.event) : Q * Q :=
  (Touch.clientX e - Touch.rect_left e, Touch.clientY e - Touch.rect_top e).

(** A power-up of variant [t] is stored, live or expired. *)
Definition stored (t : PowerUpType) (w : World) : Prop :=
  entries_of t (activePowerUps w) <> [].

(** The bullet an enemy fires: from the bottom centre of the enemy, with
    velocity (0, 4). *)
Definition enemy_shot (e : Enemy.t) : Bullet.t :=
  Bullet.new (Enemy.x e + Enemy.size e / 2) (Enemy.y e + Enemy.size e)
    0 4 "#ef4444" true.

(** The shots of a pass over the enemies [es] that starts in [w]: each
    enemy in turn, once moved, fires if the captured level is at least 10
    and the draw it reads, the next one when its callback starts, is
    below the chance; the following enemy is visited in the world its
    callback leaves. *)
Fixpoint shots (env : Env) (canvas : Canvas) (cl : Closure.t) (now : Z)
    (es : list Enemy.t) (w : World) : list Bullet.t :=
  match es with
  | [] => []
  | e :: es' =>
      (if (10 <=? Closure.level cl)%Z
          && Qltb (Math_random env (randomCalls w))
               (Qmin 0.05 (0.005 + inject_Z (Closure.level cl - 10) * 0.002))
       then [enemy_shot (Enemy.update e)] else [])
      ++ shots env canvas cl now es' (snd (enemy_cb env canvas cl now e w))
  end.

(** The world when [loop] reaches the pass over the enemies (line
    480). *)
Definition at_enemies_pass (env : Env) (canvas : Canvas) (cl : Closure.t)
    (w : World) : World :=
  let w := handle_input canvas w in
  let '(now, w) := now_ env w in
  maybe_spawnEnemy env canvas cl
    (enemyBullets_pass canvas cl now (bullets_pass canvas (shoot cl now w))).

(** What the [forEach] of an enemy over the player bullets [bs] leaves
    of them, read off the list: a bullet that overlaps the enemy is
    removed, and the bullet after it, which the splice moves under the
    index just visited, is passed over and stays, whether it overlaps or
    not. *)
Fixpoint survivors (e : Enemy.t) (bs : list Bullet.t) : list Bullet.t :=
  match bs with
  | [] => []
  | b :: bs' =>
      if bullet_hits_enemy b e then
        match bs' with
        | [] => []
        | b2 :: bs'' => b2 :: survivors e bs''
        end
      else b :: survivors e bs'
  end.

(** The number of bullets so removed. *)
Fixpoint removed (e : Enemy.t) (bs : list Bullet.t) : nat :=
  match bs with
  | [] => O
  | b :: bs' =>
      if bullet_hits_enemy b e then
        S (match bs' with
           | [] => O
           | _ :: bs'' => removed e bs''
           end)
      else removed e bs'
  end.

(** Two states of an enemy that occupy the same box. *)
Definition same_box (e1 e : Enemy.t) : Prop :=
  Enemy.x e1 = Enemy.x e /\ Enemy.y e1 = Enemy.y e
  /\ Enemy.size e1 = Enemy.size e.

(** No movement key is held. *)
Definition no_key_held (w : World) : Prop :=
  (key "ArrowLeft" w || key "a" w) = false
  /\ (key "ArrowRight" w || key "d" w) = false
  /\ (key "ArrowUp" w || key "w" w) = false
  /\ (key "ArrowDown" w || key "s" w) = false.

(** ** Test data *)

(** An environment whose draws are all [r] and whose clock always reads
    [t]; the trigonometric functions are only used for particle
    velocities and are constant here. *)
Definition const_env (r : Q) (t : Z) : Env :=
  {| Math_random := fun _ => r;
     Date_now := fun _ => t;
     Math_PI := 3.14;
     Math_cos := fun _ => 1;
     Math_sin := fun _ => 0 |}.

(** Draws: 0.95 first, then 0.1 for ever. *)
Definition env_095_then_01 : Env :=
  {| Math_random := fun k => match k with O => 0.95 | _ => 0.1 end;
     Date_now := fun _ => 0%Z;
     Math_PI := 3.14;
     Math_cos := fun _ => 1;
     Math_sin := fun _ => 0 |}.

(** A clock that reads the number of the call, in seconds. *)
Definition ticking_env : Env :=
  {| Math_random := fun _ => 0.5;
     Date_now := fun k => (1000 * Z.of_nat k)%Z;
     Math_PI := 3.14;
     Math_cos := fun _ => 1;
     Math_sin := fun _ => 0 |}.

(** A 400 x 600 canvas at device pixel ratio 1. *)
Definition canvas_400x600 : Canvas :=
  {| clientWidth := 400; clientHeight := 600; height := 600 |}.

(** A canvas that has not been laid out yet. *)
Definition canvas_0x0 : Canvas :=
  {| clientWidth := 0; clientHeight := 0; height := 0 |}.

(** A game just started on the 400 x 600 canvas, clock reading 0. *)
Definition started_world : World :=
  startGame (const_env 0.5 0) canvas_400x600 initial_world.

(** The world of [started_world] with a triple shot picked up at time 0
    and the last shot fired at time 1000. *)
Definition triple_world : World :=
  set_lastShot 1000
    (set_activePowerUps [ActivePowerUp.mk TRIPLE_SHOT 8000] started_world).

(** [started_world] at level 3. *)
Definition level3_world : World := set_level 3 started_world.

(** [started_world] when the ten enemies of level 1 have been spawned and
    none is left. *)
Definition cleared_world : World := set_enemiesSpawnedInLevel 10 started_world.

(** [started_world] at level 10, where enemies start to fire. *)
Definition level10_world : World := set_level 10 started_world.

(** A BASIC enemy entering the 400 x 600 field at its centre. *)
Definition basic_enemy : Enemy.t := Enemy.new 0.5 400 BASIC.

(** [started_world] after a hit at time 0, invincible until 2000: a shield
    is stored, an enemy bullet and an enemy are about to reach the
    player. *)
Definition invincible_world : World :=
  set_enemies [Enemy.mk 180 520 BASIC 35 2 1 100 "#3b82f6" "#60a5fa"]
    (set_enemyBullets [Bullet.new 200 550 0 4 "#ef4444" true]
       (set_activePowerUps [ActivePowerUp.mk SHIELD 8000]
          (set_invincibility 2000 started_world))).

(** [started_world] with a live shield and an enemy bullet about to enter
    the player's box. *)
Definition shielded_world : World :=
  set_enemyBullets [Bullet.new 200 550 0 4 "#ef4444" true]
    (set_activePowerUps [ActivePowerUp.mk SHIELD 8000] started_world).

(** A shield picked up at the first reading of [ticking_env] (expiry
    8000), three readings made so far. *)
Definition shield_held_world : World :=
  set_dateCalls 3
    (set_activePowerUps [ActivePowerUp.mk SHIELD 8000] started_world).

(** A second shield falling on the player. *)
Definition shield_powerUp : PowerUp.t := PowerUp.mk 190 550 SHIELD 30 1.5.

(** A triple shot reaching a BASIC enemy (health 1, 100 points): the three
    bullets fired from (200, 540) two frames ago, the enemy above the
    player. *)
Definition triple_hit_world : World :=
  set_enemies [Enemy.mk 185 498 BASIC 35 2 1 100 "#3b82f6" "#60a5fa"]
    (set_bullets [Bullet.new 196 526 (-2) (-7) "#f59e0b" false;
                  Bullet.new 200 526 0 (-7) "#f59e0b" false;
                  Bullet.new 204 526 2 (-7) "#f59e0b" false]
       started_world).

(** The same shot reaching a HEAVY enemy (health 3). *)
Definition triple_hit_heavy_world : World :=
  set_enemies [Enemy.mk 180 480 HEAVY 50 1.2 3 300 "#ef4444" "#f87171"]
    (set_bullets [Bullet.new 196 526 (-2) (-7) "#f59e0b" false;
                  Bullet.new 200 526 0 (-7) "#f59e0b" false;
                  Bullet.new 204 526 2 (-7) "#f59e0b" false]
       started_world).

(** One bullet about to destroy a BASIC enemy. *)
Definition single_hit_world : World :=
  set_enemies [Enemy.mk 185 498 BASIC 35 2 1 100 "#3b82f6" "#60a5fa"]
    (set_bullets [Bullet.new 200 526 0 (-7) "#fff" false] started_world).

(** [started_world] after its first frame. *)
Definition played_world : World :=
  frame (const_env 0.5 0) canvas_400x600 started_world.

(** [started_world] with an enemy bullet about to enter the player's box
    and an enemy about to touch the player, no shield. *)
Definition beset_world : World :=
  set_enemies [Enemy.mk 180 520 BASIC 35 2 1 100 "#3b82f6" "#60a5fa"]
    (set_enemyBullets [Bullet.new 200 550 0 4 "#ef4444" true] started_world).

(** The same with a live shield stored. *)
Definition beset_shielded_world : World :=
  set_activePowerUps [ActivePowerUp.mk SHIELD 8000] beset_world.

(** A game started and run for one frame when every draw is 0.01: an
    enemy has been spawned. *)
Definition spawned_world : World :=
  frame (const_env 0.01 0) canvas_400x600
    (startGame (const_env 0.01 0) canvas_400x600 initial_world).

(** Draws: 0.5, then 0.001, then 0.5 for ever; the clock reads 0. *)
Definition one_shot_env : Env :=
  {| Math_random := fun k => match k with 1%nat => 0.001 | _ => 0.5 end;
     Date_now := fun _ => 0%Z;
     Math_PI := 3.14;
     Math_cos := fun _ => 1;
     Math_sin := fun _ => 0 |}.

(** [started_world] at level [lvl] with a BASIC and a FAST enemy in the
    field, away from the player. *)
Definition patrol_world (lvl : Z) : World :=
  set_enemies [Enemy.mk 100 100 BASIC 35 2 1 100 "#3b82f6" "#60a5fa";
               Enemy.mk 300 200 FAST 25 4 1 150 "#10b981" "#34d399"]
    (set_level lvl started_world).

(** [shield_held_world] with the second shield falling on the player. *)
Definition falling_shield_world : World :=
  set_powerUps [shield_powerUp] shield_held_world.

(** A clock that is set back: it reads 0, then 10000, then 5000 for
    ever. *)
Definition backward_env : Env :=
  {| Math_random := fun _ => 0.5;
     Date_now := fun k => match k with
                          | O => 0%Z
                          | 1%nat => 10000%Z
                          | _ => 5000%Z
                          end;
     Math_PI := 3.14;
     Math_cos := fun _ => 1;
     Math_sin := fun _ => 0 |}.

(** A field as wide as the player, where every enemy comes down on the
    line of fire. *)
Definition narrow_canvas : Canvas :=
  {| clientWidth := 40; clientHeight := 100; height := 100 |}.

(** Every draw is 0, so that every roll succeeds; the clock reads the
    number of the call, in seconds. *)
Definition eager_env : Env :=
  {| Math_random := fun _ => 0;
     Date_now := fun k => (1000 * Z.of_nat k)%Z;
     Math_PI := 3.14;
     Math_cos := fun _ => 1;
     Math_sin := fun _ => 0 |}.

(** Draws of 0 but for 0.5 at the calls 3, 8, 13, ... and 0.9 at the
    calls 5, 12, 19, ..., so that the variants of the power-ups vary. *)
Definition mixed_env : Env :=
  {| Math_random := fun k => if Nat.eqb (Nat.modulo k 5) 3 then 0.5
                             else if Nat.eqb (Nat.modulo k 7) 5 then 0.9
                             else 0;
     Date_now := fun k => (1000 * Z.of_nat k)%Z;
     Math_PI := 3.14;
     Math_cos := fun _ => 1;
     Math_sin := fun _ => 0 |}.

(** A game on the narrow field after 110 frames of [eager_env]. *)
Definition veteran_world : World :=
  frames eager_env (repeat narrow_canvas 110)
    (startGame eager_env narrow_canvas initial_world).

(** A game on the narrow field after 40 frames of [mixed_env]. *)
Definition equipped_world : World :=
  frames mixed_env (repeat narrow_canvas 40)
    (startGame mixed_env narrow_canvas initial_world).

(** * Properties *)

(** ** Comparisons *)

Lemma Qltb_lt (a b : Q) : Qltb a b = true <-> a < b.
Proof.
  unfold Qltb. rewrite negb_true_iff. split.
  - intros H. apply Qnot_le_lt. intros Hle.
    apply Qle_bool_iff in Hle. congruence.
  - intros H. destruct (Qle_bool b a) eqn:E; [|reflexivity].
    apply Qle_bool_iff in E. exfalso. exact (Qlt_not_le _ _ H E).
Qed.

Lemma Qltb_ge (a b : Q) : Qltb a b = false <-> b <= a.
Proof.
  unfold Qltb. rewrite negb_false_iff. apply Qle_bool_iff.
Qed.

Lemma PowerUpType_eqb_eq (a b : PowerUpType) :
  PowerUpType_eqb a b = true <-> a = b.
Proof. destruct a, b; simpl; split; congruence. Qed.

Lemma PowerUpType_eqb_refl (a : PowerUpType) : PowerUpType_eqb a a = true.
Proof. destruct a; reflexivity. Qed.

Lemma PowerUpType_eqb_neq (a b : PowerUpType) :
  PowerUpType_eqb a b = false <-> a <> b.
Proof. destruct a, b; simpl; split; congruence. Qed.

(** ** Input handling and the clamp *)

Lemma clamp_bounds (hi v : Q) :
  0 <= Qmax 0 (Qmin hi v) /\ Qmax 0 (Qmin hi v) <= Qmax 0 hi.
Proof.
  split.
  - apply Q.le_max_l.
  - apply Q.max_le_compat_l. apply Q.le_min_l.
Qed.

Lemma clamp_upper (hi v : Q) : 0 <= hi -> Qmax 0 (Qmin hi v) <= hi.
Proof.
  intros H. apply Q.max_lub; [exact H | apply Q.le_min_l].
Qed.

Lemma handle_input_player (canvas : Canvas) (w : World) :
  exists vx vy,
    player (handle_input canvas w)
    = Player.mk (Qmax 0 (Qmin (clientWidth canvas - PLAYER_SIZE) vx))
                (Qmax 0 (Qmin (clientHeight canvas - PLAYER_SIZE) vy))
                (Player.invincibility (player w)).
Proof.
  unfold handle_input. simpl. eexists. eexists. reflexivity.
Qed.

(** When the field is at least as large as the player, the clamp gives
    the bounds of the field. *)
Lemma handle_input_in_field (canvas : Canvas) (w : World) :
  PLAYER_SIZE <= clientWidth canvas ->
  PLAYER_SIZE <= clientHeight canvas ->
  let p := player (handle_input canvas w) in
  0 <= Player.x p <= clientWidth canvas - PLAYER_SIZE
  /\ 0 <= Player.y p <= clientHeight canvas - PLAYER_SIZE.
Proof.
  intros HW HH.
  destruct (handle_input_player canvas w) as (vx & vy & E).
  cbv zeta. rewrite E. simpl.
  assert (0 <= clientWidth canvas - PLAYER_SIZE)
    by (apply (proj1 (Qle_minus_iff _ _)) in HW; exact HW).
  assert (0 <= clientHeight canvas - PLAYER_SIZE)
    by (apply (proj1 (Qle_minus_iff _ _)) in HH; exact HH).
  repeat split; try apply Q.le_max_l; apply clamp_upper; assumption.
Qed.

(** C10 (as amended): after the input-handling phase of a tick, whatever
    the held keys and however far the touch moves since the last frame
    dragged the player, the position satisfies
    [0 <= x <= max(0, fieldWidth - PLAYER_SIZE)] and
    [0 <= y <= max(0, fieldHeight - PLAYER_SIZE)]: the bounds of the claim
    whenever the field is at least PLAYER_SIZE wide and high, and the
    origin otherwise. *)
Theorem C10_handle_input_clamp (canvas : Canvas) (touches : list (Q * Q))
    (w : World) :
  let p := player (handle_input canvas (drag touches w)) in
  0 <= Player.x p
  /\ Player.x p <= Qmax 0 (clientWidth canvas - PLAYER_SIZE)
  /\ 0 <= Player.y p
  /\ Player.y p <= Qmax 0 (clientHeight canvas - PLAYER_SIZE).
Proof.
  destruct (handle_input_player canvas (drag touches w)) as (vx & vy & E).
  cbv zeta. rewrite E. simpl.
  destruct (clamp_bounds (clientWidth canvas - PLAYER_SIZE) vx).
  destruct (clamp_bounds (clientHeight canvas - PLAYER_SIZE) vy).
  auto.
Qed.

(** C10 (as stated) fails on a canvas narrower than the player: with a
    client width of 0 the clamp puts the player at [x = 0], to the right
    of [fieldWidth - PLAYER_SIZE = -40]. *)
Lemma C10_counterexample :
  let p := player (handle_input canvas_0x0 started_world) in
  ~ (0 <= Player.x p <= clientWidth canvas_0x0 - PLAYER_SIZE
     /\ 0 <= Player.y p <= clientHeight canvas_0x0 - PLAYER_SIZE).
Proof.
  cbv zeta. intros [[_ H] _]. revert H. vm_compute. intros H.
  apply H. reflexivity.
Qed.

(** ** Automatic shooting *)

Lemma has_active_exists (cl : Closure.t) (t : PowerUpType) (now : Z) :
  has_active cl t now = true
  <-> exists p, In p (Closure.activePowerUps cl)
                /\ ActivePowerUp.type p = t
                /\ (now < ActivePowerUp.endTime p)%Z.
Proof.
  unfold has_active. rewrite List.existsb_exists. split.
  - intros (p & Hin & H). apply andb_true_iff in H as [Ht He].
    exists p. repeat split; auto.
    + now apply PowerUpType_eqb_eq.
    + now apply Z.ltb_lt.
  - intros (p & Hin & Ht & He). exists p. split; auto.
    apply andb_true_iff. split.
    + now apply PowerUpType_eqb_eq.
    + now apply Z.ltb_lt.
Qed.

(** C8 (as amended): the player fires in every tick in which MORE than
    150 ms have elapsed since the last shot: three bullets with horizontal
    velocities -2, 0, +2 and vertical velocity [-BULLET_SPEED] are appended
    when the captured power-up list holds a TRIPLE_SHOT entry with
    [endTime > now], one straight bullet otherwise, and the last-shot time
    becomes [now]; when at most 150 ms have elapsed nothing changes. *)
Theorem C8_shoot (cl : Closure.t) (now : Z) (w : World) :
  let w' := shoot cl now w in
  let triple := exists p, In p (Closure.activePowerUps cl)
                          /\ ActivePowerUp.type p = TRIPLE_SHOT
                          /\ (now < ActivePowerUp.endTime p)%Z in
  ((150 < now - lastShot w)%Z ->
     lastShot w' = now
     /\ (triple ->
         bullets w' = bullets w ++ [player_bullet w (-2) "#f59e0b";
                                    player_bullet w 0 "#f59e0b";
                                    player_bullet w 2 "#f59e0b"])
     /\ (~ triple -> bullets w' = bullets w ++ [player_bullet w 0 "#fff"]))
  /\ ((now - lastShot w <= 150)%Z -> w' = w).
Proof.
  cbv zeta. unfold shoot. split.
  - intros H. apply Z.ltb_lt in H. rewrite H.
    destruct (has_active cl TRIPLE_SHOT now) eqn:E.
    + simpl. split; [reflexivity|]. split.
      * intros _. reflexivity.
      * intros Hn. exfalso. apply Hn. now apply has_active_exists.
    + simpl. split; [reflexivity|]. split.
      * intros Ht. apply has_active_exists in Ht. congruence.
      * intros _. reflexivity.
  - intros H. apply Z.ltb_ge in H. rewrite H. reflexivity.
Qed.

(** On [triple_world]: a triple shot at time 1200, nothing at time 1100. *)
Lemma C8_shoot_witness :
  (lastShot (shoot (closure_of triple_world) 1200 triple_world) = 1200%Z
   /\ length (bullets (shoot (closure_of triple_world) 1200 triple_world)) = 3%nat)
  /\ shoot (closure_of triple_world) 1100 triple_world = triple_world.
Proof.
  destruct (C8_shoot (closure_of triple_world) 1200 triple_world) as [Hfire _].
  destruct (C8_shoot (closure_of triple_world) 1100 triple_world) as [_ Hwait].
  split.
  - destruct Hfire as (Hl & Ht & _); [vm_compute; reflexivity|].
    split; [exact Hl|].
    rewrite Ht; [reflexivity|].
    exists (ActivePowerUp.mk TRIPLE_SHOT 8000).
    split; [left; reflexivity | split; reflexivity].
  - apply Hwait. vm_compute. discriminate.
Defined.

(** C8 (as stated) fails when exactly 150 ms have elapsed: the test is
    [now - lastShot > 150], so no bullet is added and the last-shot time
    is kept. *)
Lemma C8_counterexample :
  (150 <= 1150 - lastShot triple_world)%Z
  /\ bullets (shoot (closure_of triple_world) 1150 triple_world)
     = bullets triple_world
  /\ lastShot (shoot (closure_of triple_world) 1150 triple_world) = 1000%Z.
Proof.
  split; [vm_compute; discriminate|]. split; reflexivity.
Qed.

(** ** Enemy variant selection *)

Lemma Qlt_07_09 (r : Q) : 0.9 < r -> 0.7 < r.
Proof. intros H. eapply Qlt_trans; [|exact H]. reflexivity. Qed.

Ltac q_contra :=
  match goal with
  | H1 : ?a < ?b, H2 : ?b <= ?a |- _ => exfalso; exact (Qlt_not_le _ _ H1 H2)
  end.

Lemma enemy_variant_cases (lvl : Z) (rand : Q) :
  (enemy_variant lvl rand = HEAVY <-> (3 <= lvl)%Z /\ 0.9 < rand)
  /\ (enemy_variant lvl rand = FAST
      <-> (2 <= lvl)%Z /\ 0.7 < rand /\ ~ ((3 <= lvl)%Z /\ 0.9 < rand))
  /\ (enemy_variant lvl rand = BASIC
      <-> ~ ((2 <= lvl)%Z /\ 0.7 < rand)).
Proof.
  unfold enemy_variant.
  destruct (Z.leb_spec 2 lvl) as [H2|H2];
    destruct (Z.leb_spec 3 lvl) as [H3|H3]; try lia;
    destruct (Qltb 0.7 rand) eqn:E7; destruct (Qltb 0.9 rand) eqn:E9;
    simpl;
    try apply Qltb_lt in E7; try apply Qltb_lt in E9;
    try apply Qltb_ge in E7; try apply Qltb_ge in E9;
    try (pose proof (Qlt_07_09 _ E9); q_contra);
    repeat split; unfold not; intros;
    repeat match goal with H : _ /\ _ |- _ => destruct H end;
    try congruence; try lia; try q_contra; try tauto.
Qed.

(** C2 (as amended): a spawn makes ONE random draw for the variant and
    compares it with two fixed thresholds gated by the level; the later
    HEAVY test overrides the FAST assignment, so the draw is partitioned:
    HEAVY iff level >= 3 and draw > 0.9, FAST iff level >= 2 and draw > 0.7
    and not HEAVY, BASIC otherwise.  A second draw places the enemy, which
    is appended, and the spawned-this-level counter grows by one. *)
Theorem C2_spawnEnemy_single_draw (env : Env) (canvas : Canvas)
    (cl : Closure.t) (w : World) :
  let rand := Math_random env (randomCalls w) in
  let r := Math_random env (S (randomCalls w)) in
  let lvl := Closure.level cl in
  let w' := spawnEnemy env canvas cl w in
  exists type,
    enemies w' = enemies w ++ [Enemy.new r (clientWidth canvas) type]
    /\ randomCalls w' = S (S (randomCalls w))
    /\ enemiesSpawnedInLevel w' = (enemiesSpawnedInLevel w + 1)%Z
    /\ (type = HEAVY <-> (3 <= lvl)%Z /\ 0.9 < rand)
    /\ (type = FAST
        <-> (2 <= lvl)%Z /\ 0.7 < rand /\ ~ ((3 <= lvl)%Z /\ 0.9 < rand))
    /\ (type = BASIC <-> ~ ((2 <= lvl)%Z /\ 0.7 < rand)).
Proof.
  cbv zeta.
  exists (enemy_variant (Closure.level cl) (Math_random env (randomCalls w))).
  split; [reflexivity|]. split; [reflexivity|]. split; [reflexivity|].
  apply enemy_variant_cases.
Qed.

(** C2 (as stated) fails: with the draws 0.95, 0.1, 0.1, ... at level 3
    the code spawns a HEAVY enemy after two calls of [Math.random()]
    (variant, position); three independent tier draws would read 0.1 for
    the fast and the heavy tier and spawn a BASIC enemy after four
    calls. *)
Lemma C2_counterexample :
  let cl := closure_of level3_world in
  let w' := spawnEnemy env_095_then_01 canvas_400x600 cl level3_world in
  let w'' :=
    spawnEnemy_independent env_095_then_01 canvas_400x600 cl level3_world in
  map Enemy.type (enemies w') = [HEAVY]
  /\ (randomCalls w' - randomCalls level3_world = 2)%nat
  /\ map Enemy.type (enemies w'') = [BASIC]
  /\ (randomCalls w'' - randomCalls level3_world = 4)%nat.
Proof.
  repeat split; reflexivity.
Qed.

(** ** Invariants of the array methods *)

Lemma js_filter_inv {A : Type} (P : World -> Prop)
    (cb : A -> World -> A * bool * World) :
  (forall a w, P w -> P (snd (cb a w))) ->
  forall arr w, P w -> P (snd (js_filter cb arr w)).
Proof.
  intros Hcb arr. induction arr as [|a arr IH]; intros w Hw; simpl.
  - exact Hw.
  - specialize (Hcb a w Hw).
    destruct (cb a w) as [[a' keep] w1]. simpl in Hcb.
    specialize (IH w1 Hcb).
    destruct (js_filter cb arr w1) as [res w2]. exact IH.
Qed.

(** What holds of every element the callback keeps holds of the result. *)
Lemma js_filter_kept {A : Type} (P : World -> Prop) (K : A -> Prop)
    (cb : A -> World -> A * bool * World) :
  (forall a w, P w -> P (snd (cb a w))) ->
  (forall a w, P w -> snd (fst (cb a w)) = true -> K (fst (fst (cb a w)))) ->
  forall arr w, P w -> Forall K (fst (js_filter cb arr w)).
Proof.
  intros Hcb HK arr. induction arr as [|a arr IH]; intros w Hw; simpl.
  - constructor.
  - specialize (Hcb a w Hw). specialize (HK a w Hw).
    destruct (cb a w) as [[a' keep] w1]. simpl in Hcb, HK.
    specialize (IH w1 Hcb).
    destruct (js_filter cb arr w1) as [res w2]. simpl in *.
    destruct keep; auto.
Qed.

Lemma js_forEach_inv {A S : Type} (P : S -> Prop) (get : S -> list A)
    (cb : A -> nat -> S -> S) :
  (forall a k s, P s -> P (cb a k s)) ->
  forall len k s, P s -> P (js_forEach get cb len k s).
Proof.
  intros Hcb len. induction len as [|len IH]; intros k s Hs; simpl.
  - exact Hs.
  - destruct (nth_error (get s) k); auto.
Qed.

Lemma filter_pass_inv {A : Type} (P : World -> Prop)
    (cb : A -> World -> A * bool * World) (get : World -> list A)
    (set : list A -> World -> World) :
  (forall v w, P w -> P (set v w)) ->
  (forall a w, P w -> P (snd (cb a w))) ->
  forall w, P w -> P (filter_pass cb get set w).
Proof.
  intros Hset Hcb w Hw. unfold filter_pass.
  pose proof (js_filter_inv P cb Hcb (get w) w Hw) as H.
  destruct (js_filter cb (get w) w) as [res w1]. auto.
Qed.

(** ** Footprints

    A property of the world that no setter among the ones a phase uses
    can break is kept by the phase.  Each lemma depends on the stability
    hypotheses of the fields its phase writes, and on no other.  The
    achievements are only written by [unlock], which has a hypothesis of
    its own. *)

Section Footprint.

Local Unset Default Proof Using.

Variable P : World -> Prop.

Hypothesis P_player : forall v w, P w -> P (set_player v w).
Hypothesis P_bullets : forall v w, P w -> P (set_bullets v w).
Hypothesis P_enemyBullets : forall v w, P w -> P (set_enemyBullets v w).
Hypothesis P_enemies : forall v w, P w -> P (set_enemies v w).
Hypothesis P_powerUps : forall v w, P w -> P (set_powerUps v w).
Hypothesis P_particles : forall v w, P w -> P (set_particles v w).
Hypothesis P_lastShot : forall v w, P w -> P (set_lastShot v w).
Hypothesis P_enemiesSpawnedInLevel :
  forall v w, P w -> P (set_enemiesSpawnedInLevel v w).
Hypothesis P_enemiesKilled : forall v w, P w -> P (set_enemiesKilled v w).
Hypothesis P_powerUpsPicked : forall v w, P w -> P (set_powerUpsPicked v w).
Hypothesis P_gameState : forall v w, P w -> P (set_gameState v w).
Hypothesis P_score : forall v w, P w -> P (set_score v w).
Hypothesis P_lives : forall v w, P w -> P (set_lives v w).
Hypothesis P_level : forall v w, P w -> P (set_level v w).
Hypothesis P_unlock : forall id w, P w -> P (unlock id w).
Hypothesis P_activePowerUps : forall v w, P w -> P (set_activePowerUps v w).
Hypothesis P_randomCalls : forall v w, P w -> P (set_randomCalls v w).
Hypothesis P_dateCalls : forall v w, P w -> P (set_dateCalls v w).

Variable env : Env.
Variable canvas : Canvas.
Variable cl : Closure.t.
Variable now : Z.

Ltac fp_cases :=
  repeat match goal with
         | |- context [if ?c then _ else _] => destruct c
         end.

Ltac fp_red := cbv beta iota zeta; cbn [fst snd].

(** Peels the setters off the goal, each by its stability hypothesis. *)
Ltac fp_set :=
  repeat first
    [ assumption
    | match goal with
      | |- P (set_player _ _) => apply P_player
      | |- P (set_bullets _ _) => apply P_bullets
      | |- P (set_enemyBullets _ _) => apply P_enemyBullets
      | |- P (set_enemies _ _) => apply P_enemies
      | |- P (set_powerUps _ _) => apply P_powerUps
      | |- P (set_particles _ _) => apply P_particles
      | |- P (set_lastShot _ _) => apply P_lastShot
      | |- P (set_enemiesSpawnedInLevel _ _) => apply P_enemiesSpawnedInLevel
      | |- P (set_enemiesKilled _ _) => apply P_enemiesKilled
      | |- P (set_powerUpsPicked _ _) => apply P_powerUpsPicked
      | |- P (set_gameState _ _) => apply P_gameState
      | |- P (set_score _ _) => apply P_score
      | |- P (set_lives _ _) => apply P_lives
      | |- P (set_level _ _) => apply P_level
      | |- P (set_activePowerUps _ _) => apply P_activePowerUps
      | |- P (set_randomCalls _ _) => apply P_randomCalls
      | |- P (set_dateCalls _ _) => apply P_dateCalls
      end ].

Ltac fp := fp_red; fp_cases; fp_red; fp_set.

Lemma unlock_fp id w : P w -> P (unlock id w).
Proof. apply P_unlock. Qed.

Ltac fp_unlock :=
  repeat match goal with
         | |- P (unlock _ _) => apply unlock_fp
         end.

Lemma spawnEnemy_fp w : P w -> P (spawnEnemy env canvas cl w).
Proof. unfold spawnEnemy, random. intros. fp. Qed.

Lemma spawnPowerUp_fp w : P w -> P (spawnPowerUp env canvas cl w).
Proof. unfold spawnPowerUp, random. intros. fp. Qed.

Lemma handle_input_fp w : P w -> P (handle_input canvas w).
Proof. unfold handle_input. intros. fp. Qed.

Lemma shoot_fp w : P w -> P (shoot cl now w).
Proof. unfold shoot. intros. fp. Qed.

Lemma bullet_cb_fp b w : P w -> P (snd (bullet_cb canvas b w)).
Proof. unfold bullet_cb. intros. fp. Qed.

Lemma setLives_hit_fp w : P w -> P (setLives_hit w).
Proof. unfold setLives_hit. intros. fp. Qed.

Lemma player_hit_fp w : P w -> P (player_hit cl now w).
Proof.
  unfold player_hit, set_invincibility. intros. fp.
  now apply setLives_hit_fp.
Qed.

Lemma enemyBullet_cb_fp b w : P w -> P (snd (enemyBullet_cb canvas cl now b w)).
Proof.
  unfold enemyBullet_cb. intros. fp. now apply player_hit_fp.
Qed.

Lemma maybe_spawnEnemy_fp w : P w -> P (maybe_spawnEnemy env canvas cl w).
Proof.
  unfold maybe_spawnEnemy, random. intros. fp.
  apply spawnEnemy_fp. fp.
Qed.

Lemma enemy_fire_fp e w : P w -> P (enemy_fire env cl e w).
Proof. unfold enemy_fire, random. intros. fp. Qed.

Lemma push_particles_fp n x0 y0 c w :
  P w -> P (push_particles env n x0 y0 c w).
Proof.
  revert w. induction n as [|n IH]; intros w Hw.
  - exact Hw.
  - cbn [push_particles]. unfold random. fp_red. apply IH. fp.
Qed.

Lemma kill_effects_fp e w : P w -> P (kill_effects env canvas cl e w).
Proof.
  unfold kill_effects. intros Hw. fp_red.
  apply spawnPowerUp_fp.
  fp_cases; fp_unlock; apply push_particles_fp; fp.
Qed.

Lemma enemy_bullet_cb_fp b k s :
  P (snd s) -> P (snd (enemy_bullet_cb env canvas cl b k s)).
Proof.
  destruct s as [[e hit] w]. unfold enemy_bullet_cb. cbn [snd]. intros Hw.
  fp. apply kill_effects_fp. fp.
Qed.

Lemma enemy_bullets_fp e w : P w -> P (snd (enemy_bullets env canvas cl e w)).
Proof.
  intros Hw. unfold enemy_bullets.
  apply (js_forEach_inv (fun s => P (snd s))); [|exact Hw].
  intros. now apply enemy_bullet_cb_fp.
Qed.

Lemma enemy_contact_fp e hit w :
  P w -> P (snd (enemy_contact cl now e hit w)).
Proof.
  unfold enemy_contact. intros. fp. now apply player_hit_fp.
Qed.

Lemma enemy_cb_fp e w : P w -> P (snd (enemy_cb env canvas cl now e w)).
Proof.
  unfold enemy_cb. intros Hw. fp_red.
  pose proof (enemy_bullets_fp (Enemy.update e) _
                (enemy_fire_fp (Enemy.update e) w Hw)) as H1.
  destruct (enemy_bullets env canvas cl (Enemy.update e)
              (enemy_fire env cl (Enemy.update e) w)) as [[e1 hit] w1].
  cbn [snd] in H1.
  pose proof (enemy_contact_fp e1 hit w1 H1) as H2.
  destruct (enemy_contact cl now e1 hit w1) as [hit2 w2]. cbn [snd] in H2.
  fp.
Qed.

Lemma pickup_fp p w : P w -> P (pickup env p w).
Proof.
  unfold pickup, now_. intros Hw. fp_red.
  fp_cases; fp_red; fp_unlock; fp; fp_unlock; fp.
Qed.

Lemma powerUp_cb_fp p w : P w -> P (snd (powerUp_cb env canvas p w)).
Proof.
  unfold powerUp_cb. intros. fp. now apply pickup_fp.
Qed.

Lemma particle_cb_fp p w : P w -> P (snd (particle_cb p w)).
Proof. unfold particle_cb. intros. fp. Qed.

Lemma setLevel_next_fp w : P w -> P (setLevel_next w).
Proof.
  unfold setLevel_next. intros. fp_red. apply P_level.
  fp_cases; fp_unlock; fp.
Qed.

Lemma check_level_up_fp w : P w -> P (check_level_up cl w).
Proof.
  unfold check_level_up. intros. fp. now apply setLevel_next_fp.
Qed.

Lemma check_survivor_fp w : P w -> P (check_survivor now w).
Proof. unfold check_survivor. intros. fp. now apply unlock_fp. Qed.

Lemma bullets_pass_fp w : P w -> P (bullets_pass canvas w).
Proof.
  apply filter_pass_inv; [exact P_bullets | apply bullet_cb_fp].
Qed.

Lemma enemyBullets_pass_fp w : P w -> P (enemyBullets_pass canvas cl now w).
Proof.
  apply filter_pass_inv; [exact P_enemyBullets | apply enemyBullet_cb_fp].
Qed.

Lemma enemies_pass_fp w : P w -> P (enemies_pass env canvas cl now w).
Proof.
  apply filter_pass_inv; [exact P_enemies | apply enemy_cb_fp].
Qed.

Lemma powerUps_pass_fp w : P w -> P (powerUps_pass env canvas w).
Proof.
  apply filter_pass_inv; [exact P_powerUps | apply powerUp_cb_fp].
Qed.

Lemma particles_pass_fp w : P w -> P (particles_pass w).
Proof.
  apply filter_pass_inv; [exact P_particles | apply particle_cb_fp].
Qed.

Lemma entities_fp w : P w -> P (entities env canvas cl now w).
Proof.
  intros Hw. unfold entities. fp_red.
  apply particles_pass_fp, powerUps_pass_fp, enemies_pass_fp,
    maybe_spawnEnemy_fp, enemyBullets_pass_fp, bullets_pass_fp, shoot_fp, Hw.
Qed.

End Footprint.

(** Discharges the stability side conditions of a footprint lemma for a
    property of fields the phase does not write. *)
Ltac stable := intros ? ? ?; assumption.

(** ** Achievements *)

Lemma find_id_map (id : string) (g : Achievement.t -> Achievement.t)
    (l : list Achievement.t) :
  (forall a, Achievement.id (g a) = Achievement.id a) ->
  find (fun a => String.eqb (Achievement.id a) id) (map g l)
  = option_map g (find (fun a => String.eqb (Achievement.id a) id) l).
Proof.
  intros Hg. induction l as [|a l IH]; simpl; [reflexivity|].
  rewrite Hg. destruct (String.eqb (Achievement.id a) id); auto.
Qed.

Lemma unlock_is_unlocked (id : string) (l : list Achievement.t) :
  In id (map Achievement.id l) ->
  is_unlocked id (unlockAchievement id l) = true.
Proof.
  intros Hin. unfold is_unlocked, unlockAchievement.
  destruct (find (fun a => String.eqb (Achievement.id a) id) l) as [ach|] eqn:E.
  - destruct (Achievement.unlocked ach) eqn:U; simpl.
    + rewrite E. exact U.
    + rewrite find_id_map, E.
      * simpl. apply List.find_some in E as [_ E]. rewrite E. reflexivity.
      * intros a. destruct (String.eqb (Achievement.id a) id); reflexivity.
  - exfalso. apply List.in_map_iff in Hin as (a & Ha & Hin).
    apply (List.find_none _ _ E) in Hin. simpl in Hin.
    rewrite Ha, String.eqb_refl in Hin. discriminate.
Qed.

Lemma is_unlocked_unlock (id id' : string) (l : list Achievement.t) :
  is_unlocked id l = true -> is_unlocked id (unlockAchievement id' l) = true.
Proof.
  unfold is_unlocked, unlockAchievement. intros H.
  destruct (find (fun a => String.eqb (Achievement.id a) id') l) as [ach|];
    [|exact H].
  destruct (negb (Achievement.unlocked ach)); [|exact H].
  rewrite find_id_map.
  - destruct (find (fun a => String.eqb (Achievement.id a) id) l) as [a|];
      [|discriminate].
    simpl. destruct (String.eqb (Achievement.id a) id'); auto.
  - intros a. destruct (String.eqb (Achievement.id a) id'); reflexivity.
Qed.

Lemma unlockAchievement_ids (id : string) (l : list Achievement.t) :
  map Achievement.id (unlockAchievement id l) = map Achievement.id l.
Proof.
  unfold unlockAchievement.
  destruct (find _ l) as [ach|]; [|reflexivity].
  destruct (negb (Achievement.unlocked ach)); [|reflexivity].
  rewrite List.map_map. apply List.map_ext. intros a.
  destruct (String.eqb (Achievement.id a) id); reflexivity.
Qed.

(** ** Level progression *)

Lemma loop_at_level_check (env : Env) (canvas : Canvas) (cl : Closure.t)
    (w : World) :
  loop env canvas cl w
  = check_survivor (Date_now env (dateCalls w))
      (check_level_up cl (at_level_check env canvas cl w)).
Proof. reflexivity. Qed.

Lemma at_level_check_level (env : Env) (canvas : Canvas) (cl : Closure.t)
    (w : World) :
  level (at_level_check env canvas cl w) = level w.
Proof.
  unfold at_level_check, now_. cbv beta iota zeta.
  apply (entities_fp (fun x => level x = level w)); try stable.
  reflexivity.
Qed.

Lemma at_level_check_achievement_ids (env : Env) (canvas : Canvas)
    (cl : Closure.t) (w : World) :
  map Achievement.id (achievements (at_level_check env canvas cl w))
  = map Achievement.id (achievements w).
Proof.
  unfold at_level_check, now_. cbv beta iota zeta.
  apply (entities_fp
           (fun x => map Achievement.id (achievements x)
                     = map Achievement.id (achievements w))); try stable.
  - intros id x Hx. unfold unlock. cbn [achievements set_achievements].
    now rewrite unlockAchievement_ids.
  - reflexivity.
Qed.

Lemma check_survivor_same (now : Z) (w : World) :
  let w' := check_survivor now w in
  level w' = level w /\ lives w' = lives w
  /\ enemiesSpawnedInLevel w' = enemiesSpawnedInLevel w
  /\ (forall id, is_unlocked id (achievements w) = true ->
                 is_unlocked id (achievements w') = true).
Proof.
  unfold check_survivor. destruct (60000 <? now - startTime w)%Z; simpl; auto.
  repeat split; auto. intros id. apply is_unlocked_unlock.
Qed.

Lemma level_complete_iff (cl : Closure.t) (w : World) :
  level_complete cl w = true
  <-> (ENEMIES_PER_LEVEL * Closure.level cl <= enemiesSpawnedInLevel w)%Z
      /\ enemies w = [].
Proof.
  unfold level_complete. rewrite andb_true_iff, Z.leb_le, Nat.eqb_eq.
  split; intros [H1 H2]; split; auto.
  - now destruct (enemies w).
  - now rewrite H2.
Qed.

(** C3: in every frame the level completes if and only if, when the level
    check is reached, [enemiesSpawnedInLevel >= ENEMIES_PER_LEVEL * level]
    and no enemy is alive.  On completion the level grows by exactly 1,
    the spawned counter is reset to 0, the new level 15 grants exactly one
    more life, and the new level 5 unlocks "unstoppable" (an achievement
    of the list); otherwise the level, the counter and the lives are kept.
    The level never decreases. *)
Theorem C3_level_progression (env : Env) (canvas : Canvas) (w : World) :
  gameState w = PLAYING ->
  let w1 := at_level_check env canvas (closure_of w) w in
  let w' := frame env canvas w in
  let complete :=
    (ENEMIES_PER_LEVEL * level w <= enemiesSpawnedInLevel w1)%Z
    /\ enemies w1 = [] in
  (complete <-> level w' = (level w + 1)%Z)
  /\ (complete ->
      enemiesSpawnedInLevel w' = 0%Z
      /\ ((level w + 1 = 15)%Z -> lives w' = (lives w1 + 1)%Z)
      /\ ((level w + 1 <> 15)%Z -> lives w' = lives w1)
      /\ ((level w + 1 = 5)%Z ->
          In "unstoppable"%string (map Achievement.id (achievements w)) ->
          is_unlocked "unstoppable" (achievements w') = true))
  /\ (~ complete ->
      level w' = level w
      /\ enemiesSpawnedInLevel w' = enemiesSpawnedInLevel w1
      /\ lives w' = lives w1)
  /\ (level w <= level w')%Z.
Proof.
  intros Hplay. cbv zeta. unfold frame. rewrite Hplay.
  rewrite loop_at_level_check.
  pose proof (at_level_check_level env canvas (closure_of w) w) as Hlvl.
  pose proof (at_level_check_achievement_ids env canvas (closure_of w) w)
    as Hids.
  pose proof (level_complete_iff (closure_of w)
                (at_level_check env canvas (closure_of w) w)) as Hc.
  simpl Closure.level in Hc.
  set (w1 := at_level_check env canvas (closure_of w) w) in *.
  destruct (check_survivor_same (Date_now env (dateCalls w))
              (check_level_up (closure_of w) w1)) as (Sl & Sv & Ss & Sa).
  rewrite Sl, Sv, Ss. unfold check_level_up in *.
  destruct (level_complete (closure_of w) w1) eqn:E.
  - assert (Hcomp : (ENEMIES_PER_LEVEL * level w <= enemiesSpawnedInLevel w1)%Z
                    /\ enemies w1 = []) by (now apply Hc).
    unfold setLevel_next in *. rewrite Hlvl in *.
    split; [|split; [|split]].
    + split; [intros _|intros _; exact Hcomp].
      destruct (level w + 1 =? 15)%Z, (level w + 1 =? 5)%Z; reflexivity.
    + intros _. split; [reflexivity|]. split; [|split].
      * intros H15. apply Z.eqb_eq in H15. rewrite H15.
        destruct (level w + 1 =? 5)%Z; reflexivity.
      * intros H15. apply Z.eqb_neq in H15. rewrite H15.
        destruct (level w + 1 =? 5)%Z; reflexivity.
      * intros H5 Hin. apply Sa. apply Z.eqb_eq in H5. rewrite H5.
        assert (H15 : (level w + 1 =? 15)%Z = false) by (apply Z.eqb_neq; lia).
        rewrite H15. simpl. apply unlock_is_unlocked. now rewrite Hids.
    + intros Hn. tauto.
    + destruct (level w + 1 =? 15)%Z, (level w + 1 =? 5)%Z; simpl; lia.
  - assert (Hn : ~ ((ENEMIES_PER_LEVEL * level w <= enemiesSpawnedInLevel w1)%Z
                    /\ enemies w1 = [])).
    { intros H. apply Hc in H. congruence. }
    rewrite Hlvl. split; [|split; [|split]].
    + split; [tauto | lia].
    + tauto.
    + intros _. auto.
    + lia.
Qed.

(** On [cleared_world] the frame ends level 1. *)
Lemma C3_level_progression_witness :
  level (frame (const_env 0.5 0) canvas_400x600 cleared_world) = 2%Z
  /\ enemiesSpawnedInLevel (frame (const_env 0.5 0) canvas_400x600 cleared_world)
     = 0%Z.
Proof.
  destruct (C3_level_progression (const_env 0.5 0) canvas_400x600 cleared_world)
    as (Hiff & Hdone & _); [reflexivity|].
  assert (Hc : (ENEMIES_PER_LEVEL * level cleared_world
                <= enemiesSpawnedInLevel
                     (at_level_check (const_env 0.5 0) canvas_400x600
                        (closure_of cleared_world) cleared_world))%Z
               /\ enemies (at_level_check (const_env 0.5 0) canvas_400x600
                             (closure_of cleared_world) cleared_world) = []).
  { split; [vm_compute; discriminate | vm_compute; reflexivity]. }
  split.
  - apply Hiff. exact Hc.
  - apply Hdone. exact Hc.
Defined.

(** ** The counter of [Math.random()] calls never goes back *)

Lemma push_particles_randomCalls (env : Env) (n : nat) (x0 y0 : Q)
    (c : string) (w : World) :
  randomCalls (push_particles env n x0 y0 c w) = (randomCalls w + 2 * n)%nat.
Proof.
  revert w. induction n as [|n IH]; intros w; simpl.
  - lia.
  - rewrite IH. simpl. lia.
Qed.

Lemma push_particles_particles (env : Env) (n : nat) (x0 y0 : Q)
    (c : string) (w : World) :
  length (particles (push_particles env n x0 y0 c w))
  = (length (particles w) + n)%nat.
Proof.
  revert w. induction n as [|n IH]; intros w; simpl.
  - lia.
  - rewrite IH. simpl. rewrite List.length_app. simpl. lia.
Qed.

Lemma spawnPowerUp_randomCalls (env : Env) (canvas : Canvas) (cl : Closure.t)
    (w : World) :
  (randomCalls w < randomCalls (spawnPowerUp env canvas cl w))%nat.
Proof.
  unfold spawnPowerUp, random. cbv beta iota zeta.
  destruct (Qltb _ _); simpl; lia.
Qed.

Lemma randomCalls_unlock_if (c : bool) (id : string) (w : World) :
  randomCalls (if c then unlock id w else w) = randomCalls w.
Proof. destruct c; reflexivity. Qed.

Lemma kill_effects_randomCalls (env : Env) (canvas : Canvas) (cl : Closure.t)
    (e : Enemy.t) (w : World) :
  (randomCalls w <= randomCalls (kill_effects env canvas cl e w))%nat.
Proof.
  unfold kill_effects. cbv beta zeta.
  eapply Nat.le_trans; [|apply Nat.lt_le_incl, spawnPowerUp_randomCalls].
  rewrite !randomCalls_unlock_if, push_particles_randomCalls.
  cbn [randomCalls set_enemiesKilled set_score]. lia.
Qed.

Lemma enemy_bullets_randomCalls (env : Env) (canvas : Canvas) (cl : Closure.t)
    (e : Enemy.t) (w : World) :
  (randomCalls w <= randomCalls (snd (enemy_bullets env canvas cl e w)))%nat.
Proof.
  unfold enemy_bullets.
  apply (js_forEach_inv (fun s => (randomCalls w <= randomCalls (snd s))%nat));
    [|simpl; lia].
  intros b k [[e1 hit] w1] H. unfold enemy_bullet_cb. simpl in H.
  destruct (bullet_hits_enemy b e1); [|exact H].
  cbv beta iota zeta.
  destruct (Enemy.health _ <=? 0)%Z; cbn [snd]; [|exact H].
  eapply Nat.le_trans; [exact H|].
  eapply Nat.le_trans; [|apply kill_effects_randomCalls]. simpl. lia.
Qed.

(** ** Enemy firing *)

Lemma fireChance_bounds (lvl : Z) :
  (10 <= lvl)%Z -> 0 < fireChance lvl /\ fireChance lvl <= 0.05.
Proof.
  intros H. unfold fireChance. split.
  - apply Q.min_glb_lt; [reflexivity|].
    apply Qlt_le_trans with (y := 0.005); [reflexivity|].
    rewrite <- (Qplus_0_r 0.005) at 1. apply Qplus_le_r.
    apply Qmult_le_0_compat; [|discriminate].
    unfold Qle. simpl. lia.
  - apply Q.le_min_l.
Qed.

(** The rest of the callback of an enemy does not touch the enemy
    bullets. *)
Lemma enemy_cb_enemyBullets (env : Env) (canvas : Canvas) (cl : Closure.t)
    (now : Z) (e : Enemy.t) (w : World) :
  enemyBullets (snd (enemy_cb env canvas cl now e w))
  = enemyBullets (enemy_fire env cl (Enemy.update e) w).
Proof.
  unfold enemy_cb. cbv beta iota zeta.
  pose proof (enemy_bullets_fp
                (fun x => enemyBullets x
                          = enemyBullets (enemy_fire env cl (Enemy.update e) w)))
    as H1.
  specialize (H1 ltac:(stable) ltac:(stable) ltac:(stable) ltac:(stable)
                ltac:(stable) ltac:(stable) ltac:(stable)
                env canvas cl (Enemy.update e) _ eq_refl).
  destruct (enemy_bullets env canvas cl (Enemy.update e)
              (enemy_fire env cl (Enemy.update e) w)) as [[e1 hit] w1].
  cbn [snd] in H1.
  pose proof (enemy_contact_fp (fun x => enemyBullets x = enemyBullets w1))
    as H2.
  specialize (H2 ltac:(stable) ltac:(stable) ltac:(stable) ltac:(stable)
                cl now e1 hit w1 eq_refl).
  destruct (enemy_contact cl now e1 hit w1) as [hit2 w2]. cbn [snd] in H2.
  destruct (Qltb _ _); cbn [snd]; congruence.
Qed.

Lemma enemy_cb_randomCalls (env : Env) (canvas : Canvas) (cl : Closure.t)
    (now : Z) (e : Enemy.t) (w : World) :
  (randomCalls (enemy_fire env cl (Enemy.update e) w)
   <= randomCalls (snd (enemy_cb env canvas cl now e w)))%nat.
Proof.
  unfold enemy_cb. cbv beta iota zeta.
  pose proof (enemy_bullets_randomCalls env canvas cl (Enemy.update e)
                (enemy_fire env cl (Enemy.update e) w)) as H1.
  destruct (enemy_bullets env canvas cl (Enemy.update e)
              (enemy_fire env cl (Enemy.update e) w)) as [[e1 hit] w1].
  cbn [snd] in H1.
  pose proof (enemy_contact_fp (fun x => randomCalls x = randomCalls w1))
    as H2.
  specialize (H2 ltac:(stable) ltac:(stable) ltac:(stable) ltac:(stable)
                cl now e1 hit w1 eq_refl).
  destruct (enemy_contact cl now e1 hit w1) as [hit2 w2]. cbn [snd] in H2.
  destruct (Qltb _ _); cbn [snd]; lia.
Qed.

(** The bullet an enemy fires: from its bottom centre, straight down. *)
Lemma enemy_fire_cases (env : Env) (cl : Closure.t) (e : Enemy.t) (w : World) :
  let lvl := Closure.level cl in
  let r := Math_random env (randomCalls w) in
  let w' := enemy_fire env cl e w in
  ((lvl < 10)%Z -> w' = w)
  /\ ((10 <= lvl)%Z ->
      randomCalls w' = S (randomCalls w)
      /\ (r < fireChance lvl ->
          enemyBullets w'
          = enemyBullets w
              ++ [Bullet.new (Enemy.x e + Enemy.size e / 2)
                    (Enemy.y e + Enemy.size e) 0 4 "#ef4444" true])
      /\ (fireChance lvl <= r -> enemyBullets w' = enemyBullets w)).
Proof.
  cbv zeta. unfold enemy_fire, random. split.
  - intros H. apply Z.leb_gt in H. rewrite H. reflexivity.
  - intros H. apply Z.leb_le in H. rewrite H. cbv beta iota zeta.
    destruct (Qltb (Math_random env (randomCalls w))
                (fireChance (Closure.level cl))) eqn:E.
    + apply Qltb_lt in E. split; [reflexivity|]. split.
      * intros _. reflexivity.
      * intros Hle. q_contra.
    + apply Qltb_ge in E. split; [reflexivity|]. split.
      * intros Hlt. q_contra.
      * intros _. reflexivity.
Qed.

Lemma enemy_fire_enemyBullets (env : Env) (cl : Closure.t) (e : Enemy.t)
    (w : World) :
  enemyBullets (enemy_fire env cl e w)
  = enemyBullets w
    ++ (if (10 <=? Closure.level cl)%Z
           && Qltb (Math_random env (randomCalls w))
                (Qmin 0.05 (0.005 + inject_Z (Closure.level cl - 10) * 0.002))
        then [enemy_shot e] else []).
Proof.
  unfold enemy_fire, random, fireChance. cbv beta iota zeta.
  destruct (10 <=? Closure.level cl)%Z; cbn [andb];
    [|now rewrite List.app_nil_r].
  destruct (Qltb _ _); [reflexivity | now rewrite List.app_nil_r].
Qed.

Lemma js_filter_shots (env : Env) (canvas : Canvas) (cl : Closure.t)
    (now : Z) (es : list Enemy.t) (w : World) :
  enemyBullets (snd (js_filter (enemy_cb env canvas cl now) es w))
  = enemyBullets w ++ shots env canvas cl now es w.
Proof.
  revert w. induction es as [|e es IH]; intros w.
  - simpl. now rewrite List.app_nil_r.
  - cbn [js_filter shots].
    pose proof (enemy_cb_enemyBullets env canvas cl now e w) as H.
    rewrite enemy_fire_enemyBullets in H.
    specialize (IH (snd (enemy_cb env canvas cl now e w))).
    destruct (enemy_cb env canvas cl now e w) as [[e' keep] w1].
    cbn [snd] in *.
    destruct (js_filter (enemy_cb env canvas cl now) es w1) as [res w2].
    cbn [snd] in *. rewrite IH, H, List.app_assoc. reflexivity.
Qed.

Lemma enemies_pass_shots (env : Env) (canvas : Canvas) (cl : Closure.t)
    (now : Z) (w : World) :
  enemyBullets (enemies_pass env canvas cl now w)
  = enemyBullets w ++ shots env canvas cl now (enemies w) w.
Proof.
  unfold enemies_pass, filter_pass.
  pose proof (js_filter_shots env canvas cl now (enemies w) w) as H.
  destruct (js_filter (enemy_cb env canvas cl now) (enemies w) w) as [res w1].
  exact H.
Qed.

Lemma shots_below_10 (env : Env) (canvas : Canvas) (cl : Closure.t)
    (now : Z) (es : list Enemy.t) (w : World) :
  (Closure.level cl < 10)%Z -> shots env canvas cl now es w = [].
Proof.
  intros H. apply Z.leb_gt in H. revert w.
  induction es as [|e es IH]; intros w; [reflexivity|].
  cbn [shots]. rewrite H. cbn [andb app]. apply IH.
Qed.

Lemma js_filter_incl {A : Type} (f : A -> A)
    (cb : A -> World -> A * bool * World) :
  (forall a w, fst (fst (cb a w)) = f a) ->
  forall arr w, Forall (fun x => In x (map f arr)) (fst (js_filter cb arr w)).
Proof.
  intros Hcb arr. induction arr as [|a arr IH]; intros w; simpl.
  - constructor.
  - specialize (Hcb a w).
    destruct (cb a w) as [[a' keep] w1]. cbn [fst] in Hcb. subst a'.
    specialize (IH w1). destruct (js_filter cb arr w1) as [res w2].
    cbn [fst] in *.
    assert (H : Forall (fun x => f a = x \/ In x (map f arr)) res).
    { eapply List.Forall_impl; [|exact IH]. intros x Hx. now right. }
    destruct keep; [constructor; [now left|exact H] | exact H].
Qed.

Lemma frame_enemyBullets (env : Env) (canvas : Canvas) (w : World) :
  gameState w = PLAYING ->
  enemyBullets (frame env canvas w)
  = enemyBullets
      (enemies_pass env canvas (closure_of w) (Date_now env (dateCalls w))
         (at_enemies_pass env canvas (closure_of w) w)).
Proof.
  intros Hplay. unfold frame. rewrite Hplay.
  unfold loop, now_, loop_from, entities, at_enemies_pass, now_.
  cbv beta iota zeta.
  set (w4 := enemies_pass _ _ _ _ _).
  apply (check_survivor_fp (fun x => enemyBullets x = enemyBullets w4));
    [stable|].
  apply (check_level_up_fp (fun x => enemyBullets x = enemyBullets w4));
    try stable.
  apply (particles_pass_fp (fun x => enemyBullets x = enemyBullets w4));
    [stable|].
  apply (powerUps_pass_fp (fun x => enemyBullets x = enemyBullets w4));
    try stable.
  reflexivity.
Qed.

Lemma at_enemies_pass_old (env : Env) (canvas : Canvas) (cl : Closure.t)
    (w : World) :
  Forall (fun b => In b (map Bullet.update (enemyBullets w)))
         (enemyBullets (at_enemies_pass env canvas cl w)).
Proof.
  unfold at_enemies_pass, now_. cbv beta iota zeta.
  set (now := Date_now env (dateCalls (handle_input canvas w))).
  set (w1 := bullets_pass canvas (shoot cl now _)).
  assert (E : enemyBullets w1 = enemyBullets w).
  { unfold w1.
    apply (bullets_pass_fp (fun x => enemyBullets x = enemyBullets w));
      [stable|].
    apply (shoot_fp (fun x => enemyBullets x = enemyBullets w)); try stable.
    reflexivity. }
  apply (maybe_spawnEnemy_fp
           (fun x => Forall (fun b => In b (map Bullet.update (enemyBullets w)))
                       (enemyBullets x))); try stable.
  unfold enemyBullets_pass, filter_pass.
  pose proof (js_filter_incl Bullet.update (enemyBullet_cb canvas cl now)) as H.
  specialize (H ltac:(intros a x; unfold enemyBullet_cb; cbv zeta;
                      destruct (_ && _); reflexivity) (enemyBullets w1) w1).
  destruct (js_filter (enemyBullet_cb canvas cl now) (enemyBullets w1) w1)
    as [res w2].
  cbn [fst] in H. rewrite E in H. exact H.
Qed.

(** C9: in a tick, while the level is below 10 no enemy fires: the enemy
    bullets at the end of the tick are those the enemy-bullet pass kept,
    each an old bullet moved.  From level 10 on the enemy bullets at the
    end of the tick are those and, after them, the shots of the pass over
    the enemies: every enemy of the pass takes a draw of its own (the
    first of its callback; the call counter then moves on, so no other
    enemy reads it) and fires iff the draw is below
    [min(0.05, 0.005 + (level - 10) * 0.002)], a chance in (0, 0.05]; the
    shot is one enemy bullet with velocity (0, 4), appended at the bottom
    centre of the enemy after its move. *)
Theorem C9_enemy_firing (env : Env) (canvas : Canvas) (w : World) :
  gameState w = PLAYING ->
  let cl := closure_of w in
  let lvl := level w in
  let chance := Qmin 0.05 (0.005 + inject_Z (lvl - 10) * 0.002) in
  let now := Date_now env (dateCalls w) in
  let w3 := at_enemies_pass env canvas cl w in
  let w' := frame env canvas w in
  ((lvl < 10)%Z ->
     enemyBullets w' = enemyBullets w3
     /\ Forall (fun b => In b (map Bullet.update (enemyBullets w)))
               (enemyBullets w'))
  /\ ((10 <= lvl)%Z ->
      0 < chance /\ chance <= 0.05
      /\ enemyBullets w'
         = enemyBullets w3 ++ shots env canvas cl now (enemies w3) w3
      /\ forall (e : Enemy.t) (x : World),
           let r := Math_random env (randomCalls x) in
           let x' := snd (enemy_cb env canvas cl now e x) in
           (randomCalls x < randomCalls x')%nat
           /\ (r < chance ->
               enemyBullets x'
               = enemyBullets x ++ [enemy_shot (Enemy.update e)])
           /\ (chance <= r -> enemyBullets x' = enemyBullets x)).
Proof.
  intros Hplay. cbv zeta.
  rewrite (frame_enemyBullets env canvas w Hplay), enemies_pass_shots.
  split.
  - intros Hlvl. rewrite shots_below_10 by exact Hlvl.
    rewrite List.app_nil_r. split; [reflexivity|].
    apply at_enemies_pass_old.
  - intros Hlvl.
    destruct (fireChance_bounds _ Hlvl) as [Hpos Hle].
    split; [exact Hpos|]. split; [exact Hle|]. split; [reflexivity|].
    intros e x. cbv zeta.
    destruct (enemy_fire_cases env (closure_of w) (Enemy.update e) x)
      as [_ Hfire].
    destruct (Hfire Hlvl) as (Hcalls & Hlt & Hge).
    pose proof (enemy_cb_randomCalls env canvas (closure_of w)
                  (Date_now env (dateCalls w)) e x) as Hmono.
    rewrite enemy_cb_enemyBullets.
    split; [lia|]. split; [exact Hlt | exact Hge].
Qed.

(** On [patrol_world], two enemies in the field, with the draws 0.5,
    0.001, 0.5, ...: at level 10 the spawn roll fails, the first enemy
    fires and the second does not; at level 9 nobody fires. *)
Lemma C9_enemy_firing_witness :
  enemyBullets (frame one_shot_env canvas_400x600 (patrol_world 10))
  = [enemy_shot (Enemy.update (Enemy.mk 100 100 BASIC 35 2 1 100
                                 "#3b82f6" "#60a5fa"))]
  /\ enemyBullets (frame one_shot_env canvas_400x600 (patrol_world 9)) = [].
Proof.
  split.
  - destruct (C9_enemy_firing one_shot_env canvas_400x600 (patrol_world 10)
                eq_refl) as [_ Hhigh].
    destruct Hhigh as (_ & _ & Hshots & _); [discriminate|].
    rewrite Hshots. vm_compute. reflexivity.
  - destruct (C9_enemy_firing one_shot_env canvas_400x600 (patrol_world 9)
                eq_refl) as [Hlow _].
    destruct Hlow as [Hsame _]; [reflexivity|].
    rewrite Hsame. vm_compute. reflexivity.
Defined.

(** ** Invincibility *)

Lemma enemyBullet_cb_invincible (canvas : Canvas) (cl : Closure.t) (now : Z)
    (b : Bullet.t) (w : World) :
  (now < Player.invincibility (player w))%Z ->
  snd (enemyBullet_cb canvas cl now b w) = w.
Proof.
  intros H. unfold enemyBullet_cb, isInvincible.
  apply Z.ltb_lt in H. rewrite H. reflexivity.
Qed.

Lemma enemy_contact_invincible (cl : Closure.t) (now : Z) (e : Enemy.t)
    (hit : bool) (w : World) :
  (now < Player.invincibility (player w))%Z ->
  enemy_contact cl now e hit w = (hit, w).
Proof.
  intros H. unfold enemy_contact, isInvincible.
  apply Z.ltb_lt in H. rewrite H. reflexivity.
Qed.

Lemma enemy_cb_invincible (env : Env) (canvas : Canvas) (cl : Closure.t)
    (now : Z) (e : Enemy.t) (w : World) :
  (now < Player.invincibility (player w))%Z ->
  hit_state (snd (enemy_cb env canvas cl now e w)) = hit_state w.
Proof.
  intros Hinv. unfold enemy_cb. cbv beta iota zeta.
  pose proof (enemy_fire_fp (fun x => hit_state x = hit_state w)
                ltac:(stable) ltac:(stable) env cl (Enemy.update e) w eq_refl)
    as H0.
  pose proof (enemy_bullets_fp (fun x => hit_state x = hit_state w)
                ltac:(stable) ltac:(stable) ltac:(stable) ltac:(stable)
                ltac:(stable) ltac:(stable) ltac:(stable)
                env canvas cl (Enemy.update e) _ H0) as H1.
  destruct (enemy_bullets env canvas cl (Enemy.update e)
              (enemy_fire env cl (Enemy.update e) w)) as [[e1 hit] w1].
  cbn [snd] in H1.
  rewrite enemy_contact_invincible.
  - destruct (Qltb _ _); exact H1.
  - unfold hit_state in H1. injection H1 as _ _ Hp _. rewrite Hp. exact Hinv.
Qed.

Lemma hit_state_invincible (now : Z) (w0 w : World) :
  (now < Player.invincibility (player w0))%Z ->
  hit_state w = hit_state w0 ->
  (now < Player.invincibility (player w))%Z.
Proof.
  unfold hit_state. intros H E. injection E as _ _ Hp _. now rewrite Hp.
Qed.

Lemma enemyBullets_pass_invincible (canvas : Canvas) (cl : Closure.t)
    (now : Z) (w : World) :
  (now < Player.invincibility (player w))%Z ->
  hit_state (enemyBullets_pass canvas cl now w) = hit_state w.
Proof.
  intros Hinv.
  apply (filter_pass_inv (fun x => hit_state x = hit_state w));
    [stable| |reflexivity].
  intros b x Hx. rewrite enemyBullet_cb_invincible; [exact Hx|].
  eapply hit_state_invincible; eauto.
Qed.

Lemma enemies_pass_invincible (env : Env) (canvas : Canvas) (cl : Closure.t)
    (now : Z) (w : World) :
  (now < Player.invincibility (player w))%Z ->
  hit_state (enemies_pass env canvas cl now w) = hit_state w.
Proof.
  intros Hinv.
  apply (filter_pass_inv (fun x => hit_state x = hit_state w));
    [stable| |reflexivity].
  intros e x Hx. rewrite enemy_cb_invincible; [exact Hx|].
  eapply hit_state_invincible; eauto.
Qed.

Lemma holds_shield_upsert (t : PowerUpType) (endTime : Z)
    (l : list ActivePowerUp.t) :
  holds_shield l = true -> holds_shield (upsert t endTime l) = true.
Proof.
  unfold holds_shield, upsert, without. intros H.
  rewrite List.existsb_app. apply orb_true_iff.
  destruct (PowerUpType_eqb t SHIELD) eqn:E.
  - right. simpl. now rewrite E.
  - left. apply List.existsb_exists in H as (p & Hin & Hp).
    apply List.existsb_exists. exists p. split; [|exact Hp].
    apply List.filter_In. split; [exact Hin|].
    apply PowerUpType_eqb_eq in Hp. rewrite Hp.
    destruct t; simpl in *; congruence.
Qed.

Lemma unharmed_hit_state (w0 w w' : World) :
  unharmed w0 w -> hit_state w' = hit_state w -> unharmed w0 w'.
Proof.
  unfold unharmed, hit_state. intros H E.
  injection E as El Ea Ep Eg. now rewrite El, Ea, Ep, Eg.
Qed.

Lemma pickup_unharmed (env : Env) (w0 : World) (p : PowerUp.t) (w : World) :
  unharmed w0 w -> unharmed w0 (pickup env p w).
Proof.
  intros (Hi & Hl & Hg & Hs). unfold pickup, now_. cbv beta iota zeta.
  destruct (PowerUpType_eqb (PowerUp.type p) EXTRA_LIFE);
    match goal with
    | |- context [if ?c then _ else _] => destruct c
    end; unfold unharmed, unlock; simpl; repeat split; auto; try lia;
    intros H; apply holds_shield_upsert; auto.
Qed.

Lemma setLevel_next_unharmed (w0 w : World) :
  unharmed w0 w -> unharmed w0 (setLevel_next w).
Proof.
  intros (Hi & Hl & Hg & Hs). unfold setLevel_next. cbv beta iota zeta.
  destruct (level w + 1 =? 15)%Z, (level w + 1 =? 5)%Z;
    unfold unharmed, unlock; simpl; repeat split; auto; lia.
Qed.

(** C5: in a tick in which the player is invincible ([now] below the
    invincible-until time), the enemy-bullet pass and the enemy pass, that
    is every enemy-bullet overlap and every enemy contact, leave the
    lives, the stored power-ups (the SHIELD entry with them), the
    invincible-until time and the run state exactly as they were; over the
    whole frame the invincible-until time is unchanged, no life is lost,
    the game is not over and a stored shield is still stored. *)
Theorem C5_invincible_player (env : Env) (canvas : Canvas) (w : World) :
  let now := Date_now env (dateCalls w) in
  let cl := closure_of w in
  gameState w = PLAYING ->
  (now < Player.invincibility (player w))%Z ->
  (forall x, hit_state x = hit_state w ->
     hit_state (enemyBullets_pass canvas cl now x) = hit_state w
     /\ hit_state (enemies_pass env canvas cl now x) = hit_state w)
  /\ unharmed w (frame env canvas w).
Proof.
  cbv zeta. intros Hplay Hinv. split.
  - intros x Hx.
    pose proof (hit_state_invincible _ _ _ Hinv Hx) as Hxi.
    rewrite enemyBullets_pass_invincible, enemies_pass_invincible; auto.
  - unfold frame. rewrite Hplay.
    unfold loop, now_, loop_from, entities. cbv beta iota zeta.
    set (now := Date_now env (dateCalls (handle_input canvas w))).
    set (cl := closure_of w).
    assert (U0 : unharmed w (set_dateCalls (S (dateCalls (handle_input canvas w)))
                               (handle_input canvas w))).
    { unfold unharmed. simpl. repeat split; auto. lia. }
    assert (I0 : forall x, unharmed w x ->
                           (now < Player.invincibility (player x))%Z).
    { intros x (Hi & _). rewrite Hi. exact Hinv. }
    assert (Ust : forall {V : Type} (set : V -> World -> World),
               (forall v x, hit_state (set v x) = hit_state x) ->
               forall v x, unharmed w x -> unharmed w (set v x)).
    { intros V set Hset v x Hx. eapply unharmed_hit_state; eauto. }
    apply (check_survivor_fp (unharmed w));
      [apply Ust; reflexivity|].
    unfold check_level_up.
    match goal with
    | |- unharmed w (if ?c then _ else ?x) =>
        assert (U6 : unharmed w x); [|destruct c; [|exact U6]]
    end.
    + apply (particles_pass_fp (unharmed w)); [apply Ust; reflexivity|].
      apply (filter_pass_inv (unharmed w)); [apply Ust; reflexivity| |].
      { intros p x Hx. unfold powerUp_cb.
        destruct (powerUp_hits_player _ _); cbn [snd]; auto.
        now apply pickup_unharmed. }
      match goal with
      | |- unharmed w (enemies_pass _ _ _ _ ?x) =>
          assert (U3 : unharmed w x)
      end.
      { apply (maybe_spawnEnemy_fp (unharmed w));
          try (apply Ust; reflexivity).
        match goal with
        | |- unharmed w (enemyBullets_pass _ _ _ ?x) =>
            assert (U1 : unharmed w x)
        end.
        { apply (bullets_pass_fp (unharmed w)); [apply Ust; reflexivity|].
          apply (shoot_fp (unharmed w)); try (apply Ust; reflexivity).
          exact U0. }
        eapply unharmed_hit_state; [exact U1|].
        apply enemyBullets_pass_invincible. auto. }
      eapply unharmed_hit_state; [exact U3|].
      apply enemies_pass_invincible. auto.
    + apply (Ust _ set_enemiesSpawnedInLevel); [reflexivity|].
      now apply setLevel_next_unharmed.
Qed.

(** On [invincible_world] a bullet and an enemy reach the player and
    change nothing. *)
Lemma C5_invincible_player_witness :
  unharmed invincible_world
    (frame (const_env 0.5 100) canvas_400x600 invincible_world).
Proof.
  apply (C5_invincible_player (const_env 0.5 100) canvas_400x600
           invincible_world); reflexivity.
Defined.

(** ** The shield *)

Lemma holds_shield_without (l : list ActivePowerUp.t) :
  holds_shield (without SHIELD l) = false.
Proof.
  unfold holds_shield, without. induction l as [|p l IH]; simpl; auto.
  destruct (PowerUpType_eqb (ActivePowerUp.type p) SHIELD) eqn:E; simpl; auto.
  now rewrite E.
Qed.

Lemma without_idem (t : PowerUpType) (l : list ActivePowerUp.t) :
  without t (without t l) = without t l.
Proof.
  unfold without. induction l as [|p l IH]; simpl; auto.
  destruct (PowerUpType_eqb (ActivePowerUp.type p) t) eqn:E; simpl; auto.
  rewrite E. simpl. now rewrite IH.
Qed.

Section Shielded.

Local Unset Default Proof Using.

Variable canvas : Canvas.
Variable cl : Closure.t.
Variable now : Z.
Variable w : World.

Hypothesis vulnerable : (Player.invincibility (player w) <= now)%Z.
Hypothesis shielded : has_active cl SHIELD now = true.

(** The lives, the player and the run state of [w]. *)
Let same (x : World) : Prop :=
  player x = player w /\ lives x = lives w /\ gameState x = gameState w.

Lemma shielded_cb_same b x :
  same x -> same (snd (enemyBullet_cb canvas cl now b x)).
Proof.
  intros H. unfold enemyBullet_cb, player_hit. rewrite shielded.
  destruct (negb (isInvincible now x) && _); exact H.
Qed.

Lemma shielded_cb_kept b x :
  same x ->
  snd (fst (enemyBullet_cb canvas cl now b x)) = true ->
  bullet_hits_player (fst (fst (enemyBullet_cb canvas cl now b x))) w = false.
Proof.
  intros (Hp & _). unfold enemyBullet_cb, isInvincible, bullet_hits_player.
  rewrite Hp. apply Z.ltb_ge in vulnerable. rewrite vulnerable.
  cbn [negb andb].
  match goal with
  | |- context [if ?c then _ else _] => destruct c eqn:E
  end; cbn [fst snd]; [discriminate|]. intros _. exact E.
Qed.

Lemma shielded_cb_hit b x :
  same x ->
  bullet_hits_player (Bullet.update b) w = true ->
  holds_shield (activePowerUps (snd (enemyBullet_cb canvas cl now b x))) = false.
Proof.
  intros (Hp & _) Hhit.
  unfold enemyBullet_cb, isInvincible, player_hit, bullet_hits_player in *.
  rewrite Hp. apply Z.ltb_ge in vulnerable. rewrite vulnerable.
  cbn [negb andb]. rewrite Hhit, shielded. cbn [snd].
  apply holds_shield_without.
Qed.

Lemma shielded_cb_gone b x :
  holds_shield (activePowerUps x) = false ->
  holds_shield (activePowerUps (snd (enemyBullet_cb canvas cl now b x))) = false.
Proof.
  intros H. unfold enemyBullet_cb, player_hit. rewrite shielded.
  destruct (negb (isInvincible now x) && _); cbn [snd]; auto.
  apply holds_shield_without.
Qed.

Lemma shielded_filter_gone (b : Bullet.t) (arr : list Bullet.t) :
  In b arr ->
  bullet_hits_player (Bullet.update b) w = true ->
  forall x, same x ->
  holds_shield
    (activePowerUps (snd (js_filter (enemyBullet_cb canvas cl now) arr x)))
  = false.
Proof.
  intros Hin Hhit. induction arr as [|a arr IH]; [destruct Hin|].
  intros x Hx. simpl.
  pose proof (shielded_cb_same a x Hx) as Hs.
  pose proof (shielded_cb_hit a x Hx) as Hg.
  destruct (enemyBullet_cb canvas cl now a x) as [[a' keep] x1].
  cbn [snd] in Hs, Hg.
  destruct Hin as [->|Hin].
  - specialize (Hg Hhit).
    pose proof (js_filter_inv
                  (fun y => holds_shield (activePowerUps y) = false)
                  (enemyBullet_cb canvas cl now)
                  (fun c y => shielded_cb_gone c y) arr x1 Hg) as H.
    destruct (js_filter (enemyBullet_cb canvas cl now) arr x1). exact H.
  - specialize (IH Hin x1 Hs).
    destruct (js_filter (enemyBullet_cb canvas cl now) arr x1). exact IH.
Qed.

Lemma shielded_pass (b : Bullet.t) :
  In b (enemyBullets w) ->
  bullet_hits_player (Bullet.update b) w = true ->
  let w' := enemyBullets_pass canvas cl now w in
  holds_shield (activePowerUps w') = false
  /\ lives w' = lives w
  /\ ~ In (Bullet.update b) (enemyBullets w')
  /\ player w' = player w
  /\ gameState w' = gameState w.
Proof.
  intros Hin Hhit. cbv zeta.
  assert (Hw : same w) by (unfold same; auto).
  pose proof (shielded_filter_gone b (enemyBullets w) Hin Hhit w Hw) as Hgone.
  pose proof (js_filter_inv same (enemyBullet_cb canvas cl now)
                shielded_cb_same (enemyBullets w) w Hw) as Hsame.
  pose proof (js_filter_kept same
                (fun b' => bullet_hits_player b' w = false)
                (enemyBullet_cb canvas cl now)
                shielded_cb_same shielded_cb_kept (enemyBullets w) w Hw)
    as Hkept.
  unfold enemyBullets_pass, filter_pass.
  destruct (js_filter (enemyBullet_cb canvas cl now) (enemyBullets w) w)
    as [res w1].
  cbn [fst snd] in *. destruct Hsame as (Hp & Hl & Hg).
  repeat split; auto.
  intros Hres. simpl in Hres.
  rewrite List.Forall_forall in Hkept. apply Hkept in Hres. congruence.
Qed.

End Shielded.

(** C6: in a tick where the player is not invincible and the captured
    power-up list holds a SHIELD entry with expiry in the future, an enemy
    bullet that overlaps the player after its move is absorbed: when the
    enemy-bullet pass is over no SHIELD entry is stored, the lives are
    unchanged and the bullet is not among the enemy bullets (the player
    and the run state are unchanged too). *)
Theorem C6_shield_absorbs_bullet (canvas : Canvas) (cl : Closure.t) (now : Z)
    (w : World) (b : Bullet.t) :
  (Player.invincibility (player w) <= now)%Z ->
  (exists p, In p (Closure.activePowerUps cl)
             /\ ActivePowerUp.type p = SHIELD
             /\ (now < ActivePowerUp.endTime p)%Z) ->
  In b (enemyBullets w) ->
  bullet_hits_player (Bullet.update b) w = true ->
  let w' := enemyBullets_pass canvas cl now w in
  holds_shield (activePowerUps w') = false
  /\ lives w' = lives w
  /\ ~ In (Bullet.update b) (enemyBullets w')
  /\ player w' = player w
  /\ gameState w' = gameState w.
Proof.
  intros Hv Hs Hin Hhit. apply shielded_pass; auto.
  now apply has_active_exists.
Qed.

(** On [shielded_world] the bullet and the shield are gone, the three
    lives are left. *)
Lemma C6_shield_absorbs_bullet_witness :
  let w' := enemyBullets_pass canvas_400x600 (closure_of shielded_world) 100
              shielded_world in
  holds_shield (activePowerUps w') = false
  /\ lives w' = 3%Z
  /\ enemyBullets w' = [].
Proof.
  destruct (C6_shield_absorbs_bullet canvas_400x600
              (closure_of shielded_world) 100 shielded_world
              (Bullet.new 200 550 0 4 "#ef4444" true))
    as (Hs & Hl & _).
  - vm_compute. discriminate.
  - exists (ActivePowerUp.mk SHIELD 8000).
    split; [left; reflexivity | split; reflexivity].
  - left. reflexivity.
  - reflexivity.
  - cbv zeta. split; [exact Hs|]. split; [exact Hl|]. reflexivity.
Defined.

(** ** Active power-ups *)

Lemma entries_of_without (t : PowerUpType) (l : list ActivePowerUp.t) :
  entries_of t (without t l) = [].
Proof.
  unfold entries_of, without. induction l as [|q l IH]; simpl; auto.
  destruct (PowerUpType_eqb (ActivePowerUp.type q) t) eqn:E; simpl; auto.
  now rewrite E.
Qed.

Lemma entries_of_without_other (t u : PowerUpType) (l : list ActivePowerUp.t) :
  t <> u -> entries_of u (without t l) = entries_of u l.
Proof.
  intros Hne. unfold entries_of, without.
  induction l as [|q l IH]; simpl; auto.
  destruct (PowerUpType_eqb (ActivePowerUp.type q) t) eqn:E; simpl.
  - apply PowerUpType_eqb_eq in E.
    assert (E' : PowerUpType_eqb (ActivePowerUp.type q) u = false)
      by (apply PowerUpType_eqb_neq; congruence).
    now rewrite E'.
  - now rewrite IH.
Qed.

Lemma entries_of_upsert (t : PowerUpType) (endTime : Z)
    (l : list ActivePowerUp.t) :
  entries_of t (upsert t endTime l) = [ActivePowerUp.mk t endTime].
Proof.
  unfold upsert, entries_of. rewrite List.filter_app.
  fold (entries_of t (without t l)). rewrite entries_of_without. simpl.
  now rewrite PowerUpType_eqb_refl.
Qed.

Lemma entries_of_upsert_other (t u : PowerUpType) (endTime : Z)
    (l : list ActivePowerUp.t) :
  t <> u -> entries_of u (upsert t endTime l) = entries_of u l.
Proof.
  intros Hne. unfold upsert, entries_of. rewrite List.filter_app.
  fold (entries_of u (without t l)).
  rewrite entries_of_without_other by exact Hne. simpl.
  assert (E : PowerUpType_eqb t u = false) by now apply PowerUpType_eqb_neq.
  rewrite E. apply app_nil_r.
Qed.

Lemma stamped_same (env : Env) (w w' : World) :
  activePowerUps w' = activePowerUps w ->
  (dateCalls w <= dateCalls w')%nat ->
  stamped env w -> stamped env w'.
Proof.
  unfold stamped. intros Ea Ed H. rewrite Ea.
  eapply List.Forall_impl; [|exact H].
  intros q (k & Hk & Hq). exists k. split; [lia|exact Hq].
Qed.

Lemma stamped_without (env : Env) (t : PowerUpType) (w : World) :
  stamped env w ->
  stamped env (set_activePowerUps (without t (activePowerUps w)) w).
Proof.
  unfold stamped, without. simpl. intros H.
  apply List.Forall_forall. intros q Hq. apply List.filter_In in Hq as [Hq _].
  rewrite List.Forall_forall in H. auto.
Qed.

Lemma stamped_pickup (env : Env) (p : PowerUp.t) (w : World) :
  stamped env w -> stamped env (pickup env p w).
Proof.
  intros H. unfold pickup, now_. cbv beta iota zeta.
  assert (H' :
    stamped env
      (if PowerUpType_eqb (PowerUp.type p) EXTRA_LIFE
       then unlock "life_saver" (set_lives (lives w + 1)%Z w)
       else set_activePowerUps
              (upsert (PowerUp.type p)
                 (Date_now env (dateCalls w) + POWERUP_DURATION)%Z
                 (activePowerUps (set_dateCalls (S (dateCalls w)) w)))
              (set_dateCalls (S (dateCalls w)) w))).
  { destruct (PowerUpType_eqb (PowerUp.type p) EXTRA_LIFE); [exact H|].
    unfold stamped, upsert, without in *. simpl.
    apply List.Forall_app. split.
    - apply List.Forall_forall. intros q Hq. apply List.filter_In in Hq as [Hq _].
      rewrite List.Forall_forall in H. destruct (H q Hq) as (k & Hk & E).
      exists k. split; [lia|exact E].
    - constructor; [|constructor]. exists (dateCalls w). simpl.
      split; [lia|reflexivity]. }
  match goal with
  | |- context [if (powerUpsPicked ?x =? 10)%Z then _ else _] =>
      destruct (powerUpsPicked x =? 10)%Z
  end; exact H'.
Qed.

Lemma stamped_player_hit (env : Env) (cl : Closure.t) (now : Z) (w : World) :
  stamped env w -> stamped env (player_hit cl now w).
Proof.
  intros H. unfold player_hit.
  destruct (has_active cl SHIELD now).
  - now apply stamped_without.
  - unfold setLives_hit, set_invincibility.
    destruct (lives w <=? 1)%Z; exact H.
Qed.

Lemma stamped_enemy_cb (env : Env) (canvas : Canvas) (cl : Closure.t)
    (now : Z) (e : Enemy.t) (w : World) :
  stamped env w -> stamped env (snd (enemy_cb env canvas cl now e w)).
Proof.
  intros H. unfold enemy_cb. cbv beta iota zeta.
  pose proof (enemy_fire_fp (stamped env) ltac:(stable) ltac:(stable)
                env cl (Enemy.update e) w H) as H0.
  pose proof (enemy_bullets_fp (stamped env)
                ltac:(stable) ltac:(stable) ltac:(stable) ltac:(stable)
                ltac:(stable) ltac:(stable) ltac:(stable)
                env canvas cl (Enemy.update e) _ H0) as H1.
  destruct (enemy_bullets env canvas cl (Enemy.update e)
              (enemy_fire env cl (Enemy.update e) w)) as [[e1 hit] w1].
  cbn [snd] in H1. unfold enemy_contact.
  destruct (negb (isInvincible now w1) && enemy_hits_player e1 w1);
    destruct (Qltb _ _); cbn [snd]; auto using stamped_player_hit.
Qed.

Lemma stamped_loop (env : Env) (canvas : Canvas) (cl : Closure.t) (w : World) :
  stamped env w -> stamped env (loop env canvas cl w).
Proof.
  intros H. unfold loop, now_, loop_from, entities. cbv beta iota zeta.
  apply (check_survivor_fp (stamped env)); [stable|].
  apply (check_level_up_fp (stamped env)); try stable.
  apply (particles_pass_fp (stamped env)); [stable|].
  apply (filter_pass_inv (stamped env)); [stable| |].
  { intros p x Hx. unfold powerUp_cb.
    destruct (powerUp_hits_player _ _); cbn [snd]; auto.
    now apply stamped_pickup. }
  apply (filter_pass_inv (stamped env)); [stable| |].
  { intros e x Hx. now apply stamped_enemy_cb. }
  apply (maybe_spawnEnemy_fp (stamped env)); try stable.
  apply (filter_pass_inv (stamped env)); [stable| |].
  { intros b x Hx. unfold enemyBullet_cb.
    destruct (negb (isInvincible _ x) && _); cbn [snd]; auto.
    now apply stamped_player_hit. }
  apply (bullets_pass_fp (stamped env)); [stable|].
  apply (shoot_fp (stamped env)); try stable.
  eapply stamped_same; [| |exact H]; simpl; auto.
Qed.

Lemma stamped_step (env : Env) (w w' : World) :
  step env w w' -> stamped env w -> stamped env w'.
Proof.
  intros Hstep H. destruct Hstep.
  - eapply stamped_same; [| |exact H]; simpl; auto.
  - unfold frame. destruct (gameState w); auto using stamped_loop.
  - unfold handleKeyDown.
    destruct (_ || _); [|exact H].
    cbn [gameState set_keys]. destruct (gameState w); exact H.
  - exact H.
  - exact H.
Qed.

(** Along every run the stored power-ups are stamped. *)
Lemma reachable_stamped (env : Env) (w : World) :
  reachable env w -> stamped env w.
Proof.
  induction 1 as [|w w' _ IH Hstep].
  - constructor.
  - eapply stamped_step; eauto.
Qed.

(** C7 (as amended): every pickup of a TRIPLE_SHOT or SHIELD power-up
    leaves exactly one stored entry of that variant; its expiry is the
    reading of [Date.now()] made by the updater of the pickup, a reading
    of its own that comes after the one the tick took as [now], plus
    [POWERUP_DURATION]; the entries of the other variant are untouched.
    When the readings of the clock do not go back, that expiry is at
    least the expiry of every entry of that variant it replaces.  A
    second pickup of a variant thus refreshes its entry and never
    stacks. *)
Theorem C7_pickup_refreshes (env : Env) (p : PowerUp.t) (w : World) :
  stamped env w ->
  PowerUp.type p <> EXTRA_LIFE ->
  let t := Date_now env (dateCalls w) in
  let v := PowerUp.type p in
  let w' := pickup env p w in
  entries_of v (activePowerUps w')
  = [ActivePowerUp.mk v (t + POWERUP_DURATION)%Z]
  /\ (clock_monotone env ->
      forall q, In q (entries_of v (activePowerUps w)) ->
                (ActivePowerUp.endTime q <= t + POWERUP_DURATION)%Z)
  /\ (forall u, u <> v ->
                entries_of u (activePowerUps w')
                = entries_of u (activePowerUps w))
  /\ stamped env w'.
Proof.
  intros Hst Hne. cbv zeta.
  split; [|split; [|split]].
  - unfold pickup, now_. cbv beta iota zeta.
    apply PowerUpType_eqb_neq in Hne. rewrite Hne.
    match goal with
    | |- context [if ?c then _ else _] => destruct c
    end; simpl; apply entries_of_upsert.
  - intros Hmono q Hq. apply List.filter_In in Hq as [Hq _].
    unfold stamped in Hst. rewrite List.Forall_forall in Hst.
    destruct (Hst q Hq) as (k & Hk & E). rewrite E.
    apply Z.add_le_mono_r. apply Hmono. lia.
  - intros u Hu. unfold pickup, now_. cbv beta iota zeta.
    apply PowerUpType_eqb_neq in Hne. rewrite Hne.
    match goal with
    | |- context [if ?c then _ else _] => destruct c
    end; simpl; apply entries_of_upsert_other; congruence.
  - now apply stamped_pickup.
Qed.

Lemma ticking_env_monotone : clock_monotone ticking_env.
Proof. intros i j H. simpl. lia. Qed.

(** On [shield_held_world] the second shield, picked up at the reading
    3000, replaces the expiry 8000 by 11000. *)
Lemma C7_pickup_refreshes_witness :
  entries_of SHIELD
    (activePowerUps (pickup ticking_env shield_powerUp shield_held_world))
  = [ActivePowerUp.mk SHIELD 11000]
  /\ (forall q, In q (entries_of SHIELD (activePowerUps shield_held_world)) ->
                (ActivePowerUp.endTime q <= 11000)%Z).
Proof.
  destruct (C7_pickup_refreshes ticking_env shield_powerUp shield_held_world)
    as (H & Hle & _).
  - constructor; [|constructor]. exists 0%nat. split; [simpl; lia|reflexivity].
  - discriminate.
  - split; [exact H|]. exact (Hle ticking_env_monotone).
Defined.

(** C7 (as stated) fails on both counts.  The expiry is not the [now] of
    the tick plus the duration: on [falling_shield_world] the tick reads
    3000 and the updater of the pickup, reading the clock again, 4000, so
    that the shield expires at 12000.  And the expiry can be below the
    one it replaces: with the readings 10000 and then 5000 of
    [backward_env], a clock set back between two pickups, the shield that
    expired at 18000 is replaced by one that expires at 13000. *)
Lemma C7_counterexample :
  let w := falling_shield_world in
  let w' := frame ticking_env canvas_400x600 w in
  let w1 := pickup backward_env shield_powerUp started_world in
  let w2 := pickup backward_env shield_powerUp w1 in
  gameState w = PLAYING
  /\ Date_now ticking_env (dateCalls w) = 3000%Z
  /\ entries_of SHIELD (activePowerUps w')
     = [ActivePowerUp.mk SHIELD 12000]
  /\ entries_of SHIELD (activePowerUps w1) = [ActivePowerUp.mk SHIELD 18000]
  /\ entries_of SHIELD (activePowerUps w2) = [ActivePowerUp.mk SHIELD 13000].
Proof.
  cbv zeta. repeat split; vm_compute; reflexivity.
Qed.

(** ** Several bullets on one enemy *)

(** C1 (the code departs from it): one frame on [triple_hit_world], where
    the three bullets of a triple shot overlap a BASIC enemy of health 1.
    The first bullet destroys the enemy; after its [splice] the [forEach]
    skips the second bullet and reaches the third, which still overlaps:
    the health goes to -1 and, the test being [e.health <= 0] with no
    look at [hit], the kill effects run a second time.  One enemy is
    removed, but 200 points are scored, two kills are counted, 20
    particles are emitted and the power-up roll is made twice (43 calls of
    [Math.random()]: the spawn roll, then twice 20 for particles and 1 for
    the roll).  On the HEAVY enemy the same shot takes two health points in
    one frame, which the claim allows. *)
Theorem C1_kill_effects_twice :
  let w' := frame (const_env 0.5 0) canvas_400x600 triple_hit_world in
  let h' := frame (const_env 0.5 0) canvas_400x600 triple_hit_heavy_world in
  enemies w' = []
  /\ score w' = (score triple_hit_world + 2 * 100)%Z
  /\ enemiesKilled w' = (enemiesKilled triple_hit_world + 2)%Z
  /\ length (particles w') = 20%nat
  /\ (randomCalls w' - randomCalls triple_hit_world = 43)%nat
  /\ length (bullets w') = 1%nat
  /\ map Enemy.health (enemies h') = [1%Z]
  /\ score h' = score triple_hit_heavy_world.
Proof.
  vm_compute. repeat split; reflexivity.
Qed.

(** ** Commutation

    A transformation of the world that commutes with a setter neither
    reads nor writes the field; it then commutes with every phase that
    touches that field alone. *)

Lemma commute_keeps {V : Type} (get : World -> V) (set : V -> World -> World)
    (s : World -> World) :
  (forall w, set (get w) w = w) ->
  (forall v w, get (set v w) = v) ->
  (forall v w, s (set v w) = set v (s w)) ->
  forall w, get (s w) = get w.
Proof.
  intros Heta Hget Hs w.
  rewrite <- (Heta w) at 1. rewrite Hs. apply Hget.
Qed.

Ltac eta := intros []; reflexivity.

Lemma js_filter_fuse {A : Type} (cb : A -> World -> A * bool * World)
    (f : A -> A) (arr : list A) (w : World) :
  js_filter (fun a x => cb (f a) x) arr w = js_filter cb (map f arr) w.
Proof.
  revert w. induction arr as [|a arr IH]; intros w; simpl; [reflexivity|].
  destruct (cb (f a) w) as [[a' keep] w1]. now rewrite IH.
Qed.

Lemma js_filter_commute {A : Type} (cb : A -> World -> A * bool * World)
    (s : World -> World) :
  (forall a w, cb a (s w)
               = (fst (fst (cb a w)), snd (fst (cb a w)), s (snd (cb a w)))) ->
  forall arr w,
    js_filter cb arr (s w)
    = (fst (js_filter cb arr w), s (snd (js_filter cb arr w))).
Proof.
  intros Hcb arr. induction arr as [|a arr IH]; intros w; simpl;
    [reflexivity|].
  rewrite Hcb. destruct (cb a w) as [[a' keep] w1]. cbn [fst snd].
  rewrite IH. destruct (js_filter cb arr w1) as [res w2]. reflexivity.
Qed.

Lemma js_map_commute {A B : Type} (f : A -> World -> B * World)
    (s : World -> World) :
  (forall a w, f a (s w) = (fst (f a w), s (snd (f a w)))) ->
  forall arr w,
    js_map f arr (s w) = (fst (js_map f arr w), s (snd (js_map f arr w))).
Proof.
  intros Hf arr. induction arr as [|a arr IH]; intros w; simpl;
    [reflexivity|].
  rewrite Hf. destruct (f a w) as [b w1]. cbn [fst snd].
  rewrite IH. destruct (js_map f arr w1) as [res w2]. reflexivity.
Qed.

Lemma js_forEach_commute {A S : Type} (get : S -> list A)
    (cb : A -> nat -> S -> S) (s : S -> S) :
  (forall x, get (s x) = get x) ->
  (forall a k x, cb a k (s x) = s (cb a k x)) ->
  forall len k x,
    js_forEach get cb len k (s x) = s (js_forEach get cb len k x).
Proof.
  intros Hget Hcb len. induction len as [|len IH]; intros k x; simpl;
    [reflexivity|].
  rewrite Hget. destruct (nth_error (get x) k); [rewrite Hcb|]; apply IH.
Qed.

(** *** Transformations that stay clear of the player's hit state *)

Section IndepHit.

Local Unset Default Proof Using.

Variable s : World -> World.

Hypothesis s_player : forall v w, s (set_player v w) = set_player v (s w).
Hypothesis s_lives : forall v w, s (set_lives v w) = set_lives v (s w).
Hypothesis s_gameState :
  forall v w, s (set_gameState v w) = set_gameState v (s w).
Hypothesis s_activePowerUps :
  forall v w, s (set_activePowerUps v w) = set_activePowerUps v (s w).
Hypothesis s_enemyBullets :
  forall v w, s (set_enemyBullets v w) = set_enemyBullets v (s w).

Variable canvas : Canvas.
Variable cl : Closure.t.
Variable now : Z.

Lemma hit_keeps_player w : player (s w) = player w.
Proof. apply (commute_keeps player set_player); auto. eta. Qed.

Lemma hit_keeps_lives w : lives (s w) = lives w.
Proof. apply (commute_keeps lives set_lives); auto. eta. Qed.

Lemma hit_keeps_activePowerUps w : activePowerUps (s w) = activePowerUps w.
Proof.
  apply (commute_keeps activePowerUps set_activePowerUps); auto. eta.
Qed.

Lemma hit_keeps_enemyBullets w : enemyBullets (s w) = enemyBullets w.
Proof. apply (commute_keeps enemyBullets set_enemyBullets); auto. eta. Qed.

Lemma player_hit_commute w : player_hit cl now (s w) = s (player_hit cl now w).
Proof.
  unfold player_hit. destruct (has_active cl SHIELD now).
  - now rewrite hit_keeps_activePowerUps, s_activePowerUps.
  - unfold setLives_hit, set_invincibility. rewrite hit_keeps_lives.
    destruct (lives w <=? 1)%Z; cbn [player set_lives set_gameState];
      rewrite s_player, ?s_lives, ?s_gameState, hit_keeps_player;
      reflexivity.
Qed.

Lemma enemyBullet_collide_commute b w :
  enemyBullet_collide canvas cl now b (s w)
  = (fst (fst (enemyBullet_collide canvas cl now b w)),
     snd (fst (enemyBullet_collide canvas cl now b w)),
     s (snd (enemyBullet_collide canvas cl now b w))).
Proof.
  unfold enemyBullet_collide, isInvincible, bullet_hits_player.
  rewrite hit_keeps_player.
  match goal with
  | |- context [if ?c then _ else _] => destruct c
  end; cbn [fst snd]; [|reflexivity].
  now rewrite player_hit_commute.
Qed.

Lemma collide_enemyBullets_commute w :
  collide_enemyBullets canvas cl now (s w)
  = s (collide_enemyBullets canvas cl now w).
Proof.
  unfold collide_enemyBullets, filter_pass.
  rewrite hit_keeps_enemyBullets.
  rewrite (js_filter_commute _ s enemyBullet_collide_commute).
  destruct (js_filter (enemyBullet_collide canvas cl now) (enemyBullets w) w)
    as [res w1].
  cbn [fst snd]. now rewrite s_enemyBullets.
Qed.

Lemma enemy_contact_commute e hit w :
  enemy_contact cl now e hit (s w)
  = (fst (enemy_contact cl now e hit w),
     s (snd (enemy_contact cl now e hit w))).
Proof.
  unfold enemy_contact, isInvincible, enemy_hits_player.
  rewrite hit_keeps_player.
  match goal with
  | |- context [if ?c then _ else _] => destruct c
  end; cbn [fst snd]; [|reflexivity].
  now rewrite player_hit_commute.
Qed.

Lemma enemy_touch_commute eh w :
  enemy_touch canvas cl now eh (s w)
  = (fst (enemy_touch canvas cl now eh w),
     s (snd (enemy_touch canvas cl now eh w))).
Proof.
  destruct eh as [e hit]. unfold enemy_touch.
  rewrite enemy_contact_commute.
  destruct (enemy_contact cl now e hit w) as [hit' w1]. cbn [fst snd].
  destruct (Qltb _ _); reflexivity.
Qed.

Lemma collide_enemies_tail_commute marked w :
  js_filter (enemy_touch canvas cl now) marked (s w)
  = (fst (js_filter (enemy_touch canvas cl now) marked w),
     s (snd (js_filter (enemy_touch canvas cl now) marked w))).
Proof.
  apply js_filter_commute. intros eh x. rewrite enemy_touch_commute.
  now destruct (enemy_touch canvas cl now eh x) as [[eh' keep] x'].
Qed.

End IndepHit.

(** *** Transformations that stay clear of what a shot enemy changes *)

Section IndepShot.

Local Unset Default Proof Using.

Variable s : World -> World.

Hypothesis s_bullets : forall v w, s (set_bullets v w) = set_bullets v (s w).
Hypothesis s_enemyBullets :
  forall v w, s (set_enemyBullets v w) = set_enemyBullets v (s w).
Hypothesis s_powerUps : forall v w, s (set_powerUps v w) = set_powerUps v (s w).
Hypothesis s_particles :
  forall v w, s (set_particles v w) = set_particles v (s w).
Hypothesis s_enemiesKilled :
  forall v w, s (set_enemiesKilled v w) = set_enemiesKilled v (s w).
Hypothesis s_score : forall v w, s (set_score v w) = set_score v (s w).
Hypothesis s_achievements :
  forall v w, s (set_achievements v w) = set_achievements v (s w).
Hypothesis s_randomCalls :
  forall v w, s (set_randomCalls v w) = set_randomCalls v (s w).

Variable env : Env.
Variable canvas : Canvas.
Variable cl : Closure.t.

Lemma shot_keeps_bullets w : bullets (s w) = bullets w.
Proof. apply (commute_keeps bullets set_bullets); auto. eta. Qed.

Lemma shot_keeps_enemyBullets w : enemyBullets (s w) = enemyBullets w.
Proof. apply (commute_keeps enemyBullets set_enemyBullets); auto. eta. Qed.

Lemma shot_keeps_powerUps w : powerUps (s w) = powerUps w.
Proof. apply (commute_keeps powerUps set_powerUps); auto. eta. Qed.

Lemma shot_keeps_particles w : particles (s w) = particles w.
Proof. apply (commute_keeps particles set_particles); auto. eta. Qed.

Lemma shot_keeps_enemiesKilled w : enemiesKilled (s w) = enemiesKilled w.
Proof. apply (commute_keeps enemiesKilled set_enemiesKilled); auto. eta. Qed.

Lemma shot_keeps_score w : score (s w) = score w.
Proof. apply (commute_keeps score set_score); auto. eta. Qed.

Lemma shot_keeps_achievements w : achievements (s w) = achievements w.
Proof. apply (commute_keeps achievements set_achievements); auto. eta. Qed.

Lemma shot_keeps_randomCalls w : randomCalls (s w) = randomCalls w.
Proof. apply (commute_keeps randomCalls set_randomCalls); auto. eta. Qed.

Lemma if_commute (c : bool) (a b : World) :
  (if c then s a else s b) = s (if c then a else b).
Proof. now destruct c. Qed.

Lemma random_commute w :
  random env (s w) = (fst (random env w), s (snd (random env w))).
Proof.
  unfold random. cbn [fst snd].
  now rewrite shot_keeps_randomCalls, s_randomCalls.
Qed.

(** Splits the next call of [random] into its draw and its world. *)
Ltac draw w r w1 :=
  rewrite (random_commute w); destruct (random env w) as [r w1];
  cbn [fst snd]; cbv beta iota.

Lemma unlock_commute id w : unlock id (s w) = s (unlock id w).
Proof. unfold unlock. now rewrite shot_keeps_achievements, s_achievements. Qed.

Lemma enemy_fire_commute e w : enemy_fire env cl e (s w) = s (enemy_fire env cl e w).
Proof.
  unfold enemy_fire. destruct (10 <=? Closure.level cl)%Z; [|reflexivity].
  draw w r w1. destruct (Qltb r _); [|reflexivity].
  now rewrite shot_keeps_enemyBullets, s_enemyBullets.
Qed.

Lemma spawnPowerUp_commute w :
  spawnPowerUp env canvas cl (s w) = s (spawnPowerUp env canvas cl w).
Proof.
  unfold spawnPowerUp. cbv zeta.
  draw w r w1. destruct (Qltb r _); [|reflexivity].
  draw w1 rand w2. draw w2 rx w3.
  now rewrite shot_keeps_powerUps, s_powerUps.
Qed.

Lemma push_particles_commute n x0 y0 c w :
  push_particles env n x0 y0 c (s w) = s (push_particles env n x0 y0 c w).
Proof.
  revert w. induction n as [|n IH]; intros w; [reflexivity|].
  cbn [push_particles]. draw w r1 w1. draw w1 r2 w2.
  now rewrite shot_keeps_particles, <- s_particles, IH.
Qed.

Lemma kill_effects_commute e w :
  kill_effects env canvas cl e (s w) = s (kill_effects env canvas cl e w).
Proof.
  unfold kill_effects. cbv beta zeta.
  rewrite !shot_keeps_score, <- !s_score.
  rewrite !shot_keeps_enemiesKilled, <- !s_enemiesKilled.
  rewrite !push_particles_commute.
  rewrite !shot_keeps_enemiesKilled, !unlock_commute, !if_commute.
  rewrite !shot_keeps_enemiesKilled, !unlock_commute, !if_commute.
  apply spawnPowerUp_commute.
Qed.

(** [s] on the world of the iteration over the bullets. *)
Let lift (x : EnemyIter) : EnemyIter := (fst x, s (snd x)).

Lemma enemy_bullet_cb_commute b k x :
  enemy_bullet_cb env canvas cl b k (lift x)
  = lift (enemy_bullet_cb env canvas cl b k x).
Proof.
  destruct x as [[e hit] w]. unfold lift, enemy_bullet_cb. cbn [fst snd].
  destruct (bullet_hits_enemy b e); [|reflexivity]. cbv zeta.
  rewrite shot_keeps_bullets, <- s_bullets.
  destruct (Enemy.health _ <=? 0)%Z; [|reflexivity].
  now rewrite kill_effects_commute.
Qed.

Lemma enemy_bullets_commute e w :
  enemy_bullets env canvas cl e (s w) = lift (enemy_bullets env canvas cl e w).
Proof.
  unfold enemy_bullets. rewrite shot_keeps_bullets.
  change (e, false, s w) with (lift (e, false, w)).
  apply js_forEach_commute.
  - intros [[e1 hit] w1]. unfold iter_bullets, lift. cbn [fst snd].
    apply shot_keeps_bullets.
  - intros. apply enemy_bullet_cb_commute.
Qed.

Lemma enemy_shot_at_commute e w :
  enemy_shot_at env canvas cl e (s w)
  = (fst (enemy_shot_at env canvas cl e w),
     s (snd (enemy_shot_at env canvas cl e w))).
Proof.
  unfold enemy_shot_at. cbv zeta.
  rewrite enemy_fire_commute. apply enemy_bullets_commute.
Qed.

Lemma shots_commute es w :
  js_map (enemy_shot_at env canvas cl) es (s w)
  = (fst (js_map (enemy_shot_at env canvas cl) es w),
     s (snd (js_map (enemy_shot_at env canvas cl) es w))).
Proof. apply js_map_commute. intros. apply enemy_shot_at_commute. Qed.

End IndepShot.

(** *** The enemy pass, unzipped *)

Lemma js_map_inv {A B : Type} (P : World -> Prop) (f : A -> World -> B * World) :
  (forall a w, P w -> P (snd (f a w))) ->
  forall arr w, P w -> P (snd (js_map f arr w)).
Proof.
  intros Hf arr. induction arr as [|a arr IH]; intros w Hw; simpl.
  - exact Hw.
  - specialize (Hf a w Hw). destruct (f a w) as [b w1]. simpl in Hf.
    specialize (IH w1 Hf). destruct (js_map f arr w1) as [res w2]. exact IH.
Qed.

Lemma shots_keep_player (env : Env) (canvas : Canvas) (cl : Closure.t)
    (es : list Enemy.t) (w : World) :
  player (snd (js_map (enemy_shot_at env canvas cl) es w)) = player w.
Proof.
  apply (js_map_inv (fun x => player x = player w)); [|reflexivity].
  intros e x Hx. unfold enemy_shot_at. cbv zeta.
  apply (enemy_bullets_fp (fun y => player y = player w)); try stable.
  apply (enemy_fire_fp (fun y => player y = player w)); try stable.
  exact Hx.
Qed.

(** The verdict of a contact depends on the player alone. *)
Lemma enemy_touch_verdict (canvas : Canvas) (cl : Closure.t) (now : Z)
    (eh : Enemy.t * bool) (w w' : World) :
  player w' = player w ->
  fst (enemy_touch canvas cl now eh w') = fst (enemy_touch canvas cl now eh w).
Proof.
  intros Hp. destruct eh as [e hit].
  unfold enemy_touch, enemy_contact, isInvincible, enemy_hits_player.
  rewrite Hp.
  match goal with
  | |- context [if ?c then (true, _) else _] => destruct c
  end; destruct (Qltb _ _); reflexivity.
Qed.

Lemma enemy_cb_split (env : Env) (canvas : Canvas) (cl : Closure.t) (now : Z)
    (e : Enemy.t) (w : World) :
  enemy_cb env canvas cl now e w
  = (let '(eh, w1) := enemy_shot_at env canvas cl (Enemy.update e) w in
     let '(eh', keep, w2) := enemy_touch canvas cl now eh w1 in
     (fst eh', keep, w2)).
Proof.
  unfold enemy_cb, enemy_shot_at, enemy_touch. cbv zeta.
  destruct (enemy_bullets env canvas cl (Enemy.update e)
              (enemy_fire env cl (Enemy.update e) w)) as [[e1 hit] w1].
  destruct (enemy_contact cl now e1 hit w1) as [hit' w2].
  destruct (Qltb _ _); reflexivity.
Qed.

Ltac touched_indep :=
  intros ? ?; unfold touched; rewrite enemy_touch_commute;
  [reflexivity | intros; reflexivity ..].

Lemma shots_touched (env : Env) (canvas : Canvas) (cl : Closure.t) (now : Z)
    (eh : Enemy.t * bool) (es : list Enemy.t) (w : World) :
  js_map (enemy_shot_at env canvas cl) es (touched canvas cl now eh w)
  = (fst (js_map (enemy_shot_at env canvas cl) es w),
     touched canvas cl now eh (snd (js_map (enemy_shot_at env canvas cl) es w))).
Proof.
  apply (shots_commute (touched canvas cl now eh)); touched_indep.
Qed.

Lemma enemies_unzip (env : Env) (canvas : Canvas) (cl : Closure.t) (now : Z)
    (es : list Enemy.t) (w : World) :
  js_filter (enemy_cb env canvas cl now) es w
  = (let '(marked, w1) :=
       js_map (enemy_shot_at env canvas cl) (map Enemy.update es) w in
     let '(kept, w2) := js_filter (enemy_touch canvas cl now) marked w1 in
     (map fst kept, w2)).
Proof.
  revert w. induction es as [|e es IH]; intros w; [reflexivity|].
  cbn [js_filter map js_map]. rewrite enemy_cb_split.
  destruct (enemy_shot_at env canvas cl (Enemy.update e) w) as [eh wA].
  pose proof (shots_touched env canvas cl now eh (map Enemy.update es) wA)
    as Hshots.
  pose proof (shots_keep_player env canvas cl (map Enemy.update es) wA)
    as Hplayer.
  destruct (js_map (enemy_shot_at env canvas cl) (map Enemy.update es) wA)
    as [marked wA'].
  cbn [fst snd] in Hshots, Hplayer. cbn [js_filter].
  pose proof (enemy_touch_verdict canvas cl now eh wA wA' Hplayer) as Hverdict.
  unfold touched in Hshots.
  destruct (enemy_touch canvas cl now eh wA) as [[eh1 keep1] wB].
  destruct (enemy_touch canvas cl now eh wA') as [[eh2 keep2] wB'].
  cbn [fst snd] in Hshots, Hverdict. injection Hverdict as -> ->.
  rewrite IH, Hshots.
  destruct (js_filter (enemy_touch canvas cl now) marked wB') as [kept wC].
  destruct keep1; reflexivity.
Qed.

(** *** Each pass is a motion step followed by a collision step *)

Lemma enemyBullets_pass_split (canvas : Canvas) (cl : Closure.t) (now : Z)
    (w : World) :
  enemyBullets_pass canvas cl now w
  = collide_enemyBullets canvas cl now (move_enemyBullets w).
Proof.
  unfold enemyBullets_pass, collide_enemyBullets, move_enemyBullets,
    filter_pass.
  change (enemyBullets (set_enemyBullets (map Bullet.update (enemyBullets w)) w))
    with (map Bullet.update (enemyBullets w)).
  rewrite (js_filter_commute (enemyBullet_collide canvas cl now)
             (set_enemyBullets (map Bullet.update (enemyBullets w)))).
  - rewrite <- js_filter_fuse.
    change (fun a x => enemyBullet_collide canvas cl now (Bullet.update a) x)
      with (enemyBullet_cb canvas cl now).
    now destruct (js_filter (enemyBullet_cb canvas cl now) (enemyBullets w) w).
  - intros b x. apply enemyBullet_collide_commute; intros; reflexivity.
Qed.

Lemma pickup_after_set_powerUps (env : Env) (v : list PowerUp.t)
    (p : PowerUp.t) (w : World) :
  pickup env p (set_powerUps v w) = set_powerUps v (pickup env p w).
Proof.
  unfold pickup, now_, unlock. cbv beta iota zeta.
  destruct (PowerUpType_eqb (PowerUp.type p) EXTRA_LIFE);
    cbn [powerUpsPicked set_powerUpsPicked set_powerUps set_achievements
         set_lives set_activePowerUps set_dateCalls];
    destruct (_ =? 10)%Z; reflexivity.
Qed.

Lemma powerUps_pass_split (env : Env) (canvas : Canvas) (w : World) :
  powerUps_pass env canvas w
  = collide_powerUps env canvas (move_powerUps w).
Proof.
  unfold powerUps_pass, collide_powerUps, move_powerUps, filter_pass.
  change (powerUps (set_powerUps (map PowerUp.update (powerUps w)) w))
    with (map PowerUp.update (powerUps w)).
  rewrite (js_filter_commute (powerUp_collide env canvas)
             (set_powerUps (map PowerUp.update (powerUps w)))).
  - rewrite <- js_filter_fuse.
    change (fun a x => powerUp_collide env canvas (PowerUp.update a) x)
      with (powerUp_cb env canvas).
    now destruct (js_filter (powerUp_cb env canvas) (powerUps w) w).
  - intros p x. unfold powerUp_collide, powerUp_hits_player.
    cbn [player set_powerUps].
    match goal with
    | |- context [if ?c then _ else _] => destruct c
    end; cbn [fst snd]; [|reflexivity].
    now rewrite pickup_after_set_powerUps.
Qed.

Lemma enemies_pass_split (env : Env) (canvas : Canvas) (cl : Closure.t)
    (now : Z) (w : World) :
  enemies_pass env canvas cl now w
  = collide_enemies env canvas cl now (move_enemies w).
Proof.
  unfold enemies_pass, collide_enemies, move_enemies, filter_pass.
  rewrite enemies_unzip.
  change (enemies (set_enemies (map Enemy.update (enemies w)) w))
    with (map Enemy.update (enemies w)).
  rewrite (shots_commute (set_enemies (map Enemy.update (enemies w))));
    try (intros; reflexivity).
  destruct (js_map (enemy_shot_at env canvas cl)
              (map Enemy.update (enemies w)) w) as [marked w1].
  cbn [fst snd].
  rewrite (collide_enemies_tail_commute
             (set_enemies (map Enemy.update (enemies w))));
    try (intros; reflexivity).
  now destruct (js_filter (enemy_touch canvas cl now) marked w1).
Qed.

(** The spawn roll and the motion of the enemies stay clear of the
    player's hit state and of the enemy bullets. *)
Ltac spawn_indep :=
  intros ? ?;
  unfold move_enemies, maybe_spawnEnemy, spawnEnemy, random;
  cbv beta iota zeta; simpl;
  match goal with
  | |- context [if ?c then _ else _] => destruct c
  end; reflexivity.

Lemma spawn_before_collide_enemyBullets (env : Env) (canvas : Canvas)
    (cl : Closure.t) (now : Z) (w : World) :
  move_enemies (maybe_spawnEnemy env canvas cl
                  (collide_enemyBullets canvas cl now w))
  = collide_enemyBullets canvas cl now
      (move_enemies (maybe_spawnEnemy env canvas cl w)).
Proof.
  symmetry.
  apply (collide_enemyBullets_commute
           (fun x => move_enemies (maybe_spawnEnemy env canvas cl x)));
    spawn_indep.
Qed.

Lemma entities_phased_eq (env : Env) (canvas : Canvas) (cl : Closure.t)
    (now : Z) (w : World) :
  entities env canvas cl now w = entities_phased env canvas cl now w.
Proof.
  unfold entities, entities_phased. cbv zeta.
  rewrite powerUps_pass_split, enemies_pass_split, enemyBullets_pass_split.
  now rewrite spawn_before_collide_enemyBullets.
Qed.

(** C4 (as amended): every frame is equal to the composition in stages
    [loop_phased]: first all motion of the player bullets, the enemy
    bullets and the enemies (the spawned one included); then the
    collisions in the order enemy bullet against player, player bullet
    against enemy (each enemy after its fire roll), enemy against player;
    then the motion of the power-ups, the pickups, and the motion of the
    particles; then the level check.  The motion of power-ups and
    particles cannot come before the collisions, which create them. *)
Theorem C4_loop_is_phased (env : Env) (canvas : Canvas) (cl : Closure.t)
    (w : World) :
  loop env canvas cl w = loop_phased env canvas cl w.
Proof.
  unfold loop, loop_phased, loop_from, now_. cbv beta iota zeta.
  now rewrite entities_phased_eq.
Qed.

(** C4 (as stated) fails: a power-up spawned by a kill is moved in the
    frame of the kill, after the collision that made it.  On
    [single_hit_world] with all draws at 0.1 the loop leaves the new
    power-up at [y = -28.5] and the new particles at life 0.98, where the
    composition with all motion first leaves them at [y = -30] and
    life 1. *)
Lemma C4_counterexample :
  let cl := closure_of single_hit_world in
  let w' := loop (const_env 0.1 0) canvas_400x600 cl single_hit_world in
  let w'' := loop_staged (const_env 0.1 0) canvas_400x600 cl single_hit_world in
  map PowerUp.y (powerUps w') = [-28.5]
  /\ map PowerUp.y (powerUps w'') = [-30]
  /\ w' <> w''.
Proof.
  cbv zeta. split; [vm_compute; reflexivity|].
  split; [vm_compute; reflexivity|].
  intros H. apply (f_equal (fun x => map PowerUp.y (powerUps x))) in H.
  vm_compute in H. discriminate H.
Qed.

(** * Further properties of the component *)

(** ** The bookkeeping of a kill *)

Lemma push_particles_if (env : Env) (n : nat) (x0 y0 : Q) (c : string)
    (k : Z) (id : string) (w : World) :
  (if (enemiesKilled (push_particles env n x0 y0 c w) =? k)%Z
   then unlock id (push_particles env n x0 y0 c w)
   else push_particles env n x0 y0 c w)
  = push_particles env n x0 y0 c
      (if (enemiesKilled w =? k)%Z then unlock id w else w).
Proof.
  symmetry.
  apply (push_particles_commute
           (fun x => if (enemiesKilled x =? k)%Z then unlock id x else x));
    intros v x; unfold unlock;
    cbn [enemiesKilled achievements set_particles set_randomCalls];
    destruct (enemiesKilled x =? k)%Z; reflexivity.
Qed.

(** The particles and the power-up roll can wait for the milestones. *)
Lemma kill_effects_kill_count (env : Env) (canvas : Canvas) (cl : Closure.t)
    (e : Enemy.t) (w : World) :
  kill_effects env canvas cl e w
  = spawnPowerUp env canvas cl
      (push_particles env 10 (Enemy.x e + Enemy.size e / 2)
         (Enemy.y e + Enemy.size e / 2) (Enemy.color e) (kill_count e w)).
Proof.
  unfold kill_effects, kill_count. cbv beta zeta.
  now rewrite !push_particles_if.
Qed.

Lemma kill_count_fp (P : World -> Prop) :
  (forall v w, P w -> P (set_enemiesKilled v w)) ->
  (forall v w, P w -> P (set_score v w)) ->
  (forall id w, P w -> P (unlock id w)) ->
  forall e w, P w -> P (kill_count e w).
Proof.
  intros Hk Hs Hu e w Hw. unfold kill_count. cbv beta zeta.
  assert (H1 : P (set_enemiesKilled (enemiesKilled (set_score (score w + Enemy.points e)%Z w) + 1)%Z
                    (set_score (score w + Enemy.points e)%Z w)))
    by (apply Hk, Hs, Hw).
  match goal with
  | |- P (if _ then _ else (if ?c then _ else ?x)) =>
      assert (H2 : P (if c then unlock "first_blood" x else x))
        by (destruct c; [apply Hu|]; exact H1)
  end.
  match goal with
  | |- P (if ?c then _ else _) => destruct c; [apply Hu|]; exact H2
  end.
Qed.

(** ** A rule for the invariants of a frame

    What a property of the world has to withstand to hold when the entity
    passes of a frame are over: the writes of the arrays and of the
    counter of draws, a hit on a player who is not invincible, a spawn
    under the gate, the bookkeeping of a kill, a pickup.
    [K] is what is known of the enemies. *)

Lemma js_filter_rule {A : Type} (P : World -> Prop) (K K' : A -> Prop)
    (cb : A -> World -> A * bool * World) :
  (forall a w, K a -> P w -> P (snd (cb a w))) ->
  (forall a w, K a -> P w -> snd (fst (cb a w)) = true ->
               K' (fst (fst (cb a w)))) ->
  forall arr w, Forall K arr -> P w ->
    P (snd (js_filter cb arr w)) /\ Forall K' (fst (js_filter cb arr w)).
Proof.
  intros Hcb HK arr. induction arr as [|a arr IH]; intros w Harr Hw; simpl.
  - split; [exact Hw | constructor].
  - inversion Harr as [|? ? Ha Harr']; subst.
    specialize (Hcb a w Ha Hw). specialize (HK a w Ha Hw).
    destruct (cb a w) as [[a' keep] w1]. cbn [fst snd] in Hcb, HK.
    destruct (IH w1 Harr' Hcb) as [IH1 IH2].
    destruct (js_filter cb arr w1) as [res w2]. cbn [fst snd] in *.
    split; [exact IH1|]. destruct keep; auto.
Qed.

Lemma js_forEach_rule {A S : Type} (P : S -> Prop) (get : S -> list A)
    (cb : A -> nat -> S -> S) :
  (forall a k s, nth_error (get s) k = Some a -> P s -> P (cb a k s)) ->
  forall len k s, P s -> P (js_forEach get cb len k s).
Proof.
  intros Hcb len. induction len as [|len IH]; intros k s Hs; simpl.
  - exact Hs.
  - destruct (nth_error (get s) k) eqn:E; auto.
Qed.

Section EntitiesRule.

Local Unset Default Proof Using.

Variable env : Env.
Variable canvas : Canvas.
Variable cl : Closure.t.
Variable now : Z.
Variable P : World -> Prop.
Variable K : Enemy.t -> Prop.

Hypothesis S_bullets : forall v w, P w -> P (set_bullets v w).
Hypothesis S_enemyBullets : forall v w, P w -> P (set_enemyBullets v w).
Hypothesis S_enemies : forall v w, P w -> P (set_enemies v w).
Hypothesis S_powerUps : forall v w, P w -> P (set_powerUps v w).
Hypothesis S_particles : forall v w, P w -> P (set_particles v w).
Hypothesis S_lastShot : forall v w, P w -> P (set_lastShot v w).
Hypothesis S_randomCalls : forall v w, P w -> P (set_randomCalls v w).

Hypothesis H_hit :
  forall w, P w -> isInvincible now w = false -> P (player_hit cl now w).
Hypothesis H_spawned :
  forall w, P w ->
    (enemiesSpawnedInLevel w < ENEMIES_PER_LEVEL * Closure.level cl)%Z ->
    P (set_enemiesSpawnedInLevel (enemiesSpawnedInLevel w + 1)%Z w).
Hypothesis H_kill : forall e w, K e -> P w -> P (kill_count e w).
Hypothesis H_pickup : forall p w, P w -> P (pickup env p w).

Hypothesis K_update : forall e, K e -> K (Enemy.update e).
Hypothesis K_hurt :
  forall e, K e -> K (Enemy.set_health (Enemy.health e - 1)%Z e).
Hypothesis K_new : forall r W type, K (Enemy.new r W type).

Lemma rule_enemyBullet_cb b w :
  P w -> P (snd (enemyBullet_cb canvas cl now b w)).
Proof.
  intros Hw. unfold enemyBullet_cb. cbv zeta.
  destruct (isInvincible now w) eqn:E; cbn [negb andb]; [exact Hw|].
  destruct (bullet_hits_player _ w); cbn [snd]; [|exact Hw].
  now apply H_hit.
Qed.

Lemma rule_spawnEnemy w :
  P w ->
  (enemiesSpawnedInLevel w < ENEMIES_PER_LEVEL * Closure.level cl)%Z ->
  P (spawnEnemy env canvas cl w).
Proof.
  intros Hw Hgate. unfold spawnEnemy, random. cbv beta iota zeta.
  apply H_spawned; [|exact Hgate].
  apply S_enemies, S_randomCalls, S_randomCalls, Hw.
Qed.

Lemma rule_maybe_spawnEnemy w : P w -> P (maybe_spawnEnemy env canvas cl w).
Proof.
  intros Hw. unfold maybe_spawnEnemy, random. cbv beta iota zeta.
  destruct (Qltb _ _); cbn [andb]; [|now apply S_randomCalls].
  match goal with
  | |- context [(?a <? ?b)%Z] => destruct (Z.ltb_spec a b) as [Hlt|Hge]
  end; [|now apply S_randomCalls].
  apply rule_spawnEnemy; [now apply S_randomCalls | exact Hlt].
Qed.

Lemma rule_maybe_spawnEnemy_enemies w :
  Forall K (enemies w) ->
  Forall K (enemies (maybe_spawnEnemy env canvas cl w)).
Proof.
  intros Hw. unfold maybe_spawnEnemy, spawnEnemy, random.
  cbv beta iota zeta.
  destruct (_ && _); [|exact Hw].
  cbn [enemies set_enemiesSpawnedInLevel set_enemies set_randomCalls].
  apply List.Forall_app. split; [exact Hw|]. constructor; [apply K_new|constructor].
Qed.

Lemma rule_kill_effects e w :
  K e -> P w -> P (kill_effects env canvas cl e w).
Proof.
  intros He Hw. rewrite kill_effects_kill_count.
  apply (spawnPowerUp_fp P); try assumption.
  apply (push_particles_fp P); try assumption.
  now apply H_kill.
Qed.

Lemma rule_enemy_bullets e w :
  K e -> P w ->
  K (fst (fst (enemy_bullets env canvas cl e w)))
  /\ P (snd (enemy_bullets env canvas cl e w)).
Proof.
  intros He Hw. unfold enemy_bullets.
  apply (js_forEach_rule (fun s => K (fst (fst s)) /\ P (snd s)));
    [|split; assumption].
  intros b k [[e1 hit] w1] _ [He1 Hw1]. cbn [fst snd] in He1, Hw1.
  unfold enemy_bullet_cb.
  destruct (bullet_hits_enemy b e1); [|split; assumption]. cbv zeta.
  destruct (Enemy.health _ <=? 0)%Z; cbn [fst snd].
  - split; [now apply K_hurt|].
    apply rule_kill_effects; [now apply K_hurt | now apply S_bullets].
  - split; [now apply K_hurt | now apply S_bullets].
Qed.

Lemma rule_enemy_contact e hit w :
  P w -> P (snd (enemy_contact cl now e hit w)).
Proof.
  intros Hw. unfold enemy_contact.
  destruct (isInvincible now w) eqn:E; cbn [negb andb]; [exact Hw|].
  destruct (enemy_hits_player e w); cbn [snd]; [|exact Hw].
  now apply H_hit.
Qed.

Lemma rule_enemy_cb e w :
  K e -> P w ->
  P (snd (enemy_cb env canvas cl now e w))
  /\ K (fst (fst (enemy_cb env canvas cl now e w))).
Proof.
  intros He Hw. unfold enemy_cb. cbv zeta.
  assert (H0 : P (enemy_fire env cl (Enemy.update e) w))
    by (apply (enemy_fire_fp P); assumption).
  destruct (rule_enemy_bullets (Enemy.update e) _ (K_update e He) H0)
    as [He1 Hw1].
  destruct (enemy_bullets env canvas cl (Enemy.update e)
              (enemy_fire env cl (Enemy.update e) w)) as [[e1 hit] w1].
  cbn [fst snd] in He1, Hw1.
  pose proof (rule_enemy_contact e1 hit w1 Hw1) as Hw2.
  destruct (enemy_contact cl now e1 hit w1) as [hit2 w2]. cbn [snd] in Hw2.
  destruct (Qltb _ _); cbn [fst snd]; split; assumption.
Qed.

Lemma rule_enemies_pass w :
  Forall K (enemies w) -> P w ->
  P (enemies_pass env canvas cl now w)
  /\ Forall K (enemies (enemies_pass env canvas cl now w)).
Proof.
  intros HK Hw. unfold enemies_pass, filter_pass.
  destruct (js_filter_rule P K K (enemy_cb env canvas cl now)) with
    (arr := enemies w) (w := w) as [H1 H2]; try assumption.
  - intros e x He Hx. now apply rule_enemy_cb.
  - intros e x He Hx _. now apply rule_enemy_cb.
  - destruct (js_filter (enemy_cb env canvas cl now) (enemies w) w)
      as [res w1].
    cbn [fst snd] in *. split; [now apply S_enemies | exact H2].
Qed.

Lemma rule_powerUps_pass w : P w -> P (powerUps_pass env canvas w).
Proof.
  apply filter_pass_inv; [exact S_powerUps|].
  intros p x Hx. unfold powerUp_cb. cbv zeta.
  destruct (powerUp_hits_player _ x); cbn [snd]; [|exact Hx].
  now apply H_pickup.
Qed.

Lemma rule_entities w :
  Forall K (enemies w) -> P w ->
  P (entities env canvas cl now w)
  /\ Forall K (enemies (entities env canvas cl now w)).
Proof.
  intros HK Hw. unfold entities. cbv zeta.
  set (w1 := bullets_pass canvas (shoot cl now w)).
  assert (P1 : P w1).
  { unfold w1. apply (bullets_pass_fp P); [assumption|].
    apply (shoot_fp P); assumption. }
  assert (K1 : Forall K (enemies w1)).
  { unfold w1.
    apply (bullets_pass_fp (fun x => Forall K (enemies x))); [stable|].
    apply (shoot_fp (fun x => Forall K (enemies x))); try stable.
    exact HK. }
  set (w2 := enemyBullets_pass canvas cl now w1).
  assert (P2 : P w2).
  { unfold w2, enemyBullets_pass.
    apply filter_pass_inv; [exact S_enemyBullets| |exact P1].
    intros b x Hx. now apply rule_enemyBullet_cb. }
  assert (K2 : Forall K (enemies w2)).
  { unfold w2.
    apply (enemyBullets_pass_fp (fun x => Forall K (enemies x)));
      try stable. exact K1. }
  destruct (rule_enemies_pass (maybe_spawnEnemy env canvas cl w2))
    as [P3 K3];
    [now apply rule_maybe_spawnEnemy_enemies
    | now apply rule_maybe_spawnEnemy |].
  split.
  - apply (particles_pass_fp P); [assumption|].
    now apply rule_powerUps_pass.
  - apply (particles_pass_fp (fun x => Forall K (enemies x))); [stable|].
    apply (powerUps_pass_fp (fun x => Forall K (enemies x))); try stable.
    exact K3.
Qed.

End EntitiesRule.

(** Closes the side conditions of the rule for a property that the write
    at hand does not concern. *)
Ltac unconcerned :=
  try stable; try (intros ? ? ? ?; assumption); try (intros; exact I).

(** ** Lives lost in a frame *)

Lemma one_hit_pickup (env : Env) (now : Z) (w0 : World) (p : PowerUp.t)
    (w : World) :
  one_hit now w0 w -> one_hit now w0 (pickup env p w).
Proof.
  unfold one_hit, isInvincible, pickup, now_, unlock. cbv beta iota zeta.
  destruct (PowerUpType_eqb (PowerUp.type p) EXTRA_LIFE);
    match goal with
    | |- context [if ?c then _ else _] => destruct c
    end; cbn [lives gameState player set_lives set_achievements
              set_powerUpsPicked set_activePowerUps set_dateCalls];
    intros H; try exact H;
    (destruct H as [[Hl Hg]|(Hl & Hi & Hg)];
     [left; split; [lia|exact Hg]
     |right; split; [lia|split; [exact Hi|exact Hg]]]).
Qed.

Lemma one_hit_player_hit (cl : Closure.t) (now : Z) (w0 w : World) :
  one_hit now w0 w -> isInvincible now w = false ->
  one_hit now w0 (player_hit cl now w).
Proof.
  intros H Hinv.
  destruct H as [[Hl Hg]|(_ & Hi & _)]; [|congruence].
  unfold player_hit. destruct (has_active cl SHIELD now).
  - left. split; assumption.
  - right. unfold setLives_hit, set_invincibility, isInvincible.
    destruct (Z.leb_spec (lives w) 1);
      cbn [lives gameState player set_lives set_gameState set_player
           Player.invincibility];
      (split; [lia|]); (split; [apply Z.ltb_lt; unfold INVINCIBILITY_DURATION; lia|]).
    + right. split; [lia|reflexivity].
    + left. exact Hg.
Qed.

Lemma one_hit_after (cl : Closure.t) (now : Z) (w0 w : World) :
  one_hit now w0 w ->
  one_hit now w0 (check_survivor now (check_level_up cl w)).
Proof.
  intros H. unfold check_survivor.
  assert (H' : one_hit now w0 (check_level_up cl w)).
  { unfold check_level_up. destruct (level_complete cl w); [|exact H].
    unfold setLevel_next, unlock. cbv zeta.
    unfold one_hit, isInvincible in *.
    destruct (level w + 1 =? 15)%Z, (level w + 1 =? 5)%Z;
      cbn [lives gameState player set_lives set_achievements set_level
           set_enemiesSpawnedInLevel];
      try exact H;
      (destruct H as [[Hl Hg]|(Hl & Hi & Hg)];
       [left; split; [lia|exact Hg]
       |right; split; [lia|split; [exact Hi|exact Hg]]]). }
  destruct (60000 <? now - startTime (check_level_up cl w))%Z; exact H'.
Qed.

(** X1: a frame takes at most one life, whatever the number of bullets and
    enemies that reach the player, since the first hit makes the player
    invincible; it ends the game only if it started with at most one
    life, and leaves it running otherwise. *)
Theorem frame_takes_one_life (env : Env) (canvas : Canvas) (w : World) :
  gameState w = PLAYING ->
  let w' := frame env canvas w in
  (lives w - 1 <= lives w')%Z
  /\ (gameState w' = PLAYING
      \/ ((lives w <= 1)%Z /\ gameState w' = GAME_OVER)).
Proof.
  intros Hplay. cbv zeta. unfold frame. rewrite Hplay.
  unfold loop, now_, loop_from. cbv beta iota zeta.
  set (now := Date_now env (dateCalls (handle_input canvas w))).
  set (w1 := set_dateCalls (S (dateCalls (handle_input canvas w)))
               (handle_input canvas w)).
  assert (H1 : one_hit now w w1).
  { left. split; [apply Z.le_refl | reflexivity]. }
  assert (H2 : one_hit now w (entities env canvas (closure_of w) now w1)).
  { apply (rule_entities env canvas (closure_of w) now (one_hit now w)
             (fun _ => True)); unconcerned.
    - intros x Hx Hinv. now apply one_hit_player_hit.
    - intros e x _ Hx. apply (kill_count_fp (one_hit now w)); unconcerned.
      exact Hx.
    - intros p x Hx. now apply one_hit_pickup.
    - apply List.Forall_forall. intros; exact I.
    - exact H1. }
  apply (one_hit_after (closure_of w) now) in H2.
  rewrite <- Hplay.
  destruct H2 as [[Hl Hg]|(Hl & _ & Hg)].
  - split; [lia | left; exact Hg].
  - split; [exact Hl | exact Hg].
Qed.

Lemma no_hit_pickup (env : Env) (w0 : World) (p : PowerUp.t) (w : World) :
  no_hit w0 w -> no_hit w0 (pickup env p w).
Proof.
  unfold no_hit, pickup, now_, unlock. cbv beta iota zeta.
  destruct (PowerUpType_eqb (PowerUp.type p) EXTRA_LIFE);
    match goal with
    | |- context [if ?c then _ else _] => destruct c
    end; cbn [lives gameState set_lives set_achievements
              set_powerUpsPicked set_activePowerUps set_dateCalls];
    intros [Hl Hg]; split; try lia; exact Hg.
Qed.

Lemma no_hit_after (cl : Closure.t) (now : Z) (w0 w : World) :
  no_hit w0 w -> no_hit w0 (check_survivor now (check_level_up cl w)).
Proof.
  intros H. unfold check_survivor.
  assert (H' : no_hit w0 (check_level_up cl w)).
  { unfold check_level_up. destruct (level_complete cl w); [|exact H].
    unfold setLevel_next, unlock, no_hit in *. cbv zeta.
    destruct H as [Hl Hg].
    destruct (level w + 1 =? 15)%Z, (level w + 1 =? 5)%Z;
      cbn [lives gameState set_lives set_achievements set_level
           set_enemiesSpawnedInLevel]; split; try lia; exact Hg. }
  destruct (60000 <? now - startTime (check_level_up cl w))%Z; exact H'.
Qed.

(** X2: in a frame that starts with a live shield among the captured
    power-ups, no life is lost and the game goes on, however many enemy
    bullets and enemies reach the player: the shield test reads the
    captured list, which the removal of the entry does not change before
    the next render. *)
Theorem frame_shield_absorbs_all (env : Env) (canvas : Canvas) (w : World) :
  gameState w = PLAYING ->
  (exists p, In p (activePowerUps w)
             /\ ActivePowerUp.type p = SHIELD
             /\ (Date_now env (dateCalls w) < ActivePowerUp.endTime p)%Z) ->
  let w' := frame env canvas w in
  (lives w <= lives w')%Z /\ gameState w' = PLAYING.
Proof.
  intros Hplay Hshield. cbv zeta. unfold frame. rewrite Hplay.
  unfold loop, now_, loop_from. cbv beta iota zeta.
  set (now := Date_now env (dateCalls (handle_input canvas w))).
  set (w1 := set_dateCalls (S (dateCalls (handle_input canvas w)))
               (handle_input canvas w)).
  assert (Hs : has_active (closure_of w) SHIELD now = true)
    by (apply has_active_exists; exact Hshield).
  assert (H2 : no_hit w (entities env canvas (closure_of w) now w1)).
  { apply (rule_entities env canvas (closure_of w) now (no_hit w)
             (fun _ => True)); unconcerned.
    - intros x Hx _. unfold player_hit. rewrite Hs. exact Hx.
    - intros e x _ Hx. apply (kill_count_fp (no_hit w)); unconcerned.
      exact Hx.
    - intros p x Hx. now apply no_hit_pickup.
    - apply List.Forall_forall. intros; exact I.
    - split; [apply Z.le_refl | reflexivity]. }
  apply (no_hit_after (closure_of w) now) in H2.
  destruct H2 as [Hl Hg]. split; [exact Hl | now rewrite Hg].
Qed.

(** ** The invariants of a run *)

Lemma powerUps_ok_without (t : PowerUpType) (l : list ActivePowerUp.t) :
  powerUps_ok l -> powerUps_ok (without t l).
Proof.
  intros [H1 H2]. split.
  - intros u. destruct (PowerUpType_eqb t u) eqn:E.
    + apply PowerUpType_eqb_eq in E. subst u.
      rewrite entries_of_without. simpl. lia.
    + apply PowerUpType_eqb_neq in E.
      rewrite entries_of_without_other by exact E. apply H1.
  - destruct (PowerUpType_eqb t EXTRA_LIFE) eqn:E.
    + apply PowerUpType_eqb_eq in E. subst t. apply entries_of_without.
    + apply PowerUpType_eqb_neq in E.
      now rewrite entries_of_without_other by exact E.
Qed.

Lemma powerUps_ok_upsert (t : PowerUpType) (endTime : Z)
    (l : list ActivePowerUp.t) :
  t <> EXTRA_LIFE -> powerUps_ok l -> powerUps_ok (upsert t endTime l).
Proof.
  intros Ht [H1 H2]. split.
  - intros u. destruct (PowerUpType_eqb t u) eqn:E.
    + apply PowerUpType_eqb_eq in E. subst u.
      rewrite entries_of_upsert. simpl. lia.
    + apply PowerUpType_eqb_neq in E.
      rewrite entries_of_upsert_other by exact E. apply H1.
  - now rewrite entries_of_upsert_other by exact Ht.
Qed.

Lemma milestones_ok_unlock (id : string) (w : World) :
  milestones_ok w -> milestones_ok (unlock id w).
Proof.
  unfold milestones_ok, unlock.
  cbn [achievements enemiesKilled powerUpsPicked level set_achievements].
  intros (Hids & H1 & H2 & H3 & H4).
  rewrite unlockAchievement_ids.
  repeat split; auto using is_unlocked_unlock.
Qed.

Lemma milestones_ok_in (id : string) (w : World) :
  milestones_ok w ->
  In id (map Achievement.id INITIAL_ACHIEVEMENTS) ->
  In id (map Achievement.id (achievements w)).
Proof. intros (Hids & _) Hin. now rewrite Hids. Qed.

Lemma Enemy_made_points (e : Enemy.t) :
  Enemy_made e -> (100 <= Enemy.points e)%Z /\ (50 | Enemy.points e)%Z.
Proof.
  intros (_ & _ & Hp & _). rewrite Hp.
  destruct (Enemy.type e); simpl; split; try lia.
  - exists 2%Z. reflexivity.
  - exists 3%Z. reflexivity.
  - exists 6%Z. reflexivity.
Qed.

Lemma sound_in_frame_player_hit (cl : Closure.t) (now lvl : Z) (w : World) :
  sound_in_frame lvl w -> sound_in_frame lvl (player_hit cl now w).
Proof.
  intros (Hc & Hm & Hp & Hl). unfold player_hit.
  destruct (has_active cl SHIELD now).
  - repeat split; try assumption; try apply Hc; try apply Hm.
    + now apply powerUps_ok_without.
    + apply (powerUps_ok_without SHIELD). exact Hp.
  - unfold setLives_hit, set_invincibility.
    destruct Hc as (H0 & Hrest).
    destruct (Z.leb_spec (lives w) 1);
      (split; [split; [cbn [lives set_player set_lives set_gameState]; lia
                      |exact Hrest]
              |split; [exact Hm|split; [exact Hp|exact Hl]]]).
Qed.

Lemma sound_in_frame_spawned (lvl : Z) (w : World) :
  sound_in_frame lvl w ->
  (enemiesSpawnedInLevel w < ENEMIES_PER_LEVEL * lvl)%Z ->
  sound_in_frame lvl
    (set_enemiesSpawnedInLevel (enemiesSpawnedInLevel w + 1)%Z w).
Proof.
  intros (Hc & Hm & Hp & Hl) Hgate.
  destruct Hc as (H0 & H1 & H2 & H3).
  split; [|split; [exact Hm|split; [exact Hp|exact Hl]]].
  split; [exact H0|]. split; [exact H1|]. split; [|exact H3].
  cbn [enemiesSpawnedInLevel level set_enemiesSpawnedInLevel].
  rewrite Hl. lia.
Qed.

Lemma sound_in_frame_unlock (lvl : Z) (id : string) (w : World) :
  sound_in_frame lvl w -> sound_in_frame lvl (unlock id w).
Proof.
  intros (Hc & Hm & Hp & Hl).
  split; [exact Hc|]. split; [now apply milestones_ok_unlock|].
  split; [exact Hp|exact Hl].
Qed.

(** An unlock that the counter [k] triggers on reaching [n] is not missed
    when the counter goes up by one. *)
Lemma unlock_on_reaching (id : string) (n k : Z) (l : list Achievement.t) :
  In id (map Achievement.id l) ->
  ((n <= k)%Z -> is_unlocked id l = true) ->
  (n <= k + 1)%Z ->
  is_unlocked id (if (k + 1 =? n)%Z then unlockAchievement id l else l) = true.
Proof.
  intros Hin Hold Hn. destruct (Z.eqb_spec (k + 1) n) as [E|E].
  - now apply unlock_is_unlocked.
  - apply Hold. lia.
Qed.

Lemma is_unlocked_unlock_if (c : bool) (id id' : string)
    (l : list Achievement.t) :
  is_unlocked id l = true ->
  is_unlocked id (if c then unlockAchievement id' l else l) = true.
Proof. destruct c; [apply is_unlocked_unlock | trivial]. Qed.

Lemma ids_unlock_if (c : bool) (id : string) (l : list Achievement.t) :
  map Achievement.id (if c then unlockAchievement id l else l)
  = map Achievement.id l.
Proof. destruct c; [apply unlockAchievement_ids | reflexivity]. Qed.

Lemma achievements_unlock_if (c : bool) (id : string) (w : World) :
  achievements (if c then unlock id w else w)
  = if c then unlockAchievement id (achievements w) else achievements w.
Proof. now destruct c. Qed.

Lemma kill_count_achievements (e : Enemy.t) (w : World) :
  achievements (kill_count e w)
  = let k := enemiesKilled w in
    let l := if (k + 1 =? 1)%Z
             then unlockAchievement "first_blood" (achievements w)
             else achievements w in
    if (k + 1 =? 50)%Z then unlockAchievement "ace_pilot" l else l.
Proof.
  unfold kill_count, unlock. cbv zeta.
  cbn [enemiesKilled set_enemiesKilled set_score achievements].
  destruct (enemiesKilled w + 1 =? 1)%Z;
    cbn [enemiesKilled set_enemiesKilled set_score set_achievements];
    destruct (enemiesKilled w + 1 =? 50)%Z; reflexivity.
Qed.

Lemma kill_count_counters (e : Enemy.t) (w : World) :
  lives (kill_count e w) = lives w
  /\ level (kill_count e w) = level w
  /\ enemiesSpawnedInLevel (kill_count e w) = enemiesSpawnedInLevel w
  /\ enemiesKilled (kill_count e w) = (enemiesKilled w + 1)%Z
  /\ powerUpsPicked (kill_count e w) = powerUpsPicked w
  /\ score (kill_count e w) = (score w + Enemy.points e)%Z
  /\ activePowerUps (kill_count e w) = activePowerUps w.
Proof.
  unfold kill_count, unlock. cbv zeta.
  cbn [enemiesKilled set_enemiesKilled set_score].
  destruct (enemiesKilled w + 1 =? 1)%Z;
    cbn [enemiesKilled set_enemiesKilled set_score set_achievements];
    destruct (enemiesKilled w + 1 =? 50)%Z; repeat split; reflexivity.
Qed.

Lemma sound_in_frame_kill_count (lvl : Z) (e : Enemy.t) (w : World) :
  Enemy_made e -> sound_in_frame lvl w -> sound_in_frame lvl (kill_count e w).
Proof.
  intros He (Hc & Hm & Hp & Hl).
  destruct (Enemy_made_points e He) as [Hp1 Hp2].
  destruct (kill_count_counters e w) as (E1 & E2 & E3 & E4 & E5 & E6 & E7).
  destruct Hc as (C1 & C2 & C3 & C4 & C5 & C6 & C7).
  destruct Hm as (M0 & M1 & M2 & M3 & M4).
  split; [|split; [|split]].
  - unfold counters_ok. rewrite E1, E2, E3, E4, E5, E6.
    repeat split; try lia. now apply Z.divide_add_r.
  - unfold milestones_ok. rewrite E2, E4, E5, kill_count_achievements.
    cbv zeta. rewrite !ids_unlock_if.
    split; [exact M0|]. split; [|split; [|split]].
    + intros H. apply is_unlocked_unlock_if.
      apply unlock_on_reaching; try assumption.
      rewrite M0. simpl. auto.
    + intros H. apply unlock_on_reaching; try assumption.
      * rewrite ids_unlock_if, M0. simpl. auto.
      * intros H'. apply is_unlocked_unlock_if. now apply M2.
    + intros H. apply is_unlocked_unlock_if, is_unlocked_unlock_if.
      now apply M3.
    + intros H. apply is_unlocked_unlock_if, is_unlocked_unlock_if.
      now apply M4.
  - now rewrite E7.
  - now rewrite E2.
Qed.

Lemma sound_in_frame_picked (lvl : Z) (w : World) :
  sound_in_frame lvl w ->
  let w1 := set_powerUpsPicked (powerUpsPicked w + 1)%Z w in
  sound_in_frame lvl
    (if (powerUpsPicked w1 =? 10)%Z then unlock "power_up_junkie" w1 else w1).
Proof.
  intros (Hc & Hm & Hp & Hl). cbv zeta.
  destruct Hc as (C1 & C2 & C3 & C4 & C5 & C6 & C7).
  destruct Hm as (M0 & M1 & M2 & M3 & M4).
  assert (Hj : is_unlocked "power_up_junkie"
                 (if (powerUpsPicked w + 1 =? 10)%Z
                  then unlockAchievement "power_up_junkie" (achievements w)
                  else achievements w) = true
               \/ ~ (10 <= powerUpsPicked w + 1)%Z).
  { destruct (Z.le_gt_cases 10 (powerUpsPicked w + 1)) as [H|H]; [left|right; lia].
    apply unlock_on_reaching; try assumption. rewrite M0. simpl. auto. }
  cbn [powerUpsPicked set_powerUpsPicked].
  destruct (powerUpsPicked w + 1 =? 10)%Z.
  - split; [|split; [|split]]; try assumption.
    + repeat split; cbn [unlock lives level enemiesSpawnedInLevel
        enemiesKilled powerUpsPicked score set_achievements
        set_powerUpsPicked]; try lia; assumption.
    + unfold milestones_ok, unlock.
      cbn [achievements level enemiesKilled powerUpsPicked set_achievements
           set_powerUpsPicked].
      rewrite unlockAchievement_ids.
      split; [exact M0|].
      split; [intros H; now apply is_unlocked_unlock, M1|].
      split; [intros H; now apply is_unlocked_unlock, M2|].
      split; [intros H; destruct Hj as [Hj|Hj]; [exact Hj|contradiction]|].
      intros H; now apply is_unlocked_unlock, M4.
  - split; [|split; [|split]]; try assumption.
    + repeat split; cbn [lives level enemiesSpawnedInLevel
        enemiesKilled powerUpsPicked score set_powerUpsPicked];
        try lia; assumption.
    + unfold milestones_ok.
      cbn [achievements level enemiesKilled powerUpsPicked set_powerUpsPicked].
      split; [exact M0|]. split; [exact M1|]. split; [exact M2|].
      split; [|exact M4].
      intros H. destruct Hj as [Hj|Hj]; [exact Hj|contradiction].
Qed.

Lemma sound_in_frame_pickup (env : Env) (lvl : Z) (p : PowerUp.t)
    (w : World) :
  sound_in_frame lvl w -> sound_in_frame lvl (pickup env p w).
Proof.
  intros Hw. unfold pickup. cbv zeta.
  apply (sound_in_frame_picked lvl).
  destruct (PowerUpType_eqb (PowerUp.type p) EXTRA_LIFE) eqn:E.
  - apply sound_in_frame_unlock.
    destruct Hw as (Hc & Hm & Hp & Hl).
    destruct Hc as (C1 & C2 & C3 & C4 & C5 & C6 & C7).
    split; [|split; [|split]]; try assumption.
    repeat split; cbn [lives level enemiesSpawnedInLevel enemiesKilled
      powerUpsPicked score set_lives]; try lia; assumption.
  - apply PowerUpType_eqb_neq in E.
    destruct Hw as (Hc & Hm & Hp & Hl). unfold now_. cbv beta iota zeta.
    split; [exact Hc|]. split; [exact Hm|]. split; [|exact Hl].
    cbn [activePowerUps set_activePowerUps set_dateCalls].
    now apply powerUps_ok_upsert.
Qed.

Lemma sound_in_frame_level_up (w : World) :
  sound_in_frame (level w) w ->
  sound_in_frame (level w + 1)
    (set_enemiesSpawnedInLevel 0 (setLevel_next w)).
Proof.
  intros (Hc & Hm & Hp & _).
  destruct Hc as (C1 & C2 & C3 & C4 & C5 & C6 & C7).
  destruct Hm as (M0 & M1 & M2 & M3 & M4).
  assert (Hu : (5 <= level w + 1)%Z ->
               is_unlocked "unstoppable"
                 (if (level w + 1 =? 5)%Z
                  then unlockAchievement "unstoppable" (achievements w)
                  else achievements w) = true).
  { intros H. apply unlock_on_reaching; try assumption.
    rewrite M0. simpl. auto 10. }
  unfold setLevel_next, unlock. cbv zeta.
  destruct (level w + 1 =? 15)%Z, (level w + 1 =? 5)%Z;
    (split; [|split; [|split]];
     [ repeat split; cbn [lives level enemiesSpawnedInLevel enemiesKilled
         powerUpsPicked score set_lives set_level set_achievements
         set_enemiesSpawnedInLevel]; try lia; try assumption;
       unfold ENEMIES_PER_LEVEL; lia
     | unfold milestones_ok;
       cbn [achievements level enemiesKilled powerUpsPicked set_lives
            set_level set_achievements set_enemiesSpawnedInLevel];
       rewrite ?unlockAchievement_ids;
       split; [exact M0|];
       split; [intros H; try apply is_unlocked_unlock; now apply M1|];
       split; [intros H; try apply is_unlocked_unlock; now apply M2|];
       split; [intros H; try apply is_unlocked_unlock; now apply M3|];
       exact Hu
     | exact Hp
     | reflexivity ]).
Qed.

Lemma Enemy_made_update (e : Enemy.t) :
  Enemy_made e -> Enemy_made (Enemy.update e).
Proof. intros H. exact H. Qed.

Lemma Enemy_made_hurt (e : Enemy.t) :
  Enemy_made e -> Enemy_made (Enemy.set_health (Enemy.health e - 1)%Z e).
Proof.
  intros (H1 & H2 & H3 & H4 & H5 & H6).
  repeat split; try assumption. cbn [Enemy.health Enemy.type Enemy.set_health].
  lia.
Qed.

Lemma Enemy_made_new (r W : Q) (type : EnemyType) :
  Enemy_made (Enemy.new r W type).
Proof. repeat split. cbn. lia. Qed.

Lemma Enemy_alive_new (r W : Q) (type : EnemyType) :
  Enemy_alive (Enemy.new r W type).
Proof. split; [apply Enemy_made_new|]. destruct type; cbn; lia. Qed.

(** An enemy that the bullets leave unmarked has health left. *)
Lemma enemy_bullets_health (env : Env) (canvas : Canvas) (cl : Closure.t)
    (e : Enemy.t) (w : World) :
  (1 <= Enemy.health e)%Z ->
  snd (fst (enemy_bullets env canvas cl e w)) = false ->
  (1 <= Enemy.health (fst (fst (enemy_bullets env canvas cl e w))))%Z.
Proof.
  intros He. unfold enemy_bullets.
  apply (js_forEach_rule
           (fun s : EnemyIter =>
              snd (fst s) = false -> (1 <= Enemy.health (fst (fst s)))%Z));
    [|intros _; exact He].
  intros b k [[e1 hit] w1] _ H1. cbn [fst snd] in H1.
  unfold enemy_bullet_cb.
  destruct (bullet_hits_enemy b e1); [|exact H1]. cbv zeta.
  match goal with
  | |- context [(?a <=? 0)%Z] => destruct (Z.leb_spec a 0) as [Hle|Hgt]
  end; cbn [fst snd].
  - discriminate.
  - intros _. cbn [Enemy.health Enemy.set_health] in *. lia.
Qed.

Lemma enemy_cb_health (env : Env) (canvas : Canvas) (cl : Closure.t)
    (now : Z) (e : Enemy.t) (w : World) :
  (1 <= Enemy.health e)%Z ->
  snd (fst (enemy_cb env canvas cl now e w)) = true ->
  (1 <= Enemy.health (fst (fst (enemy_cb env canvas cl now e w))))%Z.
Proof.
  intros He. unfold enemy_cb. cbv zeta.
  pose proof (enemy_bullets_health env canvas cl (Enemy.update e)
                (enemy_fire env cl (Enemy.update e) w) He) as H.
  destruct (enemy_bullets env canvas cl (Enemy.update e)
              (enemy_fire env cl (Enemy.update e) w)) as [[e1 hit] w1].
  cbn [fst snd] in H. unfold enemy_contact.
  destruct (negb (isInvincible now w1) && enemy_hits_player e1 w1);
    destruct (Qltb _ _); cbn [fst snd negb]; try discriminate.
  intros Hk. apply H. now destruct hit.
Qed.

Lemma enemies_pass_alive (env : Env) (canvas : Canvas) (cl : Closure.t)
    (now : Z) (w : World) :
  Forall Enemy_alive (enemies w) ->
  Forall Enemy_alive (enemies (enemies_pass env canvas cl now w)).
Proof.
  intros HK. unfold enemies_pass, filter_pass.
  destruct (js_filter_rule (fun _ => True) Enemy_alive Enemy_alive
              (enemy_cb env canvas cl now)) with
    (arr := enemies w) (w := w) as [_ H2]; try assumption; try exact I.
  - intros; exact I.
  - intros e x [He1 He2] _ Hk. split.
    + apply (rule_enemy_cb env canvas cl now (fun _ => True) Enemy_made);
        unconcerned; try exact He1; try exact I.
      * exact Enemy_made_update.
      * exact Enemy_made_hurt.
    + now apply enemy_cb_health.
  - destruct (js_filter (enemy_cb env canvas cl now) (enemies w) w)
      as [res w1].
    exact H2.
Qed.

Lemma entities_alive (env : Env) (canvas : Canvas) (cl : Closure.t)
    (now : Z) (w : World) :
  Forall Enemy_alive (enemies w) ->
  Forall Enemy_alive (enemies (entities env canvas cl now w)).
Proof.
  intros HK. unfold entities. cbv zeta.
  apply (particles_pass_fp (fun x => Forall Enemy_alive (enemies x)));
    [stable|].
  apply (powerUps_pass_fp (fun x => Forall Enemy_alive (enemies x)));
    try stable.
  apply enemies_pass_alive.
  assert (H2 : Forall Enemy_alive
                 (enemies (enemyBullets_pass canvas cl now
                             (bullets_pass canvas (shoot cl now w))))).
  { apply (enemyBullets_pass_fp (fun x => Forall Enemy_alive (enemies x)));
      try stable.
    apply (bullets_pass_fp (fun x => Forall Enemy_alive (enemies x)));
      [stable|].
    apply (shoot_fp (fun x => Forall Enemy_alive (enemies x))); try stable.
    exact HK. }
  revert H2.
  generalize (enemyBullets_pass canvas cl now
                (bullets_pass canvas (shoot cl now w))).
  intros w2 H2. unfold maybe_spawnEnemy, spawnEnemy, random.
  cbv beta iota zeta.
  destruct (_ && _); [|exact H2].
  cbn [enemies set_enemiesSpawnedInLevel set_enemies set_randomCalls].
  apply List.Forall_app. split; [exact H2|].
  constructor; [apply Enemy_alive_new|constructor].
Qed.

Lemma setLevel_next_enemies (w : World) :
  enemies (set_enemiesSpawnedInLevel 0 (setLevel_next w)) = enemies w.
Proof.
  unfold setLevel_next, unlock. cbv zeta.
  destruct (level w + 1 =? 15)%Z, (level w + 1 =? 5)%Z; reflexivity.
Qed.

Lemma sound_check_level_up (w0 w : World) :
  sound_in_frame (level w0) w -> Forall Enemy_alive (enemies w) ->
  sound (check_level_up (closure_of w0) w).
Proof.
  intros Hw HK. unfold check_level_up.
  destruct (level_complete (closure_of w0) w).
  - assert (Hl : level w = level w0) by apply Hw.
    rewrite <- Hl in Hw. apply sound_in_frame_level_up in Hw.
    destruct Hw as (Hc & Hm & Hp & _).
    split; [exact Hc|]. split; [exact Hm|]. split; [exact Hp|].
    now rewrite setLevel_next_enemies.
  - destruct Hw as (Hc & Hm & Hp & _).
    split; [exact Hc|]. split; [exact Hm|]. split; [exact Hp|exact HK].
Qed.

Lemma sound_unlock (id : string) (w : World) : sound w -> sound (unlock id w).
Proof.
  intros (Hc & Hm & Hp & HK).
  split; [exact Hc|]. split; [now apply milestones_ok_unlock|].
  split; [exact Hp|exact HK].
Qed.

Lemma sound_frame (env : Env) (canvas : Canvas) (w : World) :
  sound w -> sound (frame env canvas w).
Proof.
  intros Hw. unfold frame. destruct (gameState w); try exact Hw.
  unfold loop, now_, loop_from. cbv beta iota zeta.
  set (now := Date_now env (dateCalls (handle_input canvas w))).
  set (w1 := set_dateCalls (S (dateCalls (handle_input canvas w)))
               (handle_input canvas w)).
  assert (H1 : sound_in_frame (level w) w1 /\ Forall Enemy_alive (enemies w1)).
  { destruct Hw as (Hc & Hm & Hp & HK).
    split; [|exact HK].
    split; [exact Hc|]. split; [exact Hm|]. split; [exact Hp|reflexivity]. }
  destruct H1 as [H1 K1].
  assert (H2 : sound_in_frame (level w)
                 (entities env canvas (closure_of w) now w1)).
  { apply (rule_entities env canvas (closure_of w) now
             (sound_in_frame (level w)) Enemy_made); unconcerned.
    - intros x Hx _. now apply sound_in_frame_player_hit.
    - intros x Hx Hgate. now apply sound_in_frame_spawned.
    - intros e x He Hx. now apply sound_in_frame_kill_count.
    - intros p x Hx. now apply sound_in_frame_pickup.
    - exact Enemy_made_update.
    - exact Enemy_made_hurt.
    - exact Enemy_made_new.
    - eapply List.Forall_impl; [|exact K1]. intros e He. apply He.
    - exact H1. }
  assert (K2 : Forall Enemy_alive
                 (enemies (entities env canvas (closure_of w) now w1)))
    by now apply entities_alive.
  unfold check_survivor.
  match goal with
  | |- context [if ?c then _ else _] => destruct c
  end; [apply sound_unlock|]; now apply sound_check_level_up.
Qed.

Lemma sound_startGame (env : Env) (canvas : Canvas) (w : World) :
  sound w -> sound (startGame env canvas w).
Proof.
  intros (Hc & Hm & Hp & HK).
  destruct Hm as (M0 & M1 & M2 & M3 & M4).
  unfold startGame, now_. cbv beta iota zeta.
  split; [|split; [|split]].
  - repeat split; cbn [lives level enemiesSpawnedInLevel enemiesKilled
      powerUpsPicked score]; unfold PLAYER_INITIAL_LIVES, ENEMIES_PER_LEVEL;
      try lia.
    exists 0%Z. reflexivity.
  - split; [exact M0|].
    repeat split; cbn [enemiesKilled powerUpsPicked level]; intros H;
      exfalso; lia.
  - exact Hp.
  - constructor.
Qed.

Lemma sound_initial : sound initial_world.
Proof.
  split; [|split; [|split]].
  - repeat split; cbn [lives level enemiesSpawnedInLevel enemiesKilled
      powerUpsPicked score initial_world];
      unfold PLAYER_INITIAL_LIVES, ENEMIES_PER_LEVEL; try lia.
    exists 0%Z. reflexivity.
  - split; [reflexivity|].
    repeat split; cbn [enemiesKilled powerUpsPicked level initial_world];
      intros H; exfalso; lia.
  - split; [intros t; cbn; lia | reflexivity].
  - constructor.
Qed.

Lemma sound_ui_step (env : Env) (w w' : World) :
  ui_step env w w' -> sound w -> sound w'.
Proof.
  intros Hs Hw. destruct Hs as [w w' Hs| | |]; try exact Hw.
  destruct Hs as [canvas w|canvas w|k w|k w|dx dy w _]; try exact Hw.
  - now apply sound_startGame.
  - now apply sound_frame.
  - unfold handleKeyDown. cbv zeta.
    destruct (_ || _); [|exact Hw].
    cbn [gameState set_keys]. destruct (gameState w); exact Hw.
Qed.

Lemma run_sound (env : Env) (w : World) : run env w -> sound w.
Proof.
  induction 1 as [|w w' _ IH Hs]; [apply sound_initial|].
  now apply (sound_ui_step env w).
Qed.

(** ** What a frame leaves alone *)

Section FrameFootprint.

Local Unset Default Proof Using.

Variable P : World -> Prop.

Hypothesis P_player : forall v w, P w -> P (set_player v w).
Hypothesis P_bullets : forall v w, P w -> P (set_bullets v w).
Hypothesis P_enemyBullets : forall v w, P w -> P (set_enemyBullets v w).
Hypothesis P_enemies : forall v w, P w -> P (set_enemies v w).
Hypothesis P_powerUps : forall v w, P w -> P (set_powerUps v w).
Hypothesis P_particles : forall v w, P w -> P (set_particles v w).
Hypothesis P_lastShot : forall v w, P w -> P (set_lastShot v w).
Hypothesis P_enemiesSpawnedInLevel :
  forall v w, P w -> P (set_enemiesSpawnedInLevel v w).
Hypothesis P_enemiesKilled : forall v w, P w -> P (set_enemiesKilled v w).
Hypothesis P_powerUpsPicked : forall v w, P w -> P (set_powerUpsPicked v w).
Hypothesis P_gameState : forall v w, P w -> P (set_gameState v w).
Hypothesis P_score : forall v w, P w -> P (set_score v w).
Hypothesis P_lives : forall v w, P w -> P (set_lives v w).
Hypothesis P_level : forall v w, P w -> P (set_level v w).
Hypothesis P_unlock : forall id w, P w -> P (unlock id w).
Hypothesis P_activePowerUps : forall v w, P w -> P (set_activePowerUps v w).
Hypothesis P_randomCalls : forall v w, P w -> P (set_randomCalls v w).
Hypothesis P_dateCalls : forall v w, P w -> P (set_dateCalls v w).

Lemma loop_fp (env : Env) (canvas : Canvas) (cl : Closure.t) (w : World) :
  P w -> P (loop env canvas cl w).
Proof.
  intros Hw. unfold loop, now_, loop_from. cbv beta iota zeta.
  apply (check_survivor_fp P); try assumption.
  apply (check_level_up_fp P); try assumption.
  apply (entities_fp P); try assumption.
  apply P_dateCalls.
  apply (handle_input_fp P); assumption.
Qed.

Lemma frame_fp (env : Env) (canvas : Canvas) (w : World) :
  P w -> P (frame env canvas w).
Proof.
  intros Hw. unfold frame. destruct (gameState w); try exact Hw.
  now apply loop_fp.
Qed.

Lemma frames_fp (env : Env) (canvases : list Canvas) (w : World) :
  P w -> P (frames env canvases w).
Proof.
  unfold frames. revert w.
  induction canvases as [|c cs IH]; intros w Hw; [exact Hw|].
  simpl. apply IH. now apply frame_fp.
Qed.

End FrameFootprint.

(** ** Along a run *)

Lemma run_played : run (const_env 0.5 0) played_world.
Proof.
  apply run_step with started_world.
  - apply run_step with initial_world; [apply run_initial|].
    apply ui_step_step, step_start.
  - apply ui_step_step, step_frame.
Qed.

Lemma run_frames (env : Env) (canvases : list Canvas) (w : World) :
  run env w -> run env (frames env canvases w).
Proof.
  unfold frames. revert w.
  induction canvases as [|c cs IH]; intros w Hw; [exact Hw|].
  simpl. apply IH. apply run_step with w; [exact Hw|].
  apply ui_step_step, step_frame.
Qed.

Lemma triple_eq {A B C : Type} (a a' : A) (b b' : B) (c c' : C) :
  (a, b, c) = (a', b', c') -> a = a' /\ b = b' /\ c = c'.
Proof. intros H. injection H as -> -> ->. repeat split. Qed.

Lemma run_veteran : run eager_env veteran_world.
Proof.
  unfold veteran_world. apply run_frames.
  apply run_step with initial_world; [apply run_initial|].
  apply ui_step_step, step_start.
Qed.

Lemma run_equipped : run mixed_env equipped_world.
Proof.
  unfold equipped_world. apply run_frames.
  apply run_step with initial_world; [apply run_initial|].
  apply ui_step_step, step_start.
Qed.

(** X3: whatever the user and the frames do from the mounting of the
    component, the lives are never negative, the level is at least 1, the
    number of enemies spawned in the level stays between 0 and
    [ENEMIES_PER_LEVEL * level], and the score is a non-negative multiple
    of 50. *)
Theorem run_counters (env : Env) (w : World) :
  run env w ->
  (0 <= lives w)%Z
  /\ (1 <= level w)%Z
  /\ (0 <= enemiesSpawnedInLevel w <= ENEMIES_PER_LEVEL * level w)%Z
  /\ (0 <= score w)%Z
  /\ (50 | score w)%Z.
Proof.
  intros H. apply run_sound in H.
  destruct H as ((C1 & C2 & C3 & C4 & C5 & C6 & C7) & _).
  repeat split; try assumption; apply C3.
Qed.

Lemma run_counters_witness :
  (0 <= lives played_world)%Z
  /\ (1 <= level played_world)%Z
  /\ (0 <= enemiesSpawnedInLevel played_world
      <= ENEMIES_PER_LEVEL * level played_world)%Z
  /\ (0 <= score played_world)%Z
  /\ (50 | score played_world)%Z.
Proof. exact (run_counters (const_env 0.5 0) played_world run_played). Defined.

(** X4: along a run the achievement list keeps its six entries, in their
    order, and no milestone is missed: "first_blood" is unlocked as soon
    as one enemy has been counted as killed, "ace_pilot" from 50 kills,
    "power_up_junkie" from 10 pickups and "unstoppable" from level 5 of
    the current game. *)
Theorem run_milestones (env : Env) (w : World) :
  run env w ->
  map Achievement.id (achievements w)
    = ["first_blood"; "survivor"; "ace_pilot"; "power_up_junkie";
       "unstoppable"; "life_saver"]
  /\ ((1 <= enemiesKilled w)%Z ->
      is_unlocked "first_blood" (achievements w) = true)
  /\ ((50 <= enemiesKilled w)%Z ->
      is_unlocked "ace_pilot" (achievements w) = true)
  /\ ((10 <= powerUpsPicked w)%Z ->
      is_unlocked "power_up_junkie" (achievements w) = true)
  /\ ((5 <= level w)%Z ->
      is_unlocked "unstoppable" (achievements w) = true).
Proof.
  intros H. apply run_sound in H. destruct H as (_ & Hm & _). exact Hm.
Qed.

(** On [veteran_world], a run of 110 frames in which 171 kills and 119
    pickups have been counted and level 5 reached, the four milestones
    are unlocked. *)
Lemma run_milestones_witness :
  (enemiesKilled veteran_world, powerUpsPicked veteran_world,
   level veteran_world) = (171, 119, 5)%Z
  /\ map Achievement.id (achievements veteran_world)
     = ["first_blood"; "survivor"; "ace_pilot"; "power_up_junkie";
        "unstoppable"; "life_saver"]
  /\ is_unlocked "first_blood" (achievements veteran_world) = true
  /\ is_unlocked "ace_pilot" (achievements veteran_world) = true
  /\ is_unlocked "power_up_junkie" (achievements veteran_world) = true
  /\ is_unlocked "unstoppable" (achievements veteran_world) = true.
Proof.
  assert (E : (enemiesKilled veteran_world, powerUpsPicked veteran_world,
               level veteran_world) = (171, 119, 5)%Z)
    by (vm_compute; reflexivity).
  destruct (run_milestones eager_env veteran_world run_veteran)
    as (H0 & H1 & H2 & H3 & H4).
  split; [exact E|]. split; [exact H0|].
  destruct (triple_eq _ _ _ _ _ _ E) as (Ek & Ep & El).
  rewrite Ek in H1, H2. rewrite Ep in H3. rewrite El in H4.
  split; [apply H1; discriminate|].
  split; [apply H2; discriminate|].
  split; [apply H3; discriminate | apply H4; discriminate].
Defined.

Lemma entries_NoDup (l : list ActivePowerUp.t) :
  (forall t, (length (entries_of t l) <= 1)%nat) ->
  List.NoDup (map ActivePowerUp.type l).
Proof.
  induction l as [|p l IH]; intros H; [constructor|].
  cbn [map]. constructor.
  - intros Hin. apply List.in_map_iff in Hin as (q & Hq & Hin).
    specialize (H (ActivePowerUp.type p)). unfold entries_of in H.
    cbn [List.filter] in H. rewrite PowerUpType_eqb_refl in H. cbn [length] in H.
    assert (Hq' : In q (List.filter
                     (fun q => PowerUpType_eqb (ActivePowerUp.type q)
                                 (ActivePowerUp.type p)) l)).
    { apply List.filter_In. split; [exact Hin|].
      rewrite Hq. apply PowerUpType_eqb_refl. }
    destruct (List.filter _ l); [destruct Hq' | cbn [length] in H; lia].
  - apply IH. intros t. specialize (H t). unfold entries_of in *.
    cbn [List.filter] in H.
    destruct (PowerUpType_eqb (ActivePowerUp.type p) t);
      cbn [length] in H; lia.
Qed.

(** X5: along a run the stored power-ups hold at most one entry per
    variant, so that the variants of the entries, which the HUD uses as
    keys, are distinct, and never an entry for the extra life, which is
    applied at once. *)
Theorem run_powerUps (env : Env) (w : World) :
  run env w ->
  (forall t, (length (entries_of t (activePowerUps w)) <= 1)%nat)
  /\ List.NoDup (map ActivePowerUp.type (activePowerUps w))
  /\ entries_of EXTRA_LIFE (activePowerUps w) = [].
Proof.
  intros H. apply run_sound in H. destruct H as (_ & _ & [Hp1 Hp2] & _).
  split; [exact Hp1|]. split; [now apply entries_NoDup | exact Hp2].
Qed.

(** On [equipped_world], a run of 40 frames with six pickups, one of them
    an extra life: a triple shot and a shield are stored, one entry
    each. *)
Lemma run_powerUps_witness :
  activePowerUps equipped_world
  = [ActivePowerUp.mk TRIPLE_SHOT 50000; ActivePowerUp.mk SHIELD 53000]
  /\ powerUpsPicked equipped_world = 6%Z
  /\ lives equipped_world = 4%Z
  /\ (forall t,
        (length (entries_of t (activePowerUps equipped_world)) <= 1)%nat)
  /\ List.NoDup (map ActivePowerUp.type (activePowerUps equipped_world))
  /\ entries_of EXTRA_LIFE (activePowerUps equipped_world) = [].
Proof.
  split; [vm_compute; reflexivity|].
  split; [vm_compute; reflexivity|].
  split; [vm_compute; reflexivity|].
  exact (run_powerUps mixed_env equipped_world run_equipped).
Defined.

(** X6: between two events of a run every enemy of the list is alive:
    its health is at least 1 and at most the health of its variant, and
    its size, speed and points are those of its variant. *)
Theorem run_enemies (env : Env) (w : World) (e : Enemy.t) :
  run env w -> In e (enemies w) ->
  let config := ENEMY_CONFIGS (Enemy.type e) in
  (1 <= Enemy.health e <= EnemyConfig.health config)%Z
  /\ Enemy.size e = EnemyConfig.size config
  /\ Enemy.speed e = EnemyConfig.speed config
  /\ Enemy.points e = EnemyConfig.points config.
Proof.
  intros H Hin. apply run_sound in H. destruct H as (_ & _ & _ & HK).
  rewrite List.Forall_forall in HK.
  destruct (HK e Hin) as ((H1 & H2 & H3 & _ & _ & H6) & H7).
  cbv zeta. repeat split; assumption.
Qed.

Lemma run_spawned : run (const_env 0.01 0) spawned_world.
Proof.
  apply run_step with
    (startGame (const_env 0.01 0) canvas_400x600 initial_world).
  - apply run_step with initial_world; [apply run_initial|].
    apply ui_step_step, step_start.
  - apply ui_step_step, step_frame.
Qed.

(** On [spawned_world] the BASIC enemy spawned by the frame, moved once. *)
Lemma run_enemies_witness :
  let e := Enemy.update (Enemy.new 0.01 400 BASIC) in
  In e (enemies spawned_world)
  /\ (1 <= Enemy.health e <= 1)%Z
  /\ Enemy.size e = 35
  /\ Enemy.speed e = 2
  /\ Enemy.points e = 100%Z.
Proof.
  cbv zeta.
  assert (Hin : In (Enemy.update (Enemy.new 0.01 400 BASIC))
                  (enemies spawned_world))
    by (vm_compute; left; reflexivity).
  split; [exact Hin|].
  exact (run_enemies (const_env 0.01 0) spawned_world
           (Enemy.update (Enemy.new 0.01 400 BASIC)) run_spawned Hin).
Defined.

(** X7: no event of the user interface locks an achievement again: what
    is unlocked stays unlocked through every frame, key, touch move and
    button, and through the start of a new game. *)
Theorem achievements_stay_unlocked (env : Env) (w w' : World) (id : string) :
  ui_step env w w' ->
  is_unlocked id (achievements w) = true ->
  is_unlocked id (achievements w') = true.
Proof.
  intros Hs Hw. destruct Hs as [w w' Hs| | |]; try exact Hw.
  destruct Hs as [canvas w|canvas w|k w|k w|dx dy w _]; try exact Hw.
  - apply (frame_fp (fun x => is_unlocked id (achievements x) = true));
      try stable; [|exact Hw].
    intros id' x Hx. now apply is_unlocked_unlock.
  - unfold handleKeyDown. cbv zeta.
    destruct (_ || _); [|exact Hw].
    cbn [gameState set_keys]. destruct (gameState w); exact Hw.
Qed.

(** "first_blood", unlocked by the kill of [single_hit_world], is still
    unlocked in the next game. *)
Lemma achievements_stay_unlocked_witness :
  is_unlocked "first_blood"
    (achievements
       (startGame (const_env 0.5 0) canvas_400x600
          (frame (const_env 0.5 0) canvas_400x600 single_hit_world))) = true.
Proof.
  apply (achievements_stay_unlocked (const_env 0.5 0)
           (frame (const_env 0.5 0) canvas_400x600 single_hit_world)).
  - apply ui_step_step, step_start.
  - vm_compute. reflexivity.
Defined.

Lemma Enemy_made_points_le (e : Enemy.t) :
  Enemy_made e -> (Enemy.points e <= 300)%Z.
Proof.
  intros (_ & _ & Hp & _). rewrite Hp. destruct (Enemy.type e); simpl; lia.
Qed.

(** X8: over a frame the score goes up by the points of the kills
    counted in it, between 100 and 300 each, and by nothing else; in
    particular it never goes down.  The enemies are supposed as their
    constructor makes them, which holds along every run. *)
Theorem frame_score_per_kill (env : Env) (canvas : Canvas) (w : World) :
  Forall Enemy_made (enemies w) ->
  let w' := frame env canvas w in
  let kills := (enemiesKilled w' - enemiesKilled w)%Z in
  (0 <= kills)%Z
  /\ (100 * kills <= score w' - score w <= 300 * kills)%Z.
Proof.
  intros HK. change (scored w (frame env canvas w)).
  assert (H0 : scored w w) by (unfold scored; cbv zeta; lia).
  unfold frame. destruct (gameState w); try exact H0.
  unfold loop, now_, loop_from. cbv beta iota zeta.
  apply (check_survivor_fp (scored w)); try stable.
  apply (check_level_up_fp (scored w)); try stable.
  apply (rule_entities env canvas (closure_of w) _ (scored w) Enemy_made);
    unconcerned.
  - intros x Hx _. apply (player_hit_fp (scored w)); try stable. exact Hx.
  - intros e x He Hx.
    destruct (kill_count_counters e x) as (_ & _ & _ & E4 & _ & E6 & _).
    destruct (Enemy_made_points e He) as [Hp1 _].
    pose proof (Enemy_made_points_le e He) as Hp2.
    unfold scored in *. cbv zeta in *. rewrite E4, E6. lia.
  - intros p x Hx. apply (pickup_fp (scored w)); try stable. exact Hx.
  - exact Enemy_made_update.
  - exact Enemy_made_hurt.
  - exact Enemy_made_new.
  - exact HK.
  - exact H0.
Qed.

(** On [single_hit_world] the frame counts one kill and scores 100. *)
Lemma frame_score_per_kill_witness :
  let w' := frame (const_env 0.5 0) canvas_400x600 single_hit_world in
  let kills := (enemiesKilled w' - enemiesKilled single_hit_world)%Z in
  (0 <= kills)%Z
  /\ (100 * kills <= score w' - score single_hit_world <= 300 * kills)%Z.
Proof.
  apply (frame_score_per_kill (const_env 0.5 0) canvas_400x600
           single_hit_world).
  constructor; [|constructor].
  repeat split; cbn; lia.
Defined.

(** On [beset_world] the bullet takes a life and the enemy, reaching the
    invincible player in the same frame, takes none. *)
Lemma frame_takes_one_life_witness :
  let w' := frame (const_env 0.5 100) canvas_400x600 beset_world in
  (lives beset_world - 1 <= lives w')%Z
  /\ (gameState w' = PLAYING
      \/ ((lives beset_world <= 1)%Z /\ gameState w' = GAME_OVER)).
Proof.
  apply (frame_takes_one_life (const_env 0.5 100) canvas_400x600 beset_world).
  reflexivity.
Defined.

(** On [beset_shielded_world] the bullet and the enemy both reach the
    player, and the three lives are left. *)
Lemma frame_shield_absorbs_all_witness :
  let w' := frame (const_env 0.5 100) canvas_400x600 beset_shielded_world in
  (lives beset_shielded_world <= lives w')%Z /\ gameState w' = PLAYING.
Proof.
  apply (frame_shield_absorbs_all (const_env 0.5 100) canvas_400x600
           beset_shielded_world).
  - reflexivity.
  - exists (ActivePowerUp.mk SHIELD 8000).
    split; [left; reflexivity | split; [reflexivity | vm_compute; reflexivity]].
Defined.

(** ** What a frame leaves in the lists *)

Lemma Forall_splice1 {A : Type} (K : A -> Prop) (i : nat) (l : list A) :
  Forall K l -> Forall K (splice1 i l).
Proof.
  intros H. revert i. induction H as [|a l Ha Hl IH]; intros i.
  - destruct i; constructor.
  - destruct i; simpl; [exact Hl | constructor; [exact Ha | apply IH]].
Qed.

Lemma filter_pass_kept {A : Type} (K : A -> Prop)
    (cb : A -> World -> A * bool * World) (get : World -> list A)
    (set : list A -> World -> World) :
  (forall v w, get (set v w) = v) ->
  (forall a w, snd (fst (cb a w)) = true -> K (fst (fst (cb a w)))) ->
  forall w, Forall K (get (filter_pass cb get set w)).
Proof.
  intros Hget Hcb w. unfold filter_pass.
  pose proof (js_filter_kept (fun _ => True) K cb
                (fun _ _ _ => I) (fun a x _ => Hcb a x) (get w) w I) as H.
  destruct (js_filter cb (get w) w) as [res w1]. cbn [fst] in H.
  now rewrite Hget.
Qed.

(** The enemy pass only removes player bullets. *)
Lemma enemies_pass_bullets (env : Env) (canvas : Canvas) (cl : Closure.t)
    (now : Z) (K : Bullet.t -> Prop) (w : World) :
  Forall K (bullets w) ->
  Forall K (bullets (enemies_pass env canvas cl now w)).
Proof.
  unfold enemies_pass.
  apply (filter_pass_inv (fun x => Forall K (bullets x))); [stable|].
  intros e x Hx. unfold enemy_cb. cbv zeta.
  assert (H0 : Forall K (bullets (enemy_fire env cl (Enemy.update e) x))).
  { apply (enemy_fire_fp (fun x => Forall K (bullets x))); try stable.
    exact Hx. }
  assert (H1 : Forall K
                 (bullets (snd (enemy_bullets env canvas cl (Enemy.update e)
                                  (enemy_fire env cl (Enemy.update e) x))))).
  { unfold enemy_bullets.
    apply (js_forEach_rule (fun s : EnemyIter => Forall K (bullets (snd s))));
      [|exact H0].
    intros b k [[e1 hit] w1] _ H. cbn [snd] in H. unfold enemy_bullet_cb.
    destruct (bullet_hits_enemy b e1); [|exact H]. cbv zeta.
    pose proof (Forall_splice1 K k _ H) as Hs.
    destruct (_ <=? 0)%Z; cbn [snd]; [|exact Hs].
    apply (kill_effects_fp (fun x => Forall K (bullets x))); try stable.
    exact Hs. }
  destruct (enemy_bullets env canvas cl (Enemy.update e)
              (enemy_fire env cl (Enemy.update e) x)) as [[e1 hit] w1].
  cbn [snd] in H1.
  pose proof (enemy_contact_fp (fun x => Forall K (bullets x))) as H2.
  specialize (H2 (fun _ _ H => H) (fun _ _ H => H) (fun _ _ H => H)
                (fun _ _ H => H)).
  specialize (H2 cl now e1 hit w1 H1).
  destruct (enemy_contact cl now e1 hit w1) as [hit2 w2]. cbn [snd] in H2.
  destruct (Qltb _ _); exact H2.
Qed.

(** X9: when a frame run while PLAYING ends, nothing that has left the
    field or is spent is kept: every player bullet is strictly below the
    top edge and strictly between the left and right edges, every enemy
    is at most at the bottom of the canvas, every falling power-up is
    strictly above it and every particle has life left. *)
Theorem frame_culls (env : Env) (canvas : Canvas) (w : World) :
  gameState w = PLAYING ->
  let w' := frame env canvas w in
  Forall (fun b => 0 < Bullet.y b
                   /\ 0 < Bullet.x b /\ Bullet.x b < clientWidth canvas)
         (bullets w')
  /\ Forall (fun e => Enemy.y e <= height canvas) (enemies w')
  /\ Forall (fun p => PowerUp.y p < height canvas) (powerUps w')
  /\ Forall (fun p => 0 < Particle.life p) (particles w').
Proof.
  intros Hplay. cbv zeta. unfold frame. rewrite Hplay.
  unfold loop, now_, loop_from. cbv beta iota zeta.
  set (now := Date_now env (dateCalls (handle_input canvas w))).
  generalize (set_dateCalls (S (dateCalls (handle_input canvas w)))
                (handle_input canvas w)).
  intros w1.
  set (cl := closure_of w).
  set (Kb := fun b => 0 < Bullet.y b
                      /\ 0 < Bullet.x b /\ Bullet.x b < clientWidth canvas).
  set (Ke := fun e => Enemy.y e <= height canvas).
  set (Kp := fun p => PowerUp.y p < height canvas).
  set (Kt := fun p => 0 < Particle.life p).
  assert (H : Forall Kb (bullets (entities env canvas cl now w1))
              /\ Forall Ke (enemies (entities env canvas cl now w1))
              /\ Forall Kp (powerUps (entities env canvas cl now w1))
              /\ Forall Kt (particles (entities env canvas cl now w1))).
  { unfold entities. cbv zeta. split; [|split; [|split]].
    - apply (particles_pass_fp (fun x => Forall Kb (bullets x))); [stable|].
      apply (powerUps_pass_fp (fun x => Forall Kb (bullets x))); try stable.
      apply enemies_pass_bullets.
      apply (maybe_spawnEnemy_fp (fun x => Forall Kb (bullets x)));
        try stable.
      apply (enemyBullets_pass_fp (fun x => Forall Kb (bullets x)));
        try stable.
      apply (filter_pass_kept Kb); [reflexivity|].
      intros b x. unfold bullet_cb. cbv zeta. cbn [fst snd].
      rewrite !andb_true_iff, !Qltb_lt. intros [[H1 H2] H3].
      split; [exact H1 | split; [exact H2 | exact H3]].
    - apply (particles_pass_fp (fun x => Forall Ke (enemies x))); [stable|].
      apply (powerUps_pass_fp (fun x => Forall Ke (enemies x))); try stable.
      apply (filter_pass_kept Ke); [reflexivity|].
      intros e x. unfold enemy_cb. cbv zeta.
      destruct (enemy_bullets env canvas cl _ _) as [[e1 hit] x1].
      destruct (enemy_contact cl now e1 hit x1) as [hit2 x2].
      destruct (Qltb (height canvas) (Enemy.y e1)) eqn:E; cbn [fst snd];
        [discriminate|].
      intros _. now apply Qltb_ge.
    - apply (particles_pass_fp (fun x => Forall Kp (powerUps x))); [stable|].
      apply (filter_pass_kept Kp); [reflexivity|].
      intros p x. unfold powerUp_cb. cbv zeta.
      destruct (powerUp_hits_player _ x); cbn [fst snd]; [discriminate|].
      now rewrite Qltb_lt.
    - apply (filter_pass_kept Kt); [reflexivity|].
      intros p x. unfold particle_cb. cbv zeta. cbn [fst snd].
      now rewrite Qltb_lt. }
  destruct H as (H1 & H2 & H3 & H4).
  split; [|split; [|split]].
  - apply (check_survivor_fp (fun x => Forall Kb (bullets x))); [stable|].
    apply (check_level_up_fp (fun x => Forall Kb (bullets x))); try stable.
    exact H1.
  - apply (check_survivor_fp (fun x => Forall Ke (enemies x))); [stable|].
    apply (check_level_up_fp (fun x => Forall Ke (enemies x))); try stable.
    exact H2.
  - apply (check_survivor_fp (fun x => Forall Kp (powerUps x))); [stable|].
    apply (check_level_up_fp (fun x => Forall Kp (powerUps x))); try stable.
    exact H3.
  - apply (check_survivor_fp (fun x => Forall Kt (particles x))); [stable|].
    apply (check_level_up_fp (fun x => Forall Kt (particles x))); try stable.
    exact H4.
Qed.

(** ** The functions on their own *)

Lemma unlockAchievement_other (id id' : string) (l : list Achievement.t) :
  String.eqb id' id = false ->
  is_unlocked id' (unlockAchievement id l) = is_unlocked id' l.
Proof.
  intros Hne. unfold is_unlocked, unlockAchievement.
  destruct (find (fun a => String.eqb (Achievement.id a) id) l) as [ach|];
    [|reflexivity].
  destruct (negb (Achievement.unlocked ach)); [|reflexivity].
  rewrite find_id_map.
  - destruct (find (fun a => String.eqb (Achievement.id a) id') l) as [a|] eqn:E;
      [|reflexivity].
    simpl. apply List.find_some in E as [_ E].
    apply String.eqb_eq in E. rewrite E, Hne. reflexivity.
  - intros a. destruct (String.eqb (Achievement.id a) id); reflexivity.
Qed.

Lemma unlockAchievement_idempotent (id : string) (l : list Achievement.t) :
  unlockAchievement id (unlockAchievement id l) = unlockAchievement id l.
Proof.
  unfold unlockAchievement at 2 3.
  destruct (find (fun a => String.eqb (Achievement.id a) id) l) as [ach|] eqn:E.
  - destruct (Achievement.unlocked ach) eqn:U; cbn [negb].
    + unfold unlockAchievement. now rewrite E, U.
    + unfold unlockAchievement. rewrite find_id_map, E.
      * simpl. apply List.find_some in E as [_ E]. now rewrite E.
      * intros a. destruct (String.eqb (Achievement.id a) id); reflexivity.
  - unfold unlockAchievement. now rewrite E.
Qed.

Lemma unlockAchievement_texts (id : string) (l : list Achievement.t) :
  map (fun a => (Achievement.id a, Achievement.name a,
                 Achievement.description a, Achievement.icon a))
      (unlockAchievement id l)
  = map (fun a => (Achievement.id a, Achievement.name a,
                   Achievement.description a, Achievement.icon a)) l.
Proof.
  unfold unlockAchievement.
  destruct (find _ l) as [ach|]; [|reflexivity].
  destruct (negb (Achievement.unlocked ach)); [|reflexivity].
  rewrite List.map_map. apply List.map_ext. intros a.
  destruct (String.eqb (Achievement.id a) id); reflexivity.
Qed.

Lemma is_unlocked_unlock_same (id : string) (l : list Achievement.t) :
  is_unlocked id (unlockAchievement id l)
  = existsb (fun a => String.eqb (Achievement.id a) id) l.
Proof.
  destruct (existsb (fun a => String.eqb (Achievement.id a) id) l) eqn:E.
  - apply unlock_is_unlocked. apply List.existsb_exists in E as (a & Hin & Ha).
    apply String.eqb_eq in Ha. subst id. now apply List.in_map.
  - unfold is_unlocked, unlockAchievement.
    destruct (find (fun a => String.eqb (Achievement.id a) id) l) as [ach|] eqn:F.
    + exfalso. apply List.find_some in F as [Hin Ha].
      assert (H : existsb (fun a => String.eqb (Achievement.id a) id) l = true)
        by (apply List.existsb_exists; eauto).
      congruence.
    + now rewrite F.
Qed.

(** X10: [unlockAchievement id] unlocks the entries of that id, if there
    is one, and changes nothing else: the flag read for any other id, the
    ids, names, descriptions and icons and the order of the list are as
    before; unlocking twice is unlocking once. *)
Theorem unlockAchievement_spec (id id' : string) (l : list Achievement.t) :
  is_unlocked id' (unlockAchievement id l)
    = (if String.eqb id' id
       then existsb (fun a => String.eqb (Achievement.id a) id) l
       else is_unlocked id' l)
  /\ map (fun a => (Achievement.id a, Achievement.name a,
                    Achievement.description a, Achievement.icon a))
         (unlockAchievement id l)
     = map (fun a => (Achievement.id a, Achievement.name a,
                      Achievement.description a, Achievement.icon a)) l
  /\ unlockAchievement id (unlockAchievement id l) = unlockAchievement id l.
Proof.
  split; [|split].
  - destruct (String.eqb id' id) eqn:E.
    + apply String.eqb_eq in E. subst id'. apply is_unlocked_unlock_same.
    + now apply unlockAchievement_other.
  - apply unlockAchievement_texts.
  - apply unlockAchievement_idempotent.
Qed.

(** X12: for a draw in [0, 1) and a field at least as wide as the enemy,
    a new enemy is horizontally inside the field, its lower edge on the
    top edge of the field, with the full health of its variant. *)
Theorem Enemy_new_inside (r W : Q) (type : EnemyType) :
  0 <= r -> r < 1 -> EnemyConfig.size (ENEMY_CONFIGS type) <= W ->
  let e := Enemy.new r W type in
  0 <= Enemy.x e
  /\ Enemy.x e + Enemy.size e <= W
  /\ Enemy.y e + Enemy.size e == 0
  /\ Enemy.health e = EnemyConfig.health (ENEMY_CONFIGS type).
Proof.
  intros H0 H1 HW. cbv zeta. unfold Enemy.new. cbv zeta.
  cbn [Enemy.x Enemy.y Enemy.size Enemy.health].
  set (s := EnemyConfig.size (ENEMY_CONFIGS type)) in *.
  assert (Hd : 0 <= W - s) by (unfold Qminus; rewrite <- Qle_minus_iff; exact HW).
  split; [|split; [|split]].
  - now apply Qmult_le_0_compat.
  - apply Qle_trans with (1 * (W - s) + s).
    + apply Qplus_le_l. apply Qmult_le_compat_r; [|exact Hd].
      now apply Qlt_le_weak.
    + apply Qle_lteq. right. ring.
  - ring.
  - reflexivity.
Qed.

Lemma powerup_chance_value (lvl : Z) :
  powerup_chance lvl ==
  if (lvl <? 15)%Z then 0.15
  else if (lvl <? 28)%Z then 0.15 - inject_Z (lvl - 15) * 0.01
  else 0.02.
Proof.
  unfold powerup_chance, POWERUP_SPAWN_CHANCE.
  destruct (Z.leb_spec 15 lvl) as [H|H], (Z.ltb_spec lvl 15) as [H'|H'];
    try lia; try reflexivity.
  destruct (Z.ltb_spec lvl 28) as [H2|H2].
  - apply Q.max_r. unfold Qle, Qminus, Qplus, Qmult, Qopp, inject_Z.
    cbn [Qnum Qden]. lia.
  - apply Q.max_l. unfold Qle, Qminus, Qplus, Qmult, Qopp, inject_Z.
    cbn [Qnum Qden]. lia.
Qed.

(** X11: the chance that a kill drops a power-up never increases with the
    level: it is at most [POWERUP_SPAWN_CHANCE], at least 0.02, and it is
    0.02 exactly from level 28 on. *)
Theorem powerup_chance_decreasing (lvl lvl' : Z) :
  (lvl <= lvl')%Z ->
  0.02 <= powerup_chance lvl'
  /\ powerup_chance lvl' <= powerup_chance lvl
  /\ powerup_chance lvl <= POWERUP_SPAWN_CHANCE
  /\ (powerup_chance lvl' == 0.02 <-> (28 <= lvl')%Z).
Proof.
  intros H. rewrite !powerup_chance_value. unfold POWERUP_SPAWN_CHANCE.
  destruct (Z.ltb_spec lvl 15), (Z.ltb_spec lvl' 15),
    (Z.ltb_spec lvl 28), (Z.ltb_spec lvl' 28); try lia;
    unfold Qle, Qeq, Qminus, Qplus, Qmult, Qopp, inject_Z;
    cbn [Qnum Qden]; repeat split; intros; try lia.
Qed.

(** X13: for a placing draw in [0, 1) and a field at least
    [POWERUP_SIZE] wide, a new power-up is horizontally inside the field,
    its lower edge on the top edge; the other draw makes it a triple shot
    below 0.4, a shield from 0.4 and below 0.8, an extra life from 0.8. *)
Theorem PowerUp_new_spec (rand r W : Q) :
  0 <= r -> r < 1 -> POWERUP_SIZE <= W ->
  let p := PowerUp.new rand r W in
  0 <= PowerUp.x p
  /\ PowerUp.x p + PowerUp.size p <= W
  /\ PowerUp.y p + PowerUp.size p == 0
  /\ (PowerUp.type p = TRIPLE_SHOT <-> rand < 0.4)
  /\ (PowerUp.type p = SHIELD <-> 0.4 <= rand /\ rand < 0.8)
  /\ (PowerUp.type p = EXTRA_LIFE <-> 0.8 <= rand).
Proof.
  intros H0 H1 HW. cbv zeta. unfold PowerUp.new. cbv zeta.
  cbn [PowerUp.x PowerUp.y PowerUp.size PowerUp.type].
  assert (Hd : 0 <= W - POWERUP_SIZE)
    by (unfold Qminus; rewrite <- Qle_minus_iff; exact HW).
  split; [|split; [|split]].
  - now apply Qmult_le_0_compat.
  - apply Qle_trans with (1 * (W - POWERUP_SIZE) + POWERUP_SIZE).
    + apply Qplus_le_l. apply Qmult_le_compat_r; [|exact Hd].
      now apply Qlt_le_weak.
    + apply Qle_lteq. right. ring.
  - ring.
  - destruct (Qltb rand 0.4) eqn:E1; [|destruct (Qltb rand 0.8) eqn:E2].
    + apply Qltb_lt in E1.
      assert (E3 : rand < 0.8) by (eapply Qlt_trans; [exact E1|reflexivity]).
      repeat split; try discriminate; try tauto.
      * intros [H _]. exfalso. now apply (Qlt_not_le _ _ E1).
      * intros H. exfalso. now apply (Qlt_not_le _ _ E3).
    + apply Qltb_ge in E1. apply Qltb_lt in E2.
      repeat split; try discriminate; try tauto.
      * intros H. exfalso. now apply (Qlt_not_le _ _ H).
      * intros H. exfalso. now apply (Qlt_not_le _ _ E2).
    + apply Qltb_ge in E1. apply Qltb_ge in E2.
      repeat split; try discriminate; try tauto.
      * intros H. exfalso. now apply (Qlt_not_le _ _ H).
      * intros [_ H]. exfalso. now apply (Qlt_not_le _ _ H).
Qed.

(** X14: the HUD shows no star below level 15, three stars at levels 15
    to 19, four at levels 20 to 24 and five from level 25 on. *)
Theorem starRating_table (level : Z) :
  starRating level
  = if (level <? 15)%Z then None
    else if (level <? 20)%Z then Some 3%Z
    else if (level <? 25)%Z then Some 4%Z
    else Some 5%Z.
Proof.
  unfold starRating, stars. cbv zeta.
  destruct (Z.ltb_spec level 15), (Z.ltb_spec level 20),
    (Z.ltb_spec level 25); try lia;
    destruct (Z.leb_spec 3 (Z.min 5 (level / 5)));
    try f_equal; Z.div_mod_to_equations; lia.
Qed.

Lemma frames_not_playing (env : Env) (cs : list Canvas) (w : World) :
  gameState w <> PLAYING -> frames env cs w = w.
Proof.
  intros H. unfold frames. induction cs as [|c cs IH]; [reflexivity|].
  simpl. unfold frame at 2. destruct (gameState w) eqn:E; try exact IH.
  contradiction.
Qed.

(** X15: pausing with "p" or "P" freezes the game: whatever the number
    of animation frames until the key is pressed again, the world is then
    what it was when the game was paused, but for the key recorded as
    held. *)
Theorem pause_freezes (env : Env) (cs : list Canvas) (k : string) (w : World) :
  k = "p" \/ k = "P" -> gameState w = PLAYING ->
  handleKeyDown k (frames env cs (handleKeyDown k w))
  = set_keys (<[k := true]> (keys w)) w.
Proof.
  intros Hk Hplay.
  assert (E : String.eqb k "p" || String.eqb k "P" = true)
    by (destruct Hk; subst k; reflexivity).
  assert (H1 : handleKeyDown k w
               = set_gameState PAUSED (set_keys (<[k := true]> (keys w)) w)).
  { unfold handleKeyDown. cbv zeta. rewrite E.
    cbn [gameState set_keys]. now rewrite Hplay. }
  rewrite H1, frames_not_playing by (cbn; discriminate).
  unfold handleKeyDown. cbv zeta. rewrite E.
  cbn [gameState set_gameState set_keys keys].
  rewrite insert_insert_eq.
  destruct w. cbn in *. now subst.
Qed.

Lemma frames_keys (env : Env) (cs : list Canvas) (w : World) :
  keys (frames env cs w) = keys w.
Proof.
  apply (frames_fp (fun x => keys x = keys w)); try stable. reflexivity.
Qed.

Lemma handleKeyDown_keys (k : string) (w : World) :
  keys (handleKeyDown k w) = <[k := true]> (keys w).
Proof.
  unfold handleKeyDown. cbv zeta. destruct (_ || _); [|reflexivity].
  cbn [gameState set_keys]. destruct (gameState w); reflexivity.
Qed.

(** X16: a key is read as held from its keydown and as released from
    its keyup through any number of frames, and the two handlers leave
    the reading of every other key as it was. *)
Theorem keys_held (env : Env) (cs : list Canvas) (k k' : string) (w : World) :
  key k' (frames env cs (handleKeyDown k w))
    = (if String.eqb k' k then true else key k' w)
  /\ key k' (frames env cs (handleKeyUp k w))
     = (if String.eqb k' k then false else key k' w).
Proof.
  unfold key. rewrite !frames_keys, handleKeyDown_keys.
  unfold handleKeyUp. cbn [keys set_keys].
  destruct (String.eqb_spec k' k) as [->|Hne].
  - now rewrite !lookup_insert_eq.
  - now rewrite !lookup_insert_ne by congruence.
Qed.

Lemma last_cons_default {A : Type} (a d : A) (l : list A) :
  List.last (a :: l) d = List.last l a.
Proof.
  revert a d. induction l as [|b l IH]; intros a d; [reflexivity|].
  change (List.last (a :: b :: l) d) with (List.last (b :: l) d).
  now rewrite !IH.
Qed.

Lemma handleTouchMove_dragging (e : Touch.event) (t : Touch.t) (w : World) :
  Touch.isDragging t = true ->
  Touch.handleTouchMove e (t, w)
  = (Touch.mk true (fst (touch_point e)) (snd (touch_point e)),
     handleTouchMove (fst (touch_point e) - Touch.lastTouchX t)
       (snd (touch_point e) - Touch.lastTouchY t) w).
Proof.
  intros H. unfold Touch.handleTouchMove. cbn [fst snd]. rewrite H.
  reflexivity.
Qed.

Lemma moves_telescope (es : list Touch.event) (t : Touch.t) (w : World) :
  Touch.isDragging t = true ->
  let s' := fold_left (fun s e => Touch.handleTouchMove e s) es (t, w) in
  Touch.isDragging (fst s') = true
  /\ (Touch.lastTouchX (fst s'), Touch.lastTouchY (fst s'))
     = List.last (map touch_point es) (Touch.lastTouchX t, Touch.lastTouchY t)
  /\ Player.x (player (snd s')) + Touch.lastTouchX t
     == Player.x (player w) + Touch.lastTouchX (fst s')
  /\ Player.y (player (snd s')) + Touch.lastTouchY t
     == Player.y (player w) + Touch.lastTouchY (fst s').
Proof.
  revert t w. induction es as [|e es IH]; intros t w Hd; cbv zeta.
  - simpl. repeat split; try assumption; reflexivity.
  - cbn [fold_left map]. rewrite handleTouchMove_dragging by exact Hd.
    rewrite last_cons_default.
    destruct (IH (Touch.mk true (fst (touch_point e)) (snd (touch_point e)))
                (handleTouchMove (fst (touch_point e) - Touch.lastTouchX t)
                   (snd (touch_point e) - Touch.lastTouchY t) w) eq_refl)
      as (I1 & I2 & I3 & I4).
    split; [exact I1|]. split; [exact I2|].
    cbn [Touch.lastTouchX Touch.lastTouchY handleTouchMove player set_player
         Player.x Player.y] in I3, I4.
    split.
    + apply (Qplus_inj_r _ _ (fst (touch_point e))).
      rewrite <- Qplus_assoc, (Qplus_comm (Touch.lastTouchX t)), Qplus_assoc.
      rewrite I3. ring.
    + apply (Qplus_inj_r _ _ (snd (touch_point e))).
      rewrite <- Qplus_assoc, (Qplus_comm (Touch.lastTouchY t)), Qplus_assoc.
      rewrite I4. ring.
Qed.

Lemma moves_ignored (es : list Touch.event) (s : Touch.t * World) :
  Touch.isDragging (fst s) = false ->
  fold_left (fun s e => Touch.handleTouchMove e s) es s = s.
Proof.
  intros H. induction es as [|e es IH]; [reflexivity|].
  cbn [fold_left]. unfold Touch.handleTouchMove at 2. rewrite H. exact IH.
Qed.

(** Between two frames a stroke moves the player by the vector from its
    first point to its last one; once the finger is lifted, touch moves
    are ignored. *)
Lemma stroke_moves (e0 : Touch.event) (es : list Touch.event)
    (s : Touch.t * World) :
  let s' := Touch.stroke e0 es s in
  let p := List.last (map touch_point es) (touch_point e0) in
  Player.x (player (snd s')) == Player.x (player (snd s)) + (fst p - fst (touch_point e0))
  /\ Player.y (player (snd s')) == Player.y (player (snd s)) + (snd p - snd (touch_point e0))
  /\ fold_left (fun s e => Touch.handleTouchMove e s) es (Touch.handleTouchEnd s')
     = Touch.handleTouchEnd s'.
Proof.
  cbv zeta. unfold Touch.stroke, Touch.handleTouchStart.
  destruct (moves_telescope es
              (Touch.mk true (fst (touch_point e0)) (snd (touch_point e0))) (snd s) eq_refl)
    as (I1 & I2 & I3 & I4).
  cbn [Touch.lastTouchX Touch.lastTouchY] in I2, I3, I4.
  change (Touch.clientX e0 - Touch.rect_left e0) with (fst (touch_point e0)).
  change (Touch.clientY e0 - Touch.rect_top e0) with (snd (touch_point e0)).
  change ((touch_point e0).1, (touch_point e0).2) with (touch_point e0) in I2.
  rewrite <- I2. cbn [fst snd].
  split; [|split].
  - apply (Qplus_inj_r _ _ (fst (touch_point e0))). rewrite I3. ring.
  - apply (Qplus_inj_r _ _ (snd (touch_point e0))). rewrite I4. ring.
  - apply moves_ignored. reflexivity.
Qed.

(** ** More on the frame *)

Lemma entities_player_position (env : Env) (canvas : Canvas) (cl : Closure.t)
    (now : Z) (w : World) :
  let w' := check_survivor now
              (check_level_up cl (entities env canvas cl now w)) in
  Player.x (player w') = Player.x (player w)
  /\ Player.y (player w') = Player.y (player w).
Proof.
  cbv zeta.
  set (P := fun x => Player.x (player x) = Player.x (player w)
                     /\ Player.y (player x) = Player.y (player w)).
  change (P (check_survivor now
               (check_level_up cl (entities env canvas cl now w)))).
  apply (check_survivor_fp P); [stable|].
  apply (check_level_up_fp P); try stable.
  apply (rule_entities env canvas cl now P (fun _ => True)); unconcerned.
  - intros x Hx _. unfold player_hit.
    destruct (has_active cl SHIELD now); [exact Hx|].
    unfold setLives_hit, set_invincibility.
    destruct (lives x <=? 1)%Z; exact Hx.
  - intros e x _ Hx. apply (kill_count_fp P); unconcerned. exact Hx.
  - intros p x Hx. apply (pickup_fp P); try stable. exact Hx.
  - apply List.Forall_forall. intros; exact I.
  - split; reflexivity.
Qed.

Lemma frame_player_position (env : Env) (canvas : Canvas) (w : World) :
  gameState w = PLAYING ->
  Player.x (player (frame env canvas w))
    = Player.x (player (handle_input canvas w))
  /\ Player.y (player (frame env canvas w))
     = Player.y (player (handle_input canvas w)).
Proof.
  intros Hplay. unfold frame. rewrite Hplay.
  unfold loop, now_, loop_from. cbv beta iota zeta.
  apply (entities_player_position env canvas (closure_of w)
           (Date_now env (dateCalls (handle_input canvas w)))
           (set_dateCalls (S (dateCalls (handle_input canvas w)))
              (handle_input canvas w))).
Qed.

(** X18: only the input phase of a frame moves the player: at the end of
    a frame run while PLAYING the player is where the input phase put it,
    whatever hit it since, hence inside the clamp bounds
    0 <= x <= max(0, width - PLAYER_SIZE) and
    0 <= y <= max(0, height - PLAYER_SIZE). *)
Theorem frame_player_in_field (env : Env) (canvas : Canvas) (w : World) :
  gameState w = PLAYING ->
  let p := player (frame env canvas w) in
  Player.x p = Player.x (player (handle_input canvas w))
  /\ Player.y p = Player.y (player (handle_input canvas w))
  /\ 0 <= Player.x p <= Qmax 0 (clientWidth canvas - PLAYER_SIZE)
  /\ 0 <= Player.y p <= Qmax 0 (clientHeight canvas - PLAYER_SIZE).
Proof.
  intros Hplay. cbv zeta.
  destruct (frame_player_position env canvas w Hplay) as [Ex Ey].
  rewrite Ex, Ey.
  split; [reflexivity|]. split; [reflexivity|].
  destruct (handle_input_player canvas w) as (vx & vy & E).
  rewrite E. cbn [Player.x Player.y].
  destruct (clamp_bounds (clientWidth canvas - PLAYER_SIZE) vx).
  destruct (clamp_bounds (clientHeight canvas - PLAYER_SIZE) vy).
  auto.
Qed.

(** X19: on a canvas at least [PLAYER_SIZE] wide and [PLAYER_SIZE + 20]
    high a new game starts inside the field: after the first frame the
    player is still at the start position, centred horizontally and 20
    above the bottom edge, since the start clears the keys and the clamp
    leaves that position alone. *)
Theorem startGame_first_frame (env : Env) (canvas : Canvas) (w : World) :
  PLAYER_SIZE <= clientWidth canvas ->
  PLAYER_SIZE + 20 <= clientHeight canvas ->
  let p := player (frame env canvas (startGame env canvas w)) in
  Player.x p == clientWidth canvas / 2 - PLAYER_SIZE / 2
  /\ Player.y p == clientHeight canvas - PLAYER_SIZE - 20.
Proof.
  intros HW HH. cbv zeta.
  destruct (frame_player_position env canvas (startGame env canvas w) eq_refl)
    as [Ex Ey].
  rewrite Ex, Ey.
  unfold handle_input, key, startGame, now_. cbv beta iota zeta.
  cbn [keys player set_player Player.x Player.y].
  rewrite !lookup_empty. cbn [orb].
  unfold PLAYER_SIZE in *.
  split.
  - rewrite Q.min_r, Q.max_r; try reflexivity; unfold Qdiv; change (/ 2) with (1 # 2); lra.
  - rewrite Q.min_r, Q.max_r; try reflexivity; lra.
Qed.

(** X20: a frame run while PLAYING that reads the clock more than 60000
    ms after the start time of the game ends with "survivor" unlocked,
    whatever else happens in the frame; the time spent paused counts,
    since only the two clock readings are compared. *)
Theorem frame_survivor (env : Env) (canvas : Canvas) (w : World) :
  gameState w = PLAYING ->
  In "survivor" (map Achievement.id (achievements w)) ->
  (60000 < Date_now env (dateCalls w) - startTime w)%Z ->
  is_unlocked "survivor" (achievements (frame env canvas w)) = true.
Proof.
  intros Hplay Hin Ht. unfold frame. rewrite Hplay.
  unfold loop, now_, loop_from. cbv beta iota zeta.
  set (now := Date_now env (dateCalls (handle_input canvas w))).
  set (w1 := set_dateCalls (S (dateCalls (handle_input canvas w)))
               (handle_input canvas w)).
  set (w2 := check_level_up (closure_of w)
               (entities env canvas (closure_of w) now w1)).
  assert (H2 : startTime w2 = startTime w
               /\ map Achievement.id (achievements w2)
                  = map Achievement.id (achievements w)).
  { unfold w2.
    apply (check_level_up_fp
             (fun x => startTime x = startTime w
                       /\ map Achievement.id (achievements x)
                          = map Achievement.id (achievements w)));
      try stable.
    - intros id x [Hx1 Hx2]. split; [exact Hx1|].
      unfold unlock. cbn [achievements set_achievements].
      now rewrite unlockAchievement_ids.
    - apply (entities_fp
               (fun x => startTime x = startTime w
                         /\ map Achievement.id (achievements x)
                            = map Achievement.id (achievements w)));
        try stable.
      + intros id x [Hx1 Hx2]. split; [exact Hx1|].
        unfold unlock. cbn [achievements set_achievements].
        now rewrite unlockAchievement_ids.
      + split; reflexivity. }
  destruct H2 as [H2 H3]. unfold check_survivor. rewrite H2.
  change now with (Date_now env (dateCalls w)).
  destruct (Z.ltb_spec 60000 (Date_now env (dateCalls w) - startTime w));
    [|lia].
  unfold unlock. cbn [achievements set_achievements].
  apply unlock_is_unlocked. now rewrite H3.
Qed.

Lemma same_box_hits (b : Bullet.t) (e1 e : Enemy.t) :
  same_box e1 e -> bullet_hits_enemy b e1 = bullet_hits_enemy b e.
Proof.
  intros (Hx & Hy & Hs). unfold bullet_hits_enemy. now rewrite Hx, Hy, Hs.
Qed.

Lemma splice1_app {A : Type} (pre : list A) (b : A) (rest : list A) :
  splice1 (length pre) (pre ++ b :: rest) = pre ++ rest.
Proof. induction pre as [|a pre IH]; simpl; [reflexivity|now rewrite IH]. Qed.

Lemma nth_error_middle {A : Type} (pre : list A) (b : A) (rest : list A) :
  nth_error (pre ++ b :: rest) (length pre) = Some b.
Proof. induction pre as [|a pre IH]; simpl; auto. Qed.

Lemma forEach_done (env : Env) (canvas : Canvas) (cl : Closure.t)
    (len k : nat) (s : EnemyIter) :
  (length (bullets (snd s)) <= k)%nat ->
  js_forEach iter_bullets (enemy_bullet_cb env canvas cl) len k s = s.
Proof.
  revert k. induction len as [|len IH]; intros k Hk; [reflexivity|].
  simpl. unfold iter_bullets at 1.
  assert (E : nth_error (bullets (snd s)) k = None)
    by (apply List.nth_error_None; exact Hk).
  rewrite E. apply IH. lia.
Qed.

Lemma enemy_bullet_cb_eq (env : Env) (canvas : Canvas) (cl : Closure.t)
    (b : Bullet.t) (k : nat) (e : Enemy.t) (hit : bool) (w : World) :
  enemy_bullet_cb env canvas cl b k (e, hit, w)
  = if bullet_hits_enemy b e then
      if (Enemy.health e - 1 <=? 0)%Z
      then (Enemy.set_health (Enemy.health e - 1)%Z e, true,
            kill_effects env canvas cl
              (Enemy.set_health (Enemy.health e - 1)%Z e)
              (set_bullets (splice1 k (bullets w)) w))
      else (Enemy.set_health (Enemy.health e - 1)%Z e, hit,
            set_bullets (splice1 k (bullets w)) w)
    else (e, hit, w).
Proof. reflexivity. Qed.

Lemma forEach_scan (env : Env) (canvas : Canvas) (cl : Closure.t)
    (e : Enemy.t) (len : nat) :
  forall (pre rest : list Bullet.t) (e1 : Enemy.t) (hit1 : bool) (w1 : World),
    bullets w1 = pre ++ rest -> (length rest <= len)%nat -> same_box e1 e ->
    let r := js_forEach iter_bullets (enemy_bullet_cb env canvas cl) len
               (length pre) (e1, hit1, w1) in
    bullets (snd r) = pre ++ survivors e rest
    /\ Enemy.health (fst (fst r))
       = (Enemy.health e1 - Z.of_nat (removed e rest))%Z
    /\ (snd (fst r) = true <->
        hit1 = true
        \/ ((1 <= removed e rest)%nat
            /\ (Enemy.health e1 - Z.of_nat (removed e rest) <= 0)%Z)).
Proof.
  induction len as [|len IH]; intros pre rest e1 hit1 w1 Hb Hlen Hbox;
    cbv zeta.
  - destruct rest; [|simpl in Hlen; lia]. simpl.
    split; [exact Hb|]. split; [lia|]. split; [auto|]. intros [H|[H _]]; [exact H|lia].
  - destruct rest as [|b rest].
    + rewrite forEach_done by (cbn [snd]; rewrite Hb, List.app_nil_r; lia).
      simpl. split; [exact Hb|]. split; [lia|]. split; [auto|].
      intros [H|[H _]]; [exact H|lia].
    + assert (Estep :
        js_forEach iter_bullets (enemy_bullet_cb env canvas cl) (S len)
          (length pre) (e1, hit1, w1)
        = js_forEach iter_bullets (enemy_bullet_cb env canvas cl) len
            (S (length pre))
            (enemy_bullet_cb env canvas cl b (length pre) (e1, hit1, w1))).
      { cbn [js_forEach]. unfold iter_bullets. cbn [snd].
        now rewrite Hb, nth_error_middle. }
      rewrite Estep. clear Estep.
      rewrite enemy_bullet_cb_eq.
      rewrite (same_box_hits b e1 e Hbox).
      cbn [survivors removed].
      destruct (bullet_hits_enemy b e) eqn:Hhit.
      * rewrite Hb, splice1_app.
        set (e2 := Enemy.set_health (Enemy.health e1 - 1)%Z e1).
        assert (Hbox2 : same_box e2 e) by exact Hbox.
        set (w2 := set_bullets (pre ++ rest) w1).
        assert (Hk : bullets (kill_effects env canvas cl e2 w2) = pre ++ rest).
        { apply (kill_effects_fp (fun x => bullets x = pre ++ rest));
            try stable. reflexivity. }
        match goal with
        | |- context [js_forEach _ _ len _ ?s] => remember s as s2 eqn:Es2
        end.
        assert (Hs2 : bullets (snd s2) = pre ++ rest
                      /\ fst (fst s2) = e2
                      /\ snd (fst s2)
                         = ((Enemy.health e1 - 1 <=? 0)%Z || hit1)).
        { rewrite Es2.
          destruct (Enemy.health e1 - 1 <=? 0)%Z; cbn [fst snd orb];
            [split; [exact Hk | split; reflexivity]
            |split; [reflexivity | split; reflexivity]]. }
        clear Es2.
        destruct Hs2 as (Hs2b & Hs2e & Hs2h).
        destruct s2 as [[e2' hit2] w2']. cbn [fst snd] in Hs2b, Hs2e, Hs2h.
        subst e2'.
        destruct rest as [|b2 rest].
        -- rewrite forEach_done
             by (cbn [snd]; rewrite Hs2b, List.app_nil_r; lia).
           cbn [fst snd]. split; [exact Hs2b|].
           cbn [Enemy.health Enemy.set_health e2].
           split; [lia|]. rewrite Hs2h.
           destruct (Z.leb_spec (Enemy.health e1 - 1) 0); cbn [orb].
           ++ split; [intros _; right; lia | reflexivity].
           ++ split; [auto | intros [H'|[_ H']]; [exact H'|lia]].
        -- assert (Hb2 : bullets w2' = (pre ++ [b2]) ++ rest)
             by (rewrite Hs2b, <- List.app_assoc; reflexivity).
           assert (Hl : S (length pre) = length (pre ++ [b2]))
             by (rewrite List.length_app; simpl; lia).
           rewrite Hl.
           destruct (IH (pre ++ [b2]) rest e2 hit2 w2' Hb2
                       ltac:(simpl in Hlen; lia) Hbox2) as (I1 & I2 & I3).
           cbv zeta in I1, I2, I3.
           split; [rewrite I1, <- List.app_assoc; reflexivity|].
           split.
           ++ rewrite I2. cbn [Enemy.health Enemy.set_health e2]. lia.
           ++ rewrite I3, Hs2h. cbn [Enemy.health Enemy.set_health e2].
              destruct (Z.leb_spec (Enemy.health e1 - 1) 0); cbn [orb].
              ** split; [intros _; right; lia | intros _; left; reflexivity].
              ** split.
                 --- intros [H'|[H1 H2]]; [left; exact H'|right; lia].
                 --- intros [H'|[H1 H2]]; [left; exact H'|right; lia].
      * assert (Hb2 : bullets w1 = (pre ++ [b]) ++ rest)
          by (rewrite Hb, <- List.app_assoc; reflexivity).
        assert (Hl : S (length pre) = length (pre ++ [b]))
          by (rewrite List.length_app; simpl; lia).
        rewrite Hl.
        destruct (IH (pre ++ [b]) rest e1 hit1 w1 Hb2
                    ltac:(simpl in Hlen; lia) Hbox) as (I1 & I2 & I3).
        cbv zeta in I1, I2, I3.
        split; [rewrite I1, <- List.app_assoc; reflexivity|].
        split; [exact I2 | exact I3].
Qed.

Lemma survivors_removed (e : Enemy.t) (bs : list Bullet.t) :
  (length (survivors e bs) + removed e bs = length bs)%nat.
Proof.
  assert (H : forall n bs, (length bs <= n)%nat ->
                (length (survivors e bs) + removed e bs = length bs)%nat).
  { clear bs. induction n as [|n IH]; intros bs Hn.
    - destruct bs; [reflexivity|simpl in Hn; lia].
    - destruct bs as [|b bs]; [reflexivity|].
      cbn [survivors removed]. destruct (bullet_hits_enemy b e).
      + destruct bs as [|b2 bs]; [reflexivity|].
        cbn [length] in *. specialize (IH bs ltac:(lia)). lia.
      + cbn [length] in *. specialize (IH bs ltac:(lia)). lia. }
  now apply (H (length bs)).
Qed.

(** X21: the [forEach] of one enemy over the player bullets leaves the
    bullets [survivors] describes: a bullet that overlaps the enemy is
    spliced out and takes one health point, unless it directly follows a
    bullet spliced out in the same pass, in which case it is passed over
    and stays; the bullets that do not overlap stay.  The health lost is
    the number of bullets removed, and the enemy is marked as hit exactly
    when at least one bullet was removed and its health has gone down to
    0 or below. *)
Theorem enemy_bullets_scan (env : Env) (canvas : Canvas)
    (cl : Closure.t) (e : Enemy.t) (w : World) :
  let '(e', hit, w') := enemy_bullets env canvas cl e w in
  let n := Z.of_nat (removed e (bullets w)) in
  bullets w' = survivors e (bullets w)
  /\ Enemy.health e' = (Enemy.health e - n)%Z
  /\ (Z.of_nat (length (bullets w')) + n = Z.of_nat (length (bullets w)))%Z
  /\ (hit = true <-> (1 <= n)%Z /\ (Enemy.health e' <= 0)%Z).
Proof.
  pose proof (forEach_scan env canvas cl e (length (bullets w)) [] (bullets w)
                e false w eq_refl (Nat.le_refl _)
                (conj eq_refl (conj eq_refl eq_refl))) as H.
  cbv zeta in H. cbn [length app] in H. fold (enemy_bullets env canvas cl e w) in H.
  destruct (enemy_bullets env canvas cl e w) as [[e' hit] w'].
  cbn [fst snd] in H. destruct H as (H1 & H2 & H3). cbv zeta.
  split; [exact H1|]. split; [exact H2|]. split.
  - rewrite H1. pose proof (survivors_removed e (bullets w)). lia.
  - rewrite H3, H2. split.
    + intros [H|[Ha Hb]]; [discriminate|lia].
    + intros [Ha Hb]. right. lia.
Qed.

(** ** Instances *)

(** On [triple_hit_world], where two of the three bullets are consumed. *)
Lemma frame_culls_witness :
  let w' := frame (const_env 0.5 0) canvas_400x600 triple_hit_world in
  Forall (fun b => 0 < Bullet.y b
                   /\ 0 < Bullet.x b /\ Bullet.x b < clientWidth canvas_400x600)
         (bullets w')
  /\ Forall (fun e => Enemy.y e <= height canvas_400x600) (enemies w')
  /\ Forall (fun p => PowerUp.y p < height canvas_400x600) (powerUps w')
  /\ Forall (fun p => 0 < Particle.life p) (particles w').
Proof.
  apply (frame_culls (const_env 0.5 0) canvas_400x600 triple_hit_world).
  reflexivity.
Defined.

(** Levels 16 and 30. *)
Lemma powerup_chance_decreasing_witness :
  0.02 <= powerup_chance 30
  /\ powerup_chance 30 <= powerup_chance 16
  /\ powerup_chance 16 <= POWERUP_SPAWN_CHANCE
  /\ (powerup_chance 30 == 0.02 <-> (28 <= 30)%Z).
Proof. apply (powerup_chance_decreasing 16 30). lia. Defined.

(** A HEAVY enemy on a field 400 wide, draw 0.5. *)
Lemma Enemy_new_inside_witness :
  let e := Enemy.new 0.5 400 HEAVY in
  0 <= Enemy.x e
  /\ Enemy.x e + Enemy.size e <= 400
  /\ Enemy.y e + Enemy.size e == 0
  /\ Enemy.health e = EnemyConfig.health (ENEMY_CONFIGS HEAVY).
Proof.
  apply (Enemy_new_inside 0.5 400 HEAVY).
  - unfold Qle. simpl. lia.
  - reflexivity.
  - unfold Qle. simpl. lia.
Defined.

(** A power-up on a field 400 wide, draws 0.9 and 0.5: an extra life. *)
Lemma PowerUp_new_spec_witness :
  let p := PowerUp.new 0.9 0.5 400 in
  0 <= PowerUp.x p
  /\ PowerUp.x p + PowerUp.size p <= 400
  /\ PowerUp.y p + PowerUp.size p == 0
  /\ (PowerUp.type p = TRIPLE_SHOT <-> 0.9 < 0.4)
  /\ (PowerUp.type p = SHIELD <-> 0.4 <= 0.9 /\ 0.9 < 0.8)
  /\ (PowerUp.type p = EXTRA_LIFE <-> 0.8 <= 0.9).
Proof.
  apply (PowerUp_new_spec 0.9 0.5 400).
  - unfold Qle. simpl. lia.
  - reflexivity.
  - unfold Qle. simpl. lia.
Defined.

(** Two frames between the two presses of "p" on [started_world]. *)
Lemma pause_freezes_witness :
  handleKeyDown "p"
    (frames (const_env 0.5 0) [canvas_400x600; canvas_400x600]
       (handleKeyDown "p" started_world))
  = set_keys (<["p" := true]> (keys started_world)) started_world.
Proof.
  apply (pause_freezes (const_env 0.5 0) [canvas_400x600; canvas_400x600]
           "p" started_world).
  - left. reflexivity.
  - reflexivity.
Defined.

(** On [beset_world], where the player is hit. *)
Lemma frame_player_in_field_witness :
  let p := player (frame (const_env 0.5 100) canvas_400x600 beset_world) in
  Player.x p = Player.x (player (handle_input canvas_400x600 beset_world))
  /\ Player.y p = Player.y (player (handle_input canvas_400x600 beset_world))
  /\ 0 <= Player.x p <= Qmax 0 (clientWidth canvas_400x600 - PLAYER_SIZE)
  /\ 0 <= Player.y p <= Qmax 0 (clientHeight canvas_400x600 - PLAYER_SIZE).
Proof.
  apply (frame_player_in_field (const_env 0.5 100) canvas_400x600 beset_world).
  reflexivity.
Defined.

(** A first game on the 400 x 600 canvas: the player is at (180, 540). *)
Lemma startGame_first_frame_witness :
  let p := player (frame (const_env 0.5 0) canvas_400x600
                     (startGame (const_env 0.5 0) canvas_400x600
                        initial_world)) in
  Player.x p == clientWidth canvas_400x600 / 2 - PLAYER_SIZE / 2
  /\ Player.y p == clientHeight canvas_400x600 - PLAYER_SIZE - 20.
Proof.
  apply (startGame_first_frame (const_env 0.5 0) canvas_400x600
           initial_world).
  - unfold Qle. simpl. lia.
  - unfold Qle. simpl. lia.
Defined.

(** [started_world], started at time 0, in a frame at time 61000. *)
Lemma frame_survivor_witness :
  is_unlocked "survivor"
    (achievements (frame (const_env 0.5 61000) canvas_400x600 started_world))
  = true.
Proof.
  apply (frame_survivor (const_env 0.5 61000) canvas_400x600 started_world).
  - reflexivity.
  - right. left. reflexivity.
  - vm_compute. reflexivity.
Defined.

(** ** Spawning and stored power-ups *)

Lemma stored_pickup (env : Env) (p : PowerUp.t) (w : World) :
  stored TRIPLE_SHOT w -> stored TRIPLE_SHOT (pickup env p w).
Proof.
  unfold pickup, now_, unlock, stored. cbv beta iota zeta. intros Hw.
  destruct (PowerUpType_eqb (PowerUp.type p) EXTRA_LIFE);
    match goal with
    | |- context [if ?c then _ else _] => destruct c
    end;
    cbn [activePowerUps set_lives set_achievements set_powerUpsPicked
         set_activePowerUps set_dateCalls]; try exact Hw;
    (destruct (PowerUp.type p);
     [ rewrite entries_of_upsert; discriminate
     | rewrite entries_of_upsert_other by discriminate; exact Hw
     | rewrite entries_of_upsert_other by discriminate; exact Hw ]).
Qed.

Lemma stored_frame (env : Env) (canvas : Canvas) (w : World) :
  stored TRIPLE_SHOT w -> stored TRIPLE_SHOT (frame env canvas w).
Proof.
  intros Hw. unfold frame. destruct (gameState w); try exact Hw.
  unfold loop, now_, loop_from. cbv beta iota zeta.
  apply (check_survivor_fp (stored TRIPLE_SHOT)); [stable|].
  apply (check_level_up_fp (stored TRIPLE_SHOT)); try stable.
  apply (rule_entities env canvas (closure_of w) _ (stored TRIPLE_SHOT)
           (fun _ => True)); unconcerned.
  - intros x Hx _. unfold player_hit.
    destruct (has_active _ SHIELD _).
    + unfold stored. cbn [activePowerUps set_activePowerUps].
      rewrite entries_of_without_other by discriminate. exact Hx.
    + unfold setLives_hit, set_invincibility.
      destruct (lives x <=? 1)%Z; exact Hx.
  - intros e x _ Hx. apply (kill_count_fp (stored TRIPLE_SHOT)); unconcerned.
    exact Hx.
  - intros p x Hx. now apply stored_pickup.
  - apply List.Forall_forall. intros; exact I.
  - exact Hw.
Qed.

(** X23: expiry removes nothing from the stored power-ups: once a triple
    shot is stored, no frame, key, touch move, button or new game leaves
    the list without a triple-shot entry; it is only ever replaced by a
    fresh one. *)
Theorem triple_shot_entry_stays (env : Env) (w w' : World) :
  ui_step env w w' ->
  entries_of TRIPLE_SHOT (activePowerUps w) <> [] ->
  entries_of TRIPLE_SHOT (activePowerUps w') <> [].
Proof.
  intros Hs Hw. destruct Hs as [w w' Hs| | |]; try exact Hw.
  destruct Hs as [canvas w|canvas w|k w|k w|dx dy w _]; try exact Hw.
  - now apply stored_frame.
  - unfold handleKeyDown. cbv zeta.
    destruct (_ || _); [|exact Hw].
    cbn [gameState set_keys]. destruct (gameState w); exact Hw.
Qed.

(** X22: a frame spawns at most one enemy, and none once the quota
    [ENEMIES_PER_LEVEL * level] of the captured level is reached: when
    the loop comes to the level check the count of enemies spawned in the
    level is what it was or one more, the latter only if it was below the
    quota. *)
Theorem one_spawn_per_frame (env : Env) (canvas : Canvas) (cl : Closure.t)
    (w : World) :
  let w' := at_level_check env canvas cl w in
  let n := enemiesSpawnedInLevel w in
  enemiesSpawnedInLevel w' = n
  \/ (enemiesSpawnedInLevel w' = (n + 1)%Z
      /\ (n < ENEMIES_PER_LEVEL * Closure.level cl)%Z).
Proof.
  cbv zeta. unfold at_level_check, now_, entities. cbv beta iota zeta.
  set (now := Date_now env (dateCalls (handle_input canvas w))).
  set (w1 := set_dateCalls _ _).
  set (n := enemiesSpawnedInLevel w).
  set (P := fun x => enemiesSpawnedInLevel x = n
                     \/ (enemiesSpawnedInLevel x = (n + 1)%Z
                         /\ (n < ENEMIES_PER_LEVEL * Closure.level cl)%Z)).
  set (w2 := enemyBullets_pass canvas cl now
               (bullets_pass canvas (shoot cl now w1))).
  assert (H2 : enemiesSpawnedInLevel w2 = n).
  { unfold w2.
    apply (enemyBullets_pass_fp (fun x => enemiesSpawnedInLevel x = n));
      try stable.
    apply (bullets_pass_fp (fun x => enemiesSpawnedInLevel x = n)); [stable|].
    apply (shoot_fp (fun x => enemiesSpawnedInLevel x = n)); try stable.
    reflexivity. }
  change (P (particles_pass
               (powerUps_pass env canvas
                  (enemies_pass env canvas cl now
                     (maybe_spawnEnemy env canvas cl w2))))).
  apply (particles_pass_fp P); [stable|].
  apply (powerUps_pass_fp P); try stable.
  apply (enemies_pass_fp P); try stable.
  unfold P, maybe_spawnEnemy, spawnEnemy, random. cbv beta iota zeta.
  destruct (Qltb _ _); cbn [andb]; [|left; exact H2].
  cbn [enemiesSpawnedInLevel set_randomCalls].
  destruct (Z.ltb_spec (enemiesSpawnedInLevel w2)
              (ENEMIES_PER_LEVEL * Closure.level cl)) as [Hlt|Hge];
    [|left; exact H2].
  right. cbn [enemiesSpawnedInLevel set_enemiesSpawnedInLevel set_enemies
              set_randomCalls].
  rewrite H2 in *. split; [reflexivity | exact Hlt].
Qed.

(** On [triple_world], after a frame. *)
Lemma triple_shot_entry_stays_witness :
  entries_of TRIPLE_SHOT
    (activePowerUps (frame (const_env 0.5 2000) canvas_400x600 triple_world))
  <> [].
Proof.
  apply (triple_shot_entry_stays (const_env 0.5 2000) triple_world).
  - apply ui_step_step, step_frame.
  - vm_compute. discriminate.
Defined.

(** ** A stroke and the next frame *)

Lemma moves_keep (es : list Touch.event) (s : Touch.t * World) :
  let s' := fold_left (fun s e => Touch.handleTouchMove e s) es s in
  keys (snd s') = keys (snd s) /\ gameState (snd s') = gameState (snd s).
Proof.
  revert s. induction es as [|e es IH]; intros s; cbv zeta; [split; reflexivity|].
  cbn [fold_left]. destruct (IH (Touch.handleTouchMove e s)) as [I1 I2].
  cbv zeta in I1, I2. rewrite I1, I2. unfold Touch.handleTouchMove.
  destruct (negb _); split; reflexivity.
Qed.

Lemma clamp_Qeq (hi v v' : Q) :
  v == v' -> Qmax 0 (Qmin hi v) == Qmax 0 (Qmin hi v').
Proof. intros H. now rewrite H. Qed.

Lemma handle_input_idle (canvas : Canvas) (w : World) :
  no_key_held w ->
  Player.x (player (handle_input canvas w))
    = Qmax 0 (Qmin (clientWidth canvas - PLAYER_SIZE) (Player.x (player w)))
  /\ Player.y (player (handle_input canvas w))
     = Qmax 0 (Qmin (clientHeight canvas - PLAYER_SIZE) (Player.y (player w))).
Proof.
  intros (H1 & H2 & H3 & H4). unfold handle_input. cbv zeta.
  rewrite H1, H2, H3, H4. split; reflexivity.
Qed.

(** X17: the touch moves delivered between two frames while PLAYING
    move the player by the vector from the first touch point of the
    stroke to the last one, whatever the path and with no clamp; the
    next frame, if no movement key is held, puts the player at the clamp
    of that displaced position, so that across frames the player follows
    the finger only inside the field.  Once the finger is lifted, touch
    moves are ignored. *)
Theorem stroke_displacement (env : Env) (canvas : Canvas)
    (e0 : Touch.event) (es : list Touch.event) (s : Touch.t * World) :
  gameState (snd s) = PLAYING -> no_key_held (snd s) ->
  let s' := Touch.stroke e0 es s in
  let p := List.last (map touch_point es) (touch_point e0) in
  let x1 := Player.x (player (snd s)) + (fst p - fst (touch_point e0)) in
  let y1 := Player.y (player (snd s)) + (snd p - snd (touch_point e0)) in
  let pl := player (frame env canvas (snd s')) in
  Player.x (player (snd s')) == x1
  /\ Player.y (player (snd s')) == y1
  /\ Player.x pl == Qmax 0 (Qmin (clientWidth canvas - PLAYER_SIZE) x1)
  /\ Player.y pl == Qmax 0 (Qmin (clientHeight canvas - PLAYER_SIZE) y1)
  /\ fold_left (fun s e => Touch.handleTouchMove e s) es
       (Touch.handleTouchEnd s')
     = Touch.handleTouchEnd s'.
Proof.
  intros Hplay Hkeys. cbv zeta.
  destruct (stroke_moves e0 es s) as (Hx & Hy & Hend).
  cbv zeta in Hx, Hy, Hend.
  assert (Hkeep : keys (snd (Touch.stroke e0 es s)) = keys (snd s)
                  /\ gameState (snd (Touch.stroke e0 es s)) = PLAYING).
  { unfold Touch.stroke.
    destruct (moves_keep es (Touch.handleTouchStart e0 s)) as [K1 K2].
    cbv zeta in K1, K2. rewrite K1, K2. split; [reflexivity|exact Hplay]. }
  destruct Hkeep as [K1 K2].
  destruct (frame_player_position env canvas _ K2) as [Fx Fy].
  assert (Hk' : no_key_held (snd (Touch.stroke e0 es s))).
  { unfold no_key_held, key in *. rewrite K1. exact Hkeys. }
  destruct (handle_input_idle canvas _ Hk') as [Ix Iy].
  split; [exact Hx|]. split; [exact Hy|].
  split; [|split; [|exact Hend]].
  - rewrite Fx, Ix. now apply clamp_Qeq.
  - rewrite Fy, Iy. now apply clamp_Qeq.
Qed.

(** A drag of 1000 to the left from [started_world], where the player is
    at x = 180: the player is at -820 until the next frame, which puts it
    at 0. *)
Lemma stroke_displacement_witness :
  let s' := Touch.stroke (Touch.mkEvent 200 300 0 0)
              [Touch.mkEvent (-800) 300 0 0] (Touch.initial, started_world) in
  Player.x (player (snd s')) == -820
  /\ Player.x (player (frame (const_env 0.5 0) canvas_400x600 (snd s'))) == 0.
Proof.
  destruct (stroke_displacement (const_env 0.5 0) canvas_400x600
              (Touch.mkEvent 200 300 0 0) [Touch.mkEvent (-800) 300 0 0]
              (Touch.initial, started_world))
    as (Hx & _ & Fx & _).
  - reflexivity.
  - repeat split; reflexivity.
  - cbv zeta in *. split.
    + rewrite Hx. reflexivity.
    + rewrite Fx. reflexivity.
Defined.
